(** * Bilateral image filter (imfilter.cpp): model and verification

    The development embeds [getIntensity], [getColor01],
    [bilateralFilterPixel] and [filterImage] of [imfilter.cpp].

    Numeric conventions of the embedding, all read off the C++ source:
    - [int] is a 32-bit two's complement integer; arithmetic on it wraps
      around ([Int.wrap]);
    - [float] is IEEE-754 binary32 and [double] is binary64, both with
      round-to-nearest-even, every operation rounded once in the type
      the C++ usual arithmetic conversions select (no extended precision,
      no fused multiply-add);
    - a conversion of a floating value to an integer type truncates and
      is undefined when the truncated value does not fit: the model
      returns the fault [UndefinedConversion];
    - an access outside the pixel grid returns the fault [OutOfBounds];
    - the loop [for (float xs = x1; xs <= x2; xs++)] counts with a
      binary32 variable, so it is run with fuel: [OutOfFuel] is returned
      when the fuel is used up while the loop condition still holds;
    - [exp] comes from the C library and is a parameter [expf]. *)

From Stdlib Require Import ZArith List Bool Lia String Ascii.
From Stdlib Require Import Strings.Byte.
From Stdlib Require Import Floats.SpecFloat.
From Stdlib Require Import DecimalString.
From Stdlib Require Import Sorting.Permutation.
Import ListNotations.
Local Open Scope Z_scope.

(** ** Faults and the error monad *)

Inductive fault : Type :=
| OutOfBounds
| UndefinedConversion
| OutOfFuel.

Inductive result (A : Type) : Type :=
| Ok (a : A)
| Err (f : fault).
Arguments Ok {A} a.
Arguments Err {A} f.

Definition bind {A B : Type} (c : result A) (k : A -> result B) : result B :=
  match c with
  | Ok a => k a
  | Err f => Err f
  end.

Notation "x <- c ;; k" := (bind c (fun x => k))
  (at level 61, c at next level, right associativity).
Notation "' p <- c ;; k" := (bind c (fun p => k))
  (at level 61, p pattern, c at next level, right associativity).

(** ** 32-bit signed integers *)

Module Int.
Definition min_signed : Z := - 2 ^ 31.
Definition max_signed : Z := 2 ^ 31 - 1.

Definition wrap (z : Z) : Z := (z + 2 ^ 31) mod 2 ^ 32 - 2 ^ 31.

Definition add (a b : Z) : Z := wrap (a + b).
Definition sub (a b : Z) : Z := wrap (a - b).
Definition mul (a b : Z) : Z := wrap (a * b).

Definition in_range (z : Z) : bool := (min_signed <=? z) && (z <=? max_signed).
End Int.

(** ** IEEE-754 arithmetic *)

(** The integer part of a floating-point number, rounded toward zero;
    [None] for infinities and NaN. *)
Definition Ztrunc (f : spec_float) : option Z :=
  match f with
  | S754_zero _ => Some 0
  | S754_finite s m e =>
      let a := match e with
               | Zneg p => Z.shiftr (Zpos m) (Zpos p)
               | _ => Z.shiftl (Zpos m) e
               end in
      Some (cond_Zopp s a)
  | S754_infinity _ | S754_nan => None
  end.

(** Rounding of a finite value kept in another format. *)
Definition reround (prec emax : Z) (f : spec_float) : spec_float :=
  match f with
  | S754_finite s m e => binary_round prec emax s m e
  | _ => f
  end.

Module F32.
Definition prec : Z := 24.
Definition emax : Z := 128.

Definition add := SFadd prec emax.
Definition sub := SFsub prec emax.
Definition mul := SFmul prec emax.
Definition div := SFdiv prec emax.
Definition opp := SFopp.
Definition ltb := SFltb.
Definition leb := SFleb.

Definition zero : spec_float := S754_zero false.
(** [(float) n] for an integer [n]. *)
Definition of_int (n : Z) : spec_float := binary_normalize prec emax n 0 false.
Definition one : spec_float := Eval cbv in of_int 1.

(** [(float) d] for a double [d]. *)
Definition of_double (d : spec_float) : spec_float := reround prec emax d.

(** [(int) f]. *)
Definition to_int (f : spec_float) : result Z :=
  match Ztrunc f with
  | Some n => if Int.in_range n then Ok n else Err UndefinedConversion
  | None => Err UndefinedConversion
  end.

(** [(uint8_t) f]. *)
Definition to_uint8 (f : spec_float) : result byte :=
  match Ztrunc f with
  | Some n =>
      match (if 0 <=? n then Byte.of_N (Z.to_N n) else None) with
      | Some v => Ok v
      | None => Err UndefinedConversion
      end
  | None => Err UndefinedConversion
  end.

(** [(float) v] for an 8-bit sample [v]. *)
Definition of_uint8 (v : byte) : spec_float := of_int (Z.of_N (Byte.to_N v)).
End F32.

Module F64.
Definition prec : Z := 53.
Definition emax : Z := 1024.

Definition add := SFadd prec emax.
Definition mul := SFmul prec emax.
Definition div := SFdiv prec emax.

Definition of_int (n : Z) : spec_float := binary_normalize prec emax n 0 false.
(** [(double) f] for a float [f]: exact. *)
Definition of_float (f : spec_float) : spec_float := reround prec emax f.

(** The literal [n / 10^4] rounded to the nearest double. *)
Definition decimal4 (n : Z) : spec_float := div (of_int n) (of_int 10000).
End F64.

(** ** Three-element arrays ([float I1[3]], [uint8_t pixel[3]]) *)

Definition rgb (A : Type) : Type := (A * A * A)%type.

Definition rgb_map {A B : Type} (f : A -> B) (c : rgb A) : rgb B :=
  let '(c0, c1, c2) := c in (f c0, f c1, f c2).

Definition rgb_map2 {A B C : Type} (f : A -> B -> C) (c : rgb A) (d : rgb B) : rgb C :=
  match c, d with
  | (c0, c1, c2), (d0, d1, d2) => (f c0 d0, f c1 d1, f c2 d2)
  end.

(** ** The canvas *)

(** [data y x k] is channel [k] of the pixel in column [x] of row [y]. *)
Record SimpleCanvas : Type := {
  width : Z;
  height : Z;
  data : Z -> Z -> Z -> byte
}.

Definition in_bounds (c : SimpleCanvas) (x y : Z) : bool :=
  (0 <=? x) && (x <? width c) && (0 <=? y) && (y <? height c).

(** [c.data[y][x][k] = v]. *)
Definition store (c : SimpleCanvas) (x y k : Z) (v : byte) : SimpleCanvas :=
  {| width := width c;
     height := height c;
     data := fun y' x' k' =>
               if (y' =? y) && (x' =? x) && (k' =? k) then v else data c y' x' k' |}.

(** Modelled from the spec: [SimpleCanvas::setPixel] of simplecanvas.h is
    missing; it writes the three samples of one pixel of the grid. *)
Definition setPixel (c : SimpleCanvas) (x y : Z) (r g b : byte) : result SimpleCanvas :=
  if in_bounds c x y
  then Ok (store (store (store c x y 0 r) x y 1 g) x y 2 b)
  else Err OutOfBounds.

(** Modelled from the spec: [SimpleCanvas::write] of simplecanvas.h is
    missing; the image sink persists the grid under a file name.  The
    file system is the list of the files written so far, newest first. *)
Definition files : Type := list (string * SimpleCanvas).

Definition write (c : SimpleCanvas) (name : string) (fs : files) : files :=
  (name, c) :: fs.

(** ** Parameters *)

Record Parameters : Type := {
  inpath : string;
  outpath : string;
  s : spec_float;
  b : spec_float;
  nthreads : Z;
  reps : Z
}.

(** ** The filter *)

Section Filter.
(** [exp] of the C library on [float]. *)
Variable expf : spec_float -> spec_float.

Definition getIntensity (rgbv : rgb spec_float) : spec_float :=
  let '(r0, r1, r2) := rgbv in
  F32.of_double
    (F64.add
       (F64.add (F64.mul (F64.decimal4 2125) (F64.of_float r0))
                (F64.mul (F64.decimal4 7154) (F64.of_float r1)))
       (F64.mul (F64.decimal4 721) (F64.of_float r2))).

(** Line 96: [(float)(v)/255.0f] for one sample [v]. *)
Definition sample01 (v : byte) : spec_float :=
  F32.div (F32.of_uint8 v) (F32.of_int 255).

Definition getColor01 (imagein : SimpleCanvas) (x y : Z) : result (rgb spec_float) :=
  if in_bounds imagein x y then
    Ok (sample01 (data imagein y x 0),
        sample01 (data imagein y x 1),
        sample01 (data imagein y x 2))
  else Err OutOfBounds.

(** Lines 131-134: the spatial term. *)
Definition spatialTerm (x y : Z) (s : spec_float) (xs : spec_float) (ys : Z) : spec_float :=
  if F32.ltb (F32.of_int 0) s then
    let dx := F32.sub xs (F32.of_int x) in
    let dy := Int.sub ys y in
    F32.of_double
      (F64.div
         (F64.of_float (F32.add (F32.mul dx dx) (F32.of_int (Int.mul dy dy))))
         (F64.mul (F64.mul (F64.of_int 2) (F64.of_float s)) (F64.of_float s)))
  else F32.zero.

(** Lines 137-144: the brightness term. *)
Definition brightnessTerm (b : spec_float) (I1 I2 : rgb spec_float) : spec_float :=
  if F32.ltb (F32.of_int 0) b then
    let diffI := getIntensity (rgb_map2 F32.sub I1 I2) in
    F32.of_double
      (F64.div
         (F64.of_float (F32.mul diffI diffI))
         (F64.mul (F64.mul (F64.of_int 2) (F64.of_float b)) (F64.of_float b)))
  else F32.zero.

(** Line 147. *)
Definition weight (d1 d2 : spec_float) : spec_float :=
  expf (F32.sub (F32.opp d1) d2).

(** The accumulators [final] and [weights]. *)
Definition sums : Type := (rgb spec_float * spec_float)%type.

Definition sums0 : sums := ((F32.zero, F32.zero, F32.zero), F32.zero).

(** Lines 128-151: the body of the two window loops. *)
Definition windowBody (imagein : SimpleCanvas) (x y : Z) (s b : spec_float)
    (I1 : rgb spec_float) (xs : spec_float) (ys : Z) (acc : sums) : result sums :=
  xi <- F32.to_int xs ;;
  I2 <- getColor01 imagein xi ys ;;
  let d1 := spatialTerm x y s xs ys in
  let d2 := brightnessTerm b I1 I2 in
  let w := weight d1 d2 in
  let '(final, weights) := acc in
  Ok (rgb_map2 F32.add final (rgb_map (F32.mul w) I2), F32.add weights w).

(** Line 127: [for (int ys = y1; ys <= y2; ys++)], [n] iterations left. *)
Fixpoint loop_ys (imagein : SimpleCanvas) (x y : Z) (s b : spec_float)
    (I1 : rgb spec_float) (xs : spec_float) (n : nat) (ys : Z) (acc : sums)
    : result sums :=
  match n with
  | O => Ok acc
  | S n' =>
      acc' <- windowBody imagein x y s b I1 xs ys acc ;;
      loop_ys imagein x y s b I1 xs n' (ys + 1) acc'
  end.

(** Line 126: [for (float xs = x1; xs <= x2; xs++)]. *)
Fixpoint loop_xs (fuel : nat) (imagein : SimpleCanvas) (x y : Z) (s b : spec_float)
    (I1 : rgb spec_float) (x2 y1 y2 : Z) (xs : spec_float) (acc : sums)
    : result sums :=
  if F32.leb xs (F32.of_int x2) then
    match fuel with
    | O => Err OutOfFuel
    | S fuel' =>
        acc' <- loop_ys imagein x y s b I1 xs (Z.to_nat (y2 - y1 + 1)) y1 acc ;;
        loop_xs fuel' imagein x y s b I1 x2 y1 y2 (F32.add xs F32.one) acc'
    end
  else Ok acc.

(** Lines 112-116: the clipped window [(x1, x2, y1, y2)]. *)
Definition window (imagein : SimpleCanvas) (x y support : Z) : Z * Z * Z * Z :=
  let x1 := if Int.sub x support >? 0 then Int.sub x support else 0 in
  let x2 := if Int.add x support <? width imagein
            then Int.add x support else Int.sub (width imagein) 1 in
  let y1 := if Int.sub y support >? 0 then Int.sub y support else 0 in
  let y2 := if Int.add y support <? height imagein
            then Int.add y support else Int.sub (height imagein) 1 in
  (x1, x2, y1, y2).

(** Lines 111-153: the sums over the window. *)
Definition bilateralSums (fuel : nat) (imagein : SimpleCanvas) (x y : Z)
    (s b : spec_float) : result sums :=
  support <- F32.to_int (F32.mul s (F32.of_int 3)) ;;
  let '(x1, x2, y1, y2) := window imagein x y support in
  I1 <- getColor01 imagein x y ;;
  loop_xs fuel imagein x y s b I1 x2 y1 y2 (F32.of_int x1) sums0.

(** Line 156: the value converted to [uint8_t]. *)
Definition quotient (weights final_k : spec_float) : spec_float :=
  F32.div (F32.mul (F32.of_int 255) final_k) weights.

(** Lines 154-157. *)
Definition quantize (acc : sums) : result (rgb byte) :=
  let '((f0, f1, f2), weights) := acc in
  o0 <- F32.to_uint8 (quotient weights f0) ;;
  o1 <- F32.to_uint8 (quotient weights f1) ;;
  o2 <- F32.to_uint8 (quotient weights f2) ;;
  Ok (o0, o1, o2).

Definition bilateralFilterPixel (fuel : nat) (imagein : SimpleCanvas) (x y : Z)
    (s b : spec_float) : result (rgb byte) :=
  acc <- bilateralSums fuel imagein x y s b ;;
  quantize acc.

(** *** The driver *)

(** Lines 171-174: one row, [n] columns left. *)
Fixpoint filterRow (fuel : nat) (imagein : SimpleCanvas) (p : Parameters)
    (y : Z) (n : nat) (x : Z) (imageout : SimpleCanvas) : result SimpleCanvas :=
  match n with
  | O => Ok imageout
  | S n' =>
      '(p0, p1, p2) <- bilateralFilterPixel fuel imagein x y (s p) (b p) ;;
      imageout' <- setPixel imageout x y p0 p1 p2 ;;
      filterRow fuel imagein p y n' (x + 1) imageout'
  end.

(** Lines 170-175: all rows, [n] rows left. *)
Fixpoint filterRows (fuel : nat) (imagein : SimpleCanvas) (p : Parameters)
    (n : nat) (y : Z) (imageout : SimpleCanvas) : result SimpleCanvas :=
  match n with
  | O => Ok imageout
  | S n' =>
      imageout' <- filterRow fuel imagein p y (Z.to_nat (width imagein)) 0 imageout ;;
      filterRows fuel imagein p n' (y + 1) imageout'
  end.

Definition filterPass (fuel : nat) (imagein : SimpleCanvas) (p : Parameters)
    (imageout : SimpleCanvas) : result SimpleCanvas :=
  filterRows fuel imagein p (Z.to_nat (height imagein)) 0 imageout.

(** Lines 181-187: [imagein.data[y][x][k] = imageout.data[y][x][k]] over
    the grid of [imagein]. *)
Definition copyBack (imagein imageout : SimpleCanvas) : SimpleCanvas :=
  {| width := width imagein;
     height := height imagein;
     data := fun y x k =>
               if in_bounds imagein x y && (0 <=? k) && (k <? 3)
               then data imageout y x k else data imagein y x k |}.

(** ["rep" << rep << ".png"]. *)
Definition repName (rep : Z) : string :=
  ("rep" ++ NilZero.string_of_int (Z.to_int rep) ++ ".png")%string.

(** The memory the driver works on. *)
Record state : Type := {
  st_in : SimpleCanvas;
  st_out : SimpleCanvas;
  st_files : files
}.

(** Lines 169-189: [n] repetitions left, the next one is [rep]. *)
Fixpoint repLoop (fuel : nat) (p : Parameters) (n : nat) (rep : Z) (st : state)
    : result state :=
  match n with
  | O => Ok st
  | S n' =>
      imageout' <- filterPass fuel (st_in st) p (st_out st) ;;
      let st' :=
        if rep <? Int.sub (reps p) 1 then
          {| st_in := copyBack (st_in st) imageout';
             st_out := imageout';
             st_files := write imageout' (repName rep) (st_files st) |}
        else
          {| st_in := st_in st; st_out := imageout'; st_files := st_files st |} in
      repLoop fuel p n' (rep + 1) st'
  end.

Definition filterImage (fuel : nat) (st : state) (params : Parameters) : result state :=
  repLoop fuel params (Z.to_nat (reps params)) 0 st.
End Filter.

(** ** A reference [exp]

    A total binary32 exponential, used wherever a concrete C library is
    needed to run the filter: a Taylor sum in fixed point with [expP]
    fractional bits after an eightfold halving of the argument, rounded
    to nearest.  For a non-positive argument the result is kept at most
    [1]. *)

Definition expP : Z := 96.

Fixpoint taylor (n : nat) (i : Z) (neg : bool) (t term acc : Z) : Z :=
  match n with
  | O => acc
  | S n' =>
      let term' := cond_Zopp neg (Z.shiftr (term * t) expP / i) in
      taylor n' (i + 1) neg t term' (acc + term')
  end.

Fixpoint squarings (n : nat) (y : Z) : Z :=
  match n with
  | O => y
  | S n' => squarings n' (Z.shiftr (y * y) expP)
  end.

(** [exp (+- m * 2^e)] in units of [2^-expP], for [m * 2^e < 128]. *)
Definition exp_fix (neg : bool) (m : positive) (e : Z) : Z :=
  squarings 8 (taylor 30 1 neg (Z.shiftl (Zpos m) (e + expP - 8)) (2 ^ expP) (2 ^ expP)).

Definition expf_ref (x : spec_float) : spec_float :=
  match x with
  | S754_nan => S754_nan
  | S754_zero _ => F32.one
  | S754_infinity false => x
  | S754_infinity true => F32.zero
  | S754_finite sg m e =>
      if 7 <=? Zpos (digits2_pos m) + e - 1 then
        if sg then F32.zero else S754_infinity false
      else
        let r := binary_normalize F32.prec F32.emax (exp_fix sg m e) (- expP) false in
        if sg && negb (SFleb r F32.one) then F32.one else r
  end.

(** ** Sample canvases and parameters *)

Definition uniform (w h : Z) (v : byte) : SimpleCanvas :=
  {| width := w; height := h; data := fun _ _ _ => v |}.

(** The samples of the grid, row by row. *)
Definition pixels (c : SimpleCanvas) : list (list (rgb byte)) :=
  map (fun y => map (fun x => (data c y x 0, data c y x 1, data c y x 2))
                 (map Z.of_nat (seq 0 (Z.to_nat (width c)))))
      (map Z.of_nat (seq 0 (Z.to_nat (height c)))).

Definition set_nthreads (n : Z) (p : Parameters) : Parameters :=
  {| inpath := inpath p; outpath := outpath p; s := s p; b := b p;
     nthreads := n; reps := reps p |}.

Definition sample_params (sv bv : spec_float) (r : Z) : Parameters :=
  {| inpath := "in.png"; outpath := "out.png"; s := sv; b := bv;
     nthreads := 1; reps := r |}.

Definition start (c : SimpleCanvas) : state :=
  {| st_in := c; st_out := c; st_files := [] |}.

(** ** Sample canvases for the concrete runs *)

Definition white : rgb byte := (xff, xff, xff).
Definition dimmed : rgb byte := (xfe, xfe, xfe).
(** A canvas one row high whose last column is not a binary32 number. *)
Definition wide_canvas : SimpleCanvas := uniform 16777220 1 x00.
(** The largest binary32 [s] whose [3 * s] is below [2^31]. *)
Definition huge_sigma : spec_float := F32.of_int 715827840.

(** ** What the filter needs of [exp]

    [exp] of a zero is [1]; [exp] of a number is a number that is not
    negative. *)
Record exp_positive (expf : spec_float -> spec_float) : Prop := {
  exp_zero : forall sg, expf (S754_zero sg) = F32.one;
  exp_number : forall x,
    valid_binary F32.prec F32.emax x = true -> x <> S754_nan ->
    valid_binary F32.prec F32.emax (expf x) = true /\
    F32.leb F32.zero (expf x) = true
}.

(** [exp] of a number that is not positive is at most [1]. *)
Definition exp_le_one (expf : spec_float -> spec_float) : Prop :=
  forall x,
    valid_binary F32.prec F32.emax x = true -> F32.leb x F32.zero = true ->
    F32.leb (expf x) F32.one = true.

(** The check run on the 256 values of [sample01]: a [+0] or a positive
    binary32 number that is at most [1]. *)
Definition sample_okb (x : spec_float) : bool :=
  match x with
  | S754_zero false => true
  | S754_finite false m e =>
      bounded F32.prec F32.emax m e && (Zpos m * 2 ^ (e + 149) <=? 2 ^ 149)
  | _ => false
  end.

(** ** Rounding, by value

    The definitions the proofs about [SpecFloat] are stated with. *)

Module SpecRound.
(** The quotient of [m] by [2 ^ n], rounded to nearest, ties to even. *)
Definition rne (m n : Z) : Z :=
  let q := m / 2 ^ n in
  match 2 * (m mod 2 ^ n) ?= 2 ^ n with
  | Lt => q
  | Eq => if Z.even q then q else q + 1
  | Gt => q + 1
  end.

Definition overflow_to (prec emax : Z) (sx : bool) (m : positive) (e : Z) : spec_float :=
  if e <=? emax - prec then S754_finite sx m e else S754_infinity sx.

(** The mantissa and the exponent of [m * 2^e] rounded to the format. *)
Definition round_pair (prec emax : Z) (m e : Z) : Z * Z :=
  let E := fexp prec emax (Zdigits2 m + e) in
  if E <=? e then (m * 2 ^ (e - E), E)
  else
    let m1 := rne m (E - e) in
    if m1 =? 2 ^ prec then (2 ^ (prec - 1), E + 1) else (m1, E).

Definition of_pair (prec emax : Z) (sx : bool) (me : Z * Z) : spec_float :=
  match fst me with
  | Z0 => S754_zero sx
  | Zpos m => overflow_to prec emax sx m (snd me)
  | Zneg _ => S754_nan
  end.

(** The value of a pair of the format in units of [2^emin]. *)
Definition pval (prec emax : Z) (me : Z * Z) : Z :=
  fst me * 2 ^ (snd me - emin prec emax).

(** The magnitude of a finite number in units of [2^emin]. *)
Definition fval (prec emax : Z) (x : spec_float) : Z :=
  match x with
  | S754_finite _ m e => Zpos m * 2 ^ (e - emin prec emax)
  | _ => 0
  end.

(** Rounding a positive value given in units of [2^emin]. *)
Definition rnd (prec emax : Z) (sx : bool) (v : Z) : spec_float :=
  of_pair prec emax sx (round_pair prec emax v (emin prec emax)).

(** The signed value of a finite number in units of [2^emin]. *)
Definition sval (prec emax : Z) (x : spec_float) : Z :=
  match x with
  | S754_finite s m e => cond_Zopp s (Zpos m * 2 ^ (e - emin prec emax))
  | _ => 0
  end.

(** Rounding a signed value given in units of [2^emin]. *)
Definition round_signed (prec emax : Z) (v : Z) : spec_float :=
  match v with
  | Z0 => S754_zero false
  | Zpos _ => rnd prec emax false v
  | Zneg p => rnd prec emax true (Zpos p)
  end.

(** Numbers of the format, by sign and size. *)
Definition is_nan (x : spec_float) : bool :=
  match x with S754_nan => true | _ => false end.

(** A zero or a finite number of the format. *)
Definition finitef (prec emax : Z) (x : spec_float) : Prop :=
  match x with
  | S754_zero _ => True
  | S754_finite _ m e => bounded prec emax m e = true
  | _ => False
  end.

(** A zero, a positive finite number of the format, or [+infinity]. *)
Definition nonneg (prec emax : Z) (x : spec_float) : Prop :=
  match x with
  | S754_zero _ => True
  | S754_finite false m e => bounded prec emax m e = true
  | S754_infinity false => True
  | _ => False
  end.

(** A zero, a negative finite number of the format, or [-infinity]. *)
Definition nonpos (prec emax : Z) (x : spec_float) : Prop :=
  match x with
  | S754_zero _ => True
  | S754_finite true m e => bounded prec emax m e = true
  | S754_infinity true => True
  | _ => False
  end.

(** A number of the format that is at least [2^K]. *)
Definition at_least (prec emax : Z) (K : Z) (x : spec_float) : Prop :=
  match x with
  | S754_finite false m e =>
      bounded prec emax m e = true /\ 2 ^ (K - emin prec emax) <= fval prec emax x
  | S754_infinity false => True
  | _ => False
  end.

(** A zero or a finite number of the format of magnitude at most [2^K]. *)
Definition mag_le (prec emax : Z) (K : Z) (x : spec_float) : Prop :=
  match x with
  | S754_zero _ => True
  | S754_finite _ m e =>
      bounded prec emax m e = true /\ fval prec emax x <= 2 ^ (K - emin prec emax)
  | _ => False
  end.

(** A number of the format: anything but a NaN. *)
Definition number (prec emax : Z) (x : spec_float) : Prop :=
  match x with
  | S754_nan => False
  | S754_finite _ m e => bounded prec emax m e = true
  | _ => True
  end.

(** Not negative, whatever the mantissa and exponent. *)
Definition plus_sign (x : spec_float) : Prop :=
  match x with
  | S754_zero _ | S754_finite false _ _ | S754_infinity false => True
  | _ => False
  end.

(** A zero or a positive finite number of the format. *)
Definition posfin (prec emax : Z) (x : spec_float) : Prop :=
  match x with
  | S754_zero _ => True
  | S754_finite false m e => bounded prec emax m e = true
  | _ => False
  end.
End SpecRound.
Import SpecRound.

(** ** The invariant of the window loops

    [seen x y i j]: the target [(x, y)] comes before [(i, j)] in the
    order of the loops, columns first. *)
Definition seen (x y i j : Z) : bool := (x <? i) || ((i =? x) && (y <? j)).

(** The weight sum is a number that is not negative, and at least [1]
    once the target has been added. *)
Definition weight_inv (sn : bool) (acc : rgb spec_float * spec_float) : Prop :=
  nonneg F32.prec F32.emax (snd acc) /\
  (sn = true -> at_least F32.prec F32.emax 0 (snd acc)).


(** ** The command line and the program ([parseArgs], [main])

    [argv] is the list of the [argc] strings of the command line; the
    array behind it ends with a null pointer, which is what [*argv] is
    once the last string has been passed. *)

(** A member of [Parameters params;] without an initialiser holds no
    value until it is assigned. *)
Inductive slot (A : Type) : Type :=
| Indeterminate
| Assigned (a : A).
Arguments Indeterminate {A}.
Arguments Assigned {A} a.

(** A [const char*] taken from [argv]: a string, or the null pointer. *)
Definition cstr : Type := option string.

(** [struct Parameters] while it is being filled in (lines 18-25, 36). *)
Record Args : Type := {
  a_inpath : slot cstr;
  a_outpath : slot cstr;
  a_s : slot spec_float;
  a_b : slot spec_float;
  a_nthreads : Z;
  a_reps : Z
}.

(** Line 36: only [nthreads] and [reps] have initialisers. *)
Definition args0 : Args :=
  {| a_inpath := Indeterminate; a_outpath := Indeterminate;
     a_s := Indeterminate; a_b := Indeterminate;
     a_nthreads := 1; a_reps := 1 |}.

Definition set_inpath (v : cstr) (p : Args) : Args :=
  {| a_inpath := Assigned v; a_outpath := a_outpath p; a_s := a_s p; a_b := a_b p;
     a_nthreads := a_nthreads p; a_reps := a_reps p |}.

Definition set_outpath (v : cstr) (p : Args) : Args :=
  {| a_inpath := a_inpath p; a_outpath := Assigned v; a_s := a_s p; a_b := a_b p;
     a_nthreads := a_nthreads p; a_reps := a_reps p |}.

Definition set_s (v : spec_float) (p : Args) : Args :=
  {| a_inpath := a_inpath p; a_outpath := a_outpath p; a_s := Assigned v; a_b := a_b p;
     a_nthreads := a_nthreads p; a_reps := a_reps p |}.

Definition set_b (v : spec_float) (p : Args) : Args :=
  {| a_inpath := a_inpath p; a_outpath := a_outpath p; a_s := a_s p; a_b := Assigned v;
     a_nthreads := a_nthreads p; a_reps := a_reps p |}.

Definition set_threads (v : Z) (p : Args) : Args :=
  {| a_inpath := a_inpath p; a_outpath := a_outpath p; a_s := a_s p; a_b := a_b p;
     a_nthreads := v; a_reps := a_reps p |}.

Definition set_reps (v : Z) (p : Args) : Args :=
  {| a_inpath := a_inpath p; a_outpath := a_outpath p; a_s := a_s p; a_b := a_b p;
     a_nthreads := a_nthreads p; a_reps := v |}.

(** How [parseArgs] ends: it returns, it calls [exit] after a message
    on [stdout] or [stderr], or it hands the null pointer that ends
    [argv] to [atof] or [atoi]. *)
Inductive parsed : Type :=
| Returned (p : Args)
| Exited (status : Z) (to_stderr : bool) (text : string)
| NullArgument.

Definition newline : string := String (ascii_of_nat 10) EmptyString.

(** Line 41. *)
Definition usage : string :=
  ("Usage: ./imfilter --in <path to input> --out <path to output> --kernelWidth <width of kernel> --filter(mean/motionBlur)"
   ++ newline)%string.

(** Line 69. *)
Definition invalid_option (a : string) : string :=
  ("Invalid option: " ++ a ++ newline)%string.

(** Line 39: the first character of the string is a dash. *)
Definition dash (a : string) : bool :=
  match a with
  | String c _ => Ascii.eqb c "-"%char
  | EmptyString => false
  end.

Section CommandLine.
(** [atof] and [atoi] of the C library. *)
Variable atof : string -> spec_float.
Variable atoi : string -> Z.

(** Lines 38-74: the loop over the strings that are left. *)
Fixpoint parseLoop (argv : list string) (params : Args) : parsed :=
  match argv with
  | [] => Returned params
  | a :: rest =>
      if dash a then
        if (a =? "--help")%string then Exited 0 false usage
        else if (a =? "--in")%string then
          match rest with
          | v :: rest' => parseLoop rest' (set_inpath (Some v) params)
          | [] => Returned (set_inpath None params)
          end
        else if (a =? "--out")%string then
          match rest with
          | v :: rest' => parseLoop rest' (set_outpath (Some v) params)
          | [] => Returned (set_outpath None params)
          end
        else if (a =? "--s")%string then
          match rest with
          | v :: rest' => parseLoop rest' (set_s (F32.of_double (atof v)) params)
          | [] => NullArgument
          end
        else if (a =? "--b")%string then
          match rest with
          | v :: rest' => parseLoop rest' (set_b (F32.of_double (atof v)) params)
          | [] => NullArgument
          end
        else if (a =? "--nthreads")%string then
          match rest with
          | v :: rest' => parseLoop rest' (set_threads (atoi v) params)
          | [] => NullArgument
          end
        else if (a =? "--reps")%string then
          match rest with
          | v :: rest' => parseLoop rest' (set_reps (atoi v) params)
          | [] => NullArgument
          end
        else Exited 0 true (invalid_option a)
      else parseLoop rest params
  end.

(** Lines 35-76; line 37 passes the name of the program. *)
Definition parseArgs (argv : list string) : parsed :=
  parseLoop (tl argv) args0.

(** The options of the command line and the strings they are written
    with. *)
Inductive key : Type := KIn | KOut | KS | KB | KThreads | KReps.

Definition key_name (k : key) : string :=
  match k with
  | KIn => "--in"
  | KOut => "--out"
  | KS => "--s"
  | KB => "--b"
  | KThreads => "--nthreads"
  | KReps => "--reps"
  end.

Definition key_eqb (k1 k2 : key) : bool :=
  match k1, k2 with
  | KIn, KIn | KOut, KOut | KS, KS | KB, KB | KThreads, KThreads | KReps, KReps => true
  | _, _ => false
  end.

(** The assignment of the branch of option [k] to the value [v]. *)
Definition assign (kv : key * string) (p : Args) : Args :=
  let (k, v) := kv in
  match k with
  | KIn => set_inpath (Some v) p
  | KOut => set_outpath (Some v) p
  | KS => set_s (F32.of_double (atof v)) p
  | KB => set_b (F32.of_double (atof v)) p
  | KThreads => set_threads (atoi v) p
  | KReps => set_reps (atoi v) p
  end.

(** A command line made of options with their values. *)
Definition render (kvs : list (key * string)) : list string :=
  flat_map (fun kv => [key_name (fst kv); snd kv]) kvs.

(** The last value given for [k], if any. *)
Definition last_value (k : key) (kvs : list (key * string)) : option string :=
  option_map snd (find (fun kv => key_eqb (fst kv) k) (rev kvs)).

(** *** [main] (lines 192-205) *)

(** How the program ends: [parseArgs] exits, the program runs to
    [return 0] with the files it has written, a parameter that is null
    or was never assigned is used, the input cannot be decoded, or the
    filter faults.  The line printed with the elapsed time is left out. *)
Inductive run : Type :=
| Stopped (status : Z) (to_stderr : bool) (text : string)
| Completed (fs : files)
| Unspecified
| NoImage
| Faulted (f : fault).

(** Line 172 is the one place that reads [params.s] and [params.b]: it
    runs when a repetition runs and the canvas has a pixel. *)
Definition reads_sigmas (a : Args) (image : SimpleCanvas) : bool :=
  (1 <=? a_reps a) && (0 <? width image) && (0 <? height image).

Definition assigned {A : Type} (v : slot A) : bool :=
  match v with
  | Assigned _ => true
  | Indeterminate => false
  end.

(** The parameters handed to [filterImage], which reads neither path.
    A sigma that was never assigned stands as [+0]: [main] goes on with
    it only where no pixel is filtered and it is never read. *)
Definition sigma_of (v : slot spec_float) : spec_float :=
  match v with
  | Assigned x => x
  | Indeterminate => F32.zero
  end.

Definition path_of (v : slot cstr) : string :=
  match v with
  | Assigned (Some name) => name
  | _ => EmptyString
  end.

Definition params_of (a : Args) : Parameters :=
  {| inpath := path_of (a_inpath a); outpath := path_of (a_outpath a);
     s := sigma_of (a_s a); b := sigma_of (a_b a);
     nthreads := a_nthreads a; reps := a_reps a |}.

(** [exp] of the C library, and the constructor [SimpleCanvas(path)] of
    simplecanvas.h, which decodes the image stored under a path. *)
Variable expf : spec_float -> spec_float.
Variable load : string -> option SimpleCanvas.

(** The parameters are read in this order: [inpath] at lines 194-195,
    the sigmas at line 172 if it runs, [outpath] at line 203. *)
Definition main (fuel : nat) (argv : list string) : run :=
  match parseArgs argv with
  | Exited status e text => Stopped status e text
  | NullArgument => Unspecified
  | Returned a =>
      match a_inpath a with
      | Assigned (Some i) =>
          match load i with
          | None => NoImage
          | Some image =>
              if reads_sigmas a image && negb (assigned (a_s a) && assigned (a_b a))
              then Unspecified
              else
                match filterImage expf fuel
                        {| st_in := image; st_out := image; st_files := [] |}
                        (params_of a) with
                | Err f => Faulted f
                | Ok st =>
                    match a_outpath a with
                    | Assigned (Some o) => Completed (write (st_out st) o (st_files st))
                    | _ => Unspecified
                    end
                end
          end
      | _ => Unspecified
      end
  end.
End CommandLine.

(** Parameter [k] is the same in [p] and [q]. *)
Definition untouched (k : key) (p q : Args) : Prop :=
  match k with
  | KIn => a_inpath q = a_inpath p
  | KOut => a_outpath q = a_outpath p
  | KS => a_s q = a_s p
  | KB => a_b q = a_b p
  | KThreads => a_nthreads q = a_nthreads p
  | KReps => a_reps q = a_reps p
  end.

(** An [atoi] and an [atof] for strings of decimal digits with an
    optional sign, used where a command line is run. *)
Definition atoi_ref (v : string) : Z :=
  match NilZero.int_of_string v with
  | Some d => Z.of_int d
  | None => 0
  end.

Definition atof_ref (v : string) : spec_float := F64.of_int (atoi_ref v).

(** A command line and an image store used where the program is run. *)
Definition demo_options (r : string) : list (key * string) :=
  [(KIn, "in.png"); (KOut, "out.png"); (KS, "0"); (KB, "0"); (KReps, r)]%string.

Definition load_ref (name : string) : option SimpleCanvas :=
  if (name =? "in.png")%string then Some (uniform 2 2 x80) else None.

(** The newest file written under a name. *)
Definition file_named (name : string) (fs : files) : option SimpleCanvas :=
  option_map snd (find (fun f => (fst f =? name)%string) fs).

(** ** Canvases compared sample by sample *)

Definition same_size (c d : SimpleCanvas) : Prop :=
  width c = width d /\ height c = height d.

(** The same samples on the grid of [c]. *)
Definition same_pixels (c d : SimpleCanvas) : Prop :=
  forall x y k, in_bounds c x y = true -> 0 <= k < 3 ->
    data c y x k = data d y x k.

(** ** The normalized samples *)

(** [c] is a binary32 number of [[0, 1]] within [2^-25] of [v / 255];
    [fval] is in units of [2^-149]. *)
Definition unit_sample (v : byte) (c : spec_float) : Prop :=
  valid_binary F32.prec F32.emax c = true /\
  F32.leb F32.zero c = true /\ F32.leb c F32.one = true /\
  Z.abs (255 * fval F32.prec F32.emax c - Z.of_N (Byte.to_N v) * 2 ^ 149) <= 255 * 2 ^ 124.

(** [w] is a binary32 number of [[0, 1]]. *)
Definition unit_weight (w : spec_float) : Prop :=
  valid_binary F32.prec F32.emax w = true /\
  F32.leb F32.zero w = true /\ F32.leb w F32.one = true.

(** ** The sums of the window loops

    [f] is a finite number that is not negative and is at most [w]. *)
Definition below (f w : spec_float) : Prop :=
  posfin F32.prec F32.emax f /\
  fval F32.prec F32.emax f <= fval F32.prec F32.emax w.

(** The weight sum is a finite number that is at most [2^24], and each
    colour sum is at most the weight sum. *)
Definition sums_inv (acc : sums) : Prop :=
  let '((f0, f1, f2), weights) := acc in
  posfin F32.prec F32.emax weights /\
  fval F32.prec F32.emax weights <= 2 ^ 24 * 2 ^ 149 /\
  below f0 weights /\ below f1 weights /\ below f2 weights.

(** The integer part of [q] is a value of [uint8_t]. *)
Definition byte_valued (q : spec_float) : Prop :=
  exists n, Ztrunc q = Some n /\ 0 <= n <= 255.

(** The largest weight sum, [2^24], and a number just above 255. *)
Definition top_weight : spec_float := S754_finite false 8388608 1.
Definition above_255 : spec_float := S754_finite false 16711683 (-16).

(** The canvases the image filter returns on: at most [2^24] columns,
    covered by the fuel, and neither [x + support] nor
    [(ys - y) * (ys - y)] wraps around on them. *)
Definition fits (fuel : nat) (support : Z) (c : SimpleCanvas) : Prop :=
  width c <= 2 ^ 24 /\ (Z.to_nat (width c) <= fuel)%nat /\
  height c <= Int.max_signed /\
  width c + support <= Int.max_signed + 1 /\
  height c + support <= Int.max_signed + 1 /\
  Z.min support (height c - 1) <= 46340.
(** * IEEE-754 rounding *)
Lemma iter_pos_nat {A} (f : A -> A) p x :
  iter_pos f p x = Nat.iter (Pos.to_nat p) f x.
Proof.
  revert x; induction p as [p IH | p IH |]; intros x; cbn [iter_pos].
  - rewrite !IH, Pos2Nat.inj_xI, <- Nat.iter_add.
    replace (S (2 * Pos.to_nat p)) with (S (Pos.to_nat p + Pos.to_nat p)) by lia.
    now rewrite Nat.iter_succ_r.
  - rewrite !IH, Pos2Nat.inj_xO, <- Nat.iter_add. f_equal; lia.
  - reflexivity.
Qed.

Lemma digits2_size p : digits2_pos p = Pos.size p.
Proof. induction p; simpl; congruence. Qed.

Lemma digits_bounds p :
  2 ^ (Zpos (digits2_pos p) - 1) <= Zpos p < 2 ^ Zpos (digits2_pos p).
Proof.
  rewrite digits2_size. split.
  - pose proof (Pos.size_le p) as H.
    assert (Zpos (2 ^ Pos.size p) <= Zpos p~0) by (apply Pos2Z.pos_le_pos; exact H).
    rewrite Pos2Z.inj_pow in H0.
    replace (Zpos (Pos.size p)) with (Zpos (Pos.size p) - 1 + 1) in H0 by lia.
    rewrite Z.pow_add_r in H0 by lia. lia.
  - pose proof (Pos.size_gt p) as H.
    apply Pos2Z.pos_lt_pos in H. now rewrite Pos2Z.inj_pow in H.
Qed.

Lemma digits_unique p k :
  2 ^ (k - 1) <= Zpos p < 2 ^ k -> Zpos (digits2_pos p) = k.
Proof.
  intros [Hl Hu]. pose proof (digits_bounds p) as [Hl' Hu'].
  assert (0 < k).
  { destruct (Z.lt_trichotomy k 0) as [H | [H | H]]; auto.
    - rewrite Z.pow_neg_r in Hu by lia. lia.
    - subst k. simpl in Hu. lia. }
  destruct (Z.lt_trichotomy (Zpos (digits2_pos p)) k) as [H1 | [H1 | H1]]; auto.
  - assert (2 ^ Zpos (digits2_pos p) <= 2 ^ (k - 1)) by (apply Z.pow_le_mono_r; lia). lia.
  - assert (2 ^ k <= 2 ^ (Zpos (digits2_pos p) - 1)) by (apply Z.pow_le_mono_r; lia). lia.
Qed.

Lemma shr_1_spec mrs :
  0 <= shr_m mrs ->
  shr_1 mrs = {| shr_m := shr_m mrs / 2;
                 shr_r := Z.odd (shr_m mrs);
                 shr_s := shr_r mrs || shr_s mrs |}.
Proof.
  destruct mrs as [m r s]; cbn [shr_m shr_r shr_s]; intros Hm.
  rewrite <- Z.div2_div.
  destruct m as [| [p | p |] |]; try lia; reflexivity.
Qed.

Lemma mod_pow2_succ m k :
  0 <= k -> m mod 2 ^ (k + 1) = m mod 2 ^ k + 2 ^ k * Z.b2z (Z.testbit m k).
Proof.
  intros Hk. rewrite Z.pow_add_r, Z.pow_1_r by lia.
  rewrite Z.rem_mul_r by (try apply Z.pow_nonzero; lia).
  now rewrite Z.testbit_spec' by lia.
Qed.

Lemma shr_iter_spec n m r s :
  0 <= m ->
  Nat.iter (S n) shr_1 {| shr_m := m; shr_r := r; shr_s := s |} =
  {| shr_m := m / 2 ^ Z.of_nat (S n);
     shr_r := Z.testbit m (Z.of_nat n);
     shr_s := r || s || negb (m mod 2 ^ Z.of_nat n =? 0) |}.
Proof.
  intros Hm. induction n as [| n IH].
  - cbn [Nat.iter]. rewrite shr_1_spec by assumption. cbn [shr_m shr_r shr_s].
    change (Z.of_nat 1) with 1. change (Z.of_nat 0) with 0.
    rewrite Z.pow_1_r, Z.pow_0_r, Z.mod_1_r, Z.bit0_odd. cbn. now rewrite orb_false_r.
  - change (Nat.iter (S (S n)) shr_1 ?x) with (shr_1 (Nat.iter (S n) shr_1 x)).
    rewrite IH, shr_1_spec; cbn [shr_m shr_r shr_s].
    2:{ apply Z.div_pos; [assumption | apply Z.pow_pos_nonneg; lia]. }
    f_equal.
    + rewrite Z.div_div by (try apply Z.pow_pos_nonneg; lia).
      f_equal. rewrite (Nat2Z.inj_succ (S n)), Z.pow_succ_r by lia. lia.
    + rewrite (Nat2Z.inj_succ n), Z.testbit_odd, Z.shiftr_div_pow2 by lia. reflexivity.
    + rewrite (Nat2Z.inj_succ n). unfold Z.succ.
      rewrite mod_pow2_succ by lia.
      assert (0 <= m mod 2 ^ Z.of_nat n) by (apply Z.mod_pos_bound, Z.pow_pos_nonneg; lia).
      assert (0 < 2 ^ Z.of_nat n) by (apply Z.pow_pos_nonneg; lia).
      destruct (Z.testbit m (Z.of_nat n)); cbn [Z.b2z];
        destruct r, s; cbn; try reflexivity;
        destruct (Z.eqb_spec (m mod 2 ^ Z.of_nat n) 0);
        destruct (Z.eqb_spec (m mod 2 ^ Z.of_nat n + 2 ^ Z.of_nat n * 1) 0);
        destruct (Z.eqb_spec (m mod 2 ^ Z.of_nat n + 2 ^ Z.of_nat n * 0) 0);
        cbn; try reflexivity; lia.
Qed.

Lemma shr_exact_round m e p :
  0 <= m ->
  let '(mrs, e') := shr (shr_record_of_loc m loc_Exact) e (Zpos p) in
  round_nearest_even (shr_m mrs) (loc_of_shr_record mrs) = rne m (Zpos p) /\ e' = e + Zpos p.
Proof.
  intros Hm. cbn [shr shr_record_of_loc]. split; [| reflexivity].
  rewrite iter_pos_nat.
  destruct (Pos2Nat.is_succ p) as [n Hn]. rewrite Hn.
  rewrite shr_iter_spec by assumption.
  assert (HZ : Zpos p = Z.of_nat (S n)) by lia.
  rewrite HZ. unfold rne.
  rewrite (Nat2Z.inj_succ n). unfold Z.succ.
  rewrite mod_pow2_succ by lia.
  rewrite Z.pow_add_r, Z.pow_1_r by lia.
  assert (0 <= m mod 2 ^ Z.of_nat n < 2 ^ Z.of_nat n) by (apply Z.mod_pos_bound, Z.pow_pos_nonneg; lia).
  cbn [shr_m shr_r shr_s loc_of_shr_record orb].
  destruct (Z.testbit m (Z.of_nat n)); cbn [Z.b2z];
    destruct (Z.eqb_spec (m mod 2 ^ Z.of_nat n) 0) as [E0 | E0]; cbn [negb round_nearest_even].
  - rewrite E0. replace (2 * (0 + 2 ^ Z.of_nat n * 1)) with (2 ^ Z.of_nat n * 2) by lia.
    now rewrite Z.compare_refl.
  - assert (2 * (m mod 2 ^ Z.of_nat n + 2 ^ Z.of_nat n * 1) > 2 ^ Z.of_nat n * 2) by lia.
    now rewrite (proj2 (Z.compare_gt_iff _ _)) by lia.
  - rewrite E0. assert (2 * (0 + 2 ^ Z.of_nat n * 0) < 2 ^ Z.of_nat n * 2) by lia.
    now rewrite (proj2 (Z.compare_lt_iff _ _)) by lia.
  - now rewrite (proj2 (Z.compare_lt_iff _ _)) by lia.
Qed.

Lemma shr_nonpos mrs e n : n <= 0 -> shr mrs e n = (mrs, e).
Proof. destruct n; intros; try reflexivity; lia. Qed.

Lemma rne_bounds m n :
  0 <= m -> 0 < n -> m / 2 ^ n <= rne m n <= m / 2 ^ n + 1.
Proof.
  intros Hm Hn. unfold rne.
  destruct (2 * (m mod 2 ^ n) ?= 2 ^ n); [destruct (Z.even _) | |]; lia.
Qed.

Lemma pow2_pos k : 0 <= k -> 0 < 2 ^ k.
Proof. intros; apply Z.pow_pos_nonneg; lia. Qed.

Lemma Zdigits2_bounds z : 0 < z -> 2 ^ (Zdigits2 z - 1) <= z < 2 ^ Zdigits2 z.
Proof. destruct z as [| p | p]; try lia. intros _. apply digits_bounds. Qed.

Lemma Zdigits2_unique z k : 2 ^ (k - 1) <= z < 2 ^ k -> 0 < z -> Zdigits2 z = k.
Proof. destruct z as [| p | p]; try lia. intros H _. now apply digits_unique. Qed.

Lemma Zdigits2_pos z : 0 < z -> 0 < Zdigits2 z.
Proof. destruct z; cbn; lia. Qed.

Lemma Zdigits2_shift z k : 0 < z -> 0 <= k -> Zdigits2 (z * 2 ^ k) = Zdigits2 z + k.
Proof.
  intros Hz Hk. pose proof (Zdigits2_bounds z Hz) as [Hl Hu].
  pose proof (Zdigits2_pos z Hz). pose proof (pow2_pos k Hk).
  apply Zdigits2_unique; [| nia].
  replace (Zdigits2 z + k - 1) with (Zdigits2 z - 1 + k) by lia.
  rewrite !Z.pow_add_r by lia. nia.
Qed.

Lemma Zdigits2_le z k : 0 < z -> z < 2 ^ k -> Zdigits2 z <= k.
Proof.
  intros Hz Hu. pose proof (Zdigits2_bounds z Hz) as [Hl _].
  destruct (Z.le_gt_cases (Zdigits2 z) k) as [| Hgt]; [assumption |].
  assert (2 ^ k <= 2 ^ (Zdigits2 z - 1)) by (apply Z.pow_le_mono_r; lia). lia.
Qed.

Lemma Zdigits2_ge z k : 0 <= k -> 2 ^ k <= z -> k + 1 <= Zdigits2 z.
Proof.
  intros Hk Hl. pose proof (pow2_pos k Hk).
  pose proof (Zdigits2_bounds z ltac:(lia)) as [_ Hu].
  destruct (Z.le_gt_cases (k + 1) (Zdigits2 z)) as [| Hgt]; [assumption |].
  assert (2 ^ Zdigits2 z <= 2 ^ k) by (apply Z.pow_le_mono_r; lia). lia.
Qed.

Lemma pos_iter_xO p d : Zpos (Pos.iter xO p d) = Zpos p * 2 ^ Zpos d.
Proof.
  induction d as [| d IH] using Pos.peano_ind.
  - cbn. lia.
  - rewrite Pos.iter_succ, Pos2Z.inj_xO, IH, Pos2Z.inj_succ, Z.pow_succ_r by lia. lia.
Qed.

Lemma rne_exact m n : 0 < n -> m mod 2 ^ n = 0 -> rne m n = m / 2 ^ n.
Proof.
  intros Hn H. unfold rne. rewrite H. pose proof (pow2_pos n ltac:(lia)).
  now rewrite (proj2 (Z.compare_lt_iff _ _)) by lia.
Qed.

Lemma rne_mono m1 m2 n : 0 <= m1 <= m2 -> 0 < n -> rne m1 n <= rne m2 n.
Proof.
  intros Hm Hn. pose proof (pow2_pos n ltac:(lia)) as Hp.
  pose proof (rne_bounds m1 n ltac:(lia) Hn). pose proof (rne_bounds m2 n ltac:(lia) Hn).
  assert (Hq : m1 / 2 ^ n <= m2 / 2 ^ n) by (apply Z.div_le_mono; lia).
  destruct (Z.eq_dec (m1 / 2 ^ n) (m2 / 2 ^ n)) as [Heq | Hne]; [| lia].
  pose proof (Z.div_mod m1 (2 ^ n) ltac:(lia)) as E1.
  pose proof (Z.div_mod m2 (2 ^ n) ltac:(lia)) as E2.
  unfold rne. rewrite <- Heq.
  destruct (Z.compare_spec (2 * (m1 mod 2 ^ n)) (2 ^ n));
    destruct (Z.compare_spec (2 * (m2 mod 2 ^ n)) (2 ^ n));
    destruct (Z.even (m1 / 2 ^ n)); nia.
Qed.

Lemma rne_scale m n k : 0 < n -> 0 <= k -> rne (m * 2 ^ k) (n + k) = rne m n.
Proof.
  intros Hn Hk. pose proof (pow2_pos n ltac:(lia)). pose proof (pow2_pos k Hk).
  unfold rne. rewrite Z.pow_add_r by lia.
  rewrite Z.div_mul_cancel_r by lia.
  rewrite Z.mul_mod_distr_r by lia.
  replace (2 * (m mod 2 ^ n * 2 ^ k)) with (2 * (m mod 2 ^ n) * 2 ^ k) by lia.
  rewrite <- Zmult_compare_compat_r by lia. reflexivity.
Qed.

Lemma rne_small m n : 0 <= m -> 0 < n -> 2 * m < 2 ^ n -> rne m n = 0.
Proof.
  intros Hm Hn H. pose proof (pow2_pos n ltac:(lia)).
  unfold rne. rewrite Z.mod_small, Z.div_small by lia.
  now rewrite (proj2 (Z.compare_lt_iff _ _)) by lia.
Qed.

Section Format.
Variables prec emax : Z.
Hypothesis Hprec : 0 < prec.
Hypothesis Hemax : prec < emax.
Local Set Default Proof Using "Hprec Hemax".

Local Abbreviation fexp := (SpecFloat.fexp prec emax).
Local Abbreviation emin := (SpecFloat.emin prec emax).
Local Abbreviation bounded := (SpecFloat.bounded prec emax).
Local Abbreviation overflow_to := (SpecRound.overflow_to prec emax).
Local Abbreviation round_pair := (SpecRound.round_pair prec emax).
Local Abbreviation of_pair := (SpecRound.of_pair prec emax).
Local Abbreviation pval := (SpecRound.pval prec emax).
Local Abbreviation fval := (SpecRound.fval prec emax).
Local Abbreviation rnd := (SpecRound.rnd prec emax).
Local Abbreviation sval := (SpecRound.sval prec emax).
Local Abbreviation round_signed := (SpecRound.round_signed prec emax).
Local Abbreviation finitef := (SpecRound.finitef prec emax).
Local Abbreviation nonneg := (SpecRound.nonneg prec emax).
Local Abbreviation nonpos := (SpecRound.nonpos prec emax).
Local Abbreviation at_least := (SpecRound.at_least prec emax).
Local Abbreviation mag_le := (SpecRound.mag_le prec emax).
Local Abbreviation number := (SpecRound.number prec emax).
Local Abbreviation posfin := (SpecRound.posfin prec emax).

Lemma fexp_ge_emin k : emin <= fexp k.
Proof. unfold SpecFloat.fexp. lia. Qed.

Lemma fexp_ge k : k - prec <= fexp k.
Proof. unfold SpecFloat.fexp. lia. Qed.

Lemma fexp_mono a c : a <= c -> fexp a <= fexp c.
Proof. unfold SpecFloat.fexp. lia. Qed.

Lemma binary_round_aux_noshift sx p e :
  fexp (Zpos (digits2_pos p) + e) <= e ->
  binary_round_aux prec emax sx (Zpos p) e loc_Exact = overflow_to sx p e.
Proof.
  intros H. unfold binary_round_aux, shr_fexp. cbn [Zdigits2].
  rewrite shr_nonpos by lia. cbn [shr_record_of_loc shr_m loc_of_shr_record round_nearest_even Zdigits2].
  rewrite shr_nonpos by lia. reflexivity.
Qed.

Lemma binary_round_aux_shift sx p e :
  e < fexp (Zpos (digits2_pos p) + e) ->
  let E := fexp (Zpos (digits2_pos p) + e) in
  let m1 := rne (Zpos p) (E - e) in
  0 <= m1 <= 2 ^ prec /\
  binary_round_aux prec emax sx (Zpos p) e loc_Exact =
    if m1 =? 0 then S754_zero sx
    else if m1 =? 2 ^ prec then overflow_to sx (Z.to_pos (2 ^ (prec - 1))) (E + 1)
    else overflow_to sx (Z.to_pos m1) E.
Proof.
  intros H E m1.
  pose proof (digits_bounds p) as [Hdl Hdu].
  set (d := Zpos (digits2_pos p)) in *.
  assert (Hn : 0 < E - e) by (unfold E; lia).
  assert (HE1 : emin <= E) by apply fexp_ge_emin.
  assert (HE2 : d + e - prec <= E) by apply fexp_ge.
  assert (Hq : 0 <= Zpos p / 2 ^ (E - e) < 2 ^ prec).
  { split; [apply Z.div_pos; [lia | apply Z.pow_pos_nonneg; lia] |].
    apply Z.div_lt_upper_bound; [apply Z.pow_pos_nonneg; lia |].
    rewrite <- Z.pow_add_r by lia.
    eapply Z.lt_le_trans; [exact Hdu |]. apply Z.pow_le_mono_r; lia. }
  assert (Hm1 : 0 <= m1 <= 2 ^ prec).
  { pose proof (rne_bounds (Zpos p) (E - e) ltac:(lia) Hn). unfold m1. lia. }
  split; [exact Hm1 |].
  unfold binary_round_aux, shr_fexp. cbn [Zdigits2]. fold d. fold E.
  destruct (E - e) as [| n | n] eqn:En; try lia.
  pose proof (shr_exact_round (Zpos p) e n ltac:(lia)) as Hs.
  destruct (shr (shr_record_of_loc (Zpos p) loc_Exact) e (Zpos n)) as [mrs e'].
  destruct Hs as [Hs He']. rewrite Hs. fold m1. subst e'.
  replace (e + Zpos n) with E by lia.
  destruct (Z.eqb_spec m1 0) as [Hz | Hz].
  - rewrite Hz. cbn [Zdigits2]. rewrite shr_nonpos by (pose proof (fexp_ge_emin (0 + E)); unfold SpecFloat.fexp in *; lia).
    reflexivity.
  - destruct (Z.eqb_spec m1 (2 ^ prec)) as [Hc | Hc].
    + rewrite Hc.
      assert (Hdc : Zdigits2 (2 ^ prec) = prec + 1).
      { assert (0 < 2 ^ prec) by (apply Z.pow_pos_nonneg; lia).
        destruct (2 ^ prec) as [| c |] eqn:Ec; try lia. cbn [Zdigits2].
        apply digits_unique. rewrite <- Ec. replace (prec + 1 - 1) with prec by lia.
        split; [lia |]. apply Z.pow_lt_mono_r; lia. }
      rewrite Hdc.
      replace (SpecFloat.fexp prec emax (prec + 1 + E) - E) with 1 by (unfold SpecFloat.fexp; lia).
      cbn [shr iter_pos shr_record_of_loc].
      rewrite shr_1_spec by (cbn; apply Z.pow_nonneg; lia). cbn [shr_m].
      replace (2 ^ prec / 2) with (2 ^ (prec - 1)).
      2:{ replace prec with (prec - 1 + 1) at 2 by lia. rewrite Z.pow_add_r, Z.pow_1_r by lia.
          now rewrite Z.div_mul by lia. }
      assert (0 < 2 ^ (prec - 1)) by (apply Z.pow_pos_nonneg; lia).
      unfold SpecRound.overflow_to. destruct (2 ^ (prec - 1)) as [| c |] eqn:Ec; try lia.
      reflexivity.
    + assert (Hpos : 0 < m1 < 2 ^ prec) by lia.
      destruct m1 as [| c |] eqn:Ec; try lia.
      cbn [Zdigits2].
      assert (Hdc : Zpos (digits2_pos c) <= prec).
      { pose proof (digits_bounds c) as [Hl _].
        destruct (Z.le_gt_cases (Zpos (digits2_pos c)) prec) as [|Hgt]; [assumption |].
        assert (2 ^ prec <= 2 ^ (Zpos (digits2_pos c) - 1)) by (apply Z.pow_le_mono_r; lia). lia. }
      rewrite shr_nonpos by (unfold SpecFloat.fexp; lia).
      reflexivity.
Qed.

(** Rounding a mantissa that comes with a location (the quotient of a
    division): the mantissa is truncated to the exponent of the format
    and then stays or is incremented. *)
Lemma binary_round_aux_loc sx q e l :
  0 <= q -> e <= fexp (Zdigits2 q + e) ->
  let E := fexp (Zdigits2 q + e) in
  exists m1,
    q / 2 ^ (E - e) <= m1 <= q / 2 ^ (E - e) + 1 /\
    m1 <= 2 ^ prec /\
    (l = loc_Exact -> q mod 2 ^ (E - e) = 0 -> m1 = q / 2 ^ (E - e)) /\
    binary_round_aux prec emax sx q e l =
      if m1 =? 0 then S754_zero sx
      else if m1 =? 2 ^ prec then overflow_to sx (Z.to_pos (2 ^ (prec - 1))) (E + 1)
      else overflow_to sx (Z.to_pos m1) E.
Proof.
  intros Hq Hn E.
  assert (HE1 : emin <= E) by apply fexp_ge_emin.
  assert (HE2 : Zdigits2 q + e - prec <= E) by apply fexp_ge.
  pose proof (pow2_pos (E - e) ltac:(lia)) as Hp.
  assert (HQ0 : 0 <= q / 2 ^ (E - e) < 2 ^ prec).
  { split; [apply Z.div_pos; lia |].
    pose proof (pow2_pos prec ltac:(lia)).
    destruct (Z.eq_dec q 0) as [-> | Hq0]; [rewrite Z.div_0_l; lia |].
    pose proof (Zdigits2_bounds q ltac:(lia)) as [_ Hu].
    pose proof (Zdigits2_pos q ltac:(lia)).
    apply Z.div_lt_upper_bound; [lia |]. rewrite <- Z.pow_add_r by lia.
    eapply Z.lt_le_trans; [exact Hu |]. apply Z.pow_le_mono_r; lia. }
  (* the first truncation *)
  assert (H1 : exists mrs,
    shr_fexp prec emax q e l = (mrs, E) /\
    shr_m mrs = q / 2 ^ (E - e) /\
    (l = loc_Exact -> q mod 2 ^ (E - e) = 0 -> loc_of_shr_record mrs = loc_Exact)).
  { unfold shr_fexp. fold E.
    destruct (E - e) as [| n | n] eqn:En; try lia.
    - exists (shr_record_of_loc q l). cbn [shr]. replace E with e by lia.
      split; [reflexivity |]. split.
      + rewrite Z.pow_0_r, Z.div_1_r. destruct l as [| []]; reflexivity.
      + intros -> _. reflexivity.
    - cbn [shr]. rewrite iter_pos_nat.
      destruct (Pos2Nat.is_succ n) as [k Hk]. rewrite Hk.
      assert (HZ : Zpos n = Z.of_nat (S k)) by lia.
      eexists. split; [f_equal; lia |].
      destruct (shr_record_of_loc q l) as [m0 r0 s0] eqn:Er.
      assert (m0 = q) by (destruct l as [| []]; cbn in Er; congruence). subst m0.
      rewrite shr_iter_spec by assumption. cbn [shr_m]. rewrite HZ.
      split; [reflexivity |].
      intros -> Hmod. cbn in Er. injection Er as <- <-.
      rewrite Nat2Z.inj_succ in Hmod. unfold Z.succ in Hmod.
      rewrite mod_pow2_succ in Hmod by lia.
      assert (0 <= q mod 2 ^ Z.of_nat k) by (apply Z.mod_pos_bound, pow2_pos; lia).
      pose proof (pow2_pos (Z.of_nat k) ltac:(lia)).
      destruct (Z.testbit q (Z.of_nat k)); cbn [Z.b2z] in Hmod; [lia |].
      replace (q mod 2 ^ Z.of_nat k) with 0 by lia. reflexivity. }
  destruct H1 as (mrs & Hs & Hm & Hex).
  set (m1 := round_nearest_even (shr_m mrs) (loc_of_shr_record mrs)).
  assert (Hm1 : q / 2 ^ (E - e) <= m1 <= q / 2 ^ (E - e) + 1).
  { unfold m1. rewrite Hm. unfold round_nearest_even.
    destruct (loc_of_shr_record mrs) as [| []]; try destruct (Z.even _); lia. }
  exists m1. split; [exact Hm1 |]. split; [lia |]. split.
  { intros Hl Hmod. unfold m1. rewrite (Hex Hl Hmod), Hm. reflexivity. }
  unfold binary_round_aux. rewrite Hs. fold m1.
  destruct (Z.eqb_spec m1 0) as [Hz | Hz].
  - rewrite Hz. unfold shr_fexp. cbn [Zdigits2].
    rewrite shr_nonpos by (unfold SpecFloat.fexp; lia). reflexivity.
  - destruct (Z.eqb_spec m1 (2 ^ prec)) as [Hc | Hc].
    + rewrite Hc. unfold shr_fexp.
      assert (Hdc : Zdigits2 (2 ^ prec) = prec + 1).
      { pose proof (pow2_pos prec ltac:(lia)).
        apply Zdigits2_unique; [| lia]. replace (prec + 1 - 1) with prec by lia.
        split; [lia |]. apply Z.pow_lt_mono_r; lia. }
      rewrite Hdc.
      replace (fexp (prec + 1 + E) - E) with 1 by (unfold SpecFloat.fexp; lia).
      cbn [shr iter_pos shr_record_of_loc].
      rewrite shr_1_spec by (cbn; apply Z.pow_nonneg; lia). cbn [shr_m].
      replace (2 ^ prec / 2) with (2 ^ (prec - 1)).
      2:{ replace (2 ^ prec) with (2 ^ Z.succ (prec - 1)) by (f_equal; lia).
          rewrite Z.pow_succ_r by lia. now rewrite Z.mul_comm, Z.div_mul by lia. }
      pose proof (pow2_pos (prec - 1) ltac:(lia)).
      destruct (2 ^ (prec - 1)) as [| c |] eqn:Ec; try lia. reflexivity.
    + assert (Hpos : 0 < m1 < 2 ^ prec) by lia.
      unfold shr_fexp.
      assert (Zdigits2 m1 <= prec) by (apply Zdigits2_le; lia).
      rewrite shr_nonpos by (unfold SpecFloat.fexp; lia).
      cbn [shr_record_of_loc shr_m].
      destruct m1 as [| c |] eqn:Ec; try lia. reflexivity.
Qed.

(** The result of such a rounding is a zero, a finite number or an
    infinity of the given sign. *)
Lemma binary_round_aux_class sx q e l :
  0 <= q ->
  match binary_round_aux prec emax sx q e l with
  | S754_zero s | S754_infinity s | S754_finite s _ _ => s = sx
  | S754_nan => False
  end.
Proof.
  intros Hq. unfold binary_round_aux.
  assert (Hshr : forall m e0 l0, 0 <= m -> 0 <= shr_m (fst (shr_fexp prec emax m e0 l0))).
  { intros m e0 l0 Hm. unfold shr_fexp.
    destruct (fexp (Zdigits2 m + e0) - e0) as [| n | n]; cbn [shr fst];
      try (destruct l0 as [| []]; cbn; assumption).
    rewrite iter_pos_nat.
    destruct (shr_record_of_loc m l0) as [m0 r0 s0] eqn:Er.
    assert (m0 = m) by (destruct l0 as [| []]; cbn in Er; congruence). subst m0.
    destruct (Pos2Nat.is_succ n) as [k Hk]. rewrite Hk, shr_iter_spec by assumption.
    cbn [shr_m]. apply Z.div_pos; [assumption | apply pow2_pos; lia]. }
  pose proof (Hshr q e l Hq) as H1.
  destruct (shr_fexp prec emax q e l) as [mrs' e']. cbn [fst] in H1.
  assert (H2 : 0 <= round_nearest_even (shr_m mrs') (loc_of_shr_record mrs')).
  { unfold round_nearest_even.
    destruct (loc_of_shr_record mrs') as [| []]; try destruct (Z.even _); lia. }
  pose proof (Hshr _ e' loc_Exact H2) as H3.
  destruct (shr_fexp prec emax _ e' loc_Exact) as [mrs'' e'']. cbn [fst] in H3.
  destruct (shr_m mrs'') as [| m | m]; try lia; [reflexivity |].
  destruct (e'' <=? emax - prec); reflexivity.
Qed.

Lemma binary_round_aux_pair sx p e :
  e <= fexp (Zpos (digits2_pos p) + e) ->
  binary_round_aux prec emax sx (Zpos p) e loc_Exact = of_pair sx (round_pair (Zpos p) e).
Proof.
  intros H. unfold round_pair. cbn [Zdigits2].
  destruct (Z.leb_spec (fexp (Zpos (digits2_pos p) + e)) e) as [Hle | Hlt].
  - rewrite binary_round_aux_noshift by assumption.
    replace (fexp (Zpos (digits2_pos p) + e)) with e by lia.
    rewrite Z.sub_diag, Z.pow_0_r, Z.mul_1_r. reflexivity.
  - pose proof (binary_round_aux_shift sx p e Hlt) as [Hm Hr].
    cbv zeta in Hr, Hm. rewrite Hr.
    destruct (Z.eqb_spec (rne (Zpos p) (fexp (Zpos (digits2_pos p) + e) - e)) 0) as [Hz | Hz].
    + rewrite Hz.
      assert (0 < 2 ^ prec) by (apply pow2_pos; lia).
      destruct (Z.eqb_spec 0 (2 ^ prec)); [lia |]. reflexivity.
    + destruct (Z.eqb_spec (rne (Zpos p) (fexp (Zpos (digits2_pos p) + e) - e)) (2 ^ prec)) as [Hc | Hc].
      * unfold of_pair. cbn [fst snd].
        assert (0 < 2 ^ (prec - 1)) by (apply pow2_pos; lia).
        destruct (2 ^ (prec - 1)) eqn:Ec; try lia. reflexivity.
      * unfold of_pair. cbn [fst snd].
        destruct (rne (Zpos p) (fexp (Zpos (digits2_pos p) + e) - e)) eqn:Ec; try lia. reflexivity.
Qed.

Lemma binary_round_pair sx p e :
  binary_round prec emax sx p e = of_pair sx (round_pair (Zpos p) e).
Proof.
  unfold binary_round, shl_align.
  destruct (fexp (Zpos (digits2_pos p) + e) - e) as [| d | d] eqn:Ed.
  - apply binary_round_aux_pair. lia.
  - apply binary_round_aux_pair. lia.
  - set (E := fexp (Zpos (digits2_pos p) + e)) in *.
    assert (Hd : Zpos (digits2_pos (Pos.iter xO p d)) = Zpos (digits2_pos p) + Zpos d).
    { change (Zdigits2 (Zpos (Pos.iter xO p d)) = Zdigits2 (Zpos p) + Zpos d).
      rewrite pos_iter_xO. apply Zdigits2_shift; lia. }
    rewrite binary_round_aux_noshift.
    2:{ rewrite Hd. replace (Zpos (digits2_pos p) + Zpos d + E) with (Zpos (digits2_pos p) + e) by lia.
        fold E. lia. }
    unfold round_pair. cbn [Zdigits2]. fold E.
    destruct (Z.leb_spec E e); [| lia].
    unfold of_pair. cbn [fst snd].
    replace (e - E) with (Zpos d) by lia. rewrite <- pos_iter_xO. reflexivity.
Qed.

(** The rounded pair is in the format. *)
Lemma round_pair_format m e :
  0 < m ->
  let '(m', e') := round_pair m e in
  0 <= m' < 2 ^ prec /\ emin <= e' /\ (0 < m' -> fexp (Zdigits2 m' + e') = e').
Proof.
  intros Hm. unfold round_pair.
  pose proof (Zdigits2_bounds m Hm) as [Hdl Hdu].
  pose proof (Zdigits2_pos m Hm) as Hd.
  set (d := Zdigits2 m) in *.
  set (E := fexp (d + e)).
  assert (HE1 : emin <= E) by apply fexp_ge_emin.
  assert (HE2 : d + e - prec <= E) by apply fexp_ge.
  destruct (Z.leb_spec E e) as [Hle | Hlt].
  - pose proof (pow2_pos (e - E) ltac:(lia)).
    assert (Hdig : Zdigits2 (m * 2 ^ (e - E)) = d + (e - E)) by (apply Zdigits2_shift; lia).
    split; [split; [nia |] | split; [assumption |]].
    + pose proof (Zdigits2_bounds (m * 2 ^ (e - E)) ltac:(nia)) as [_ Hu].
      eapply Z.lt_le_trans; [exact Hu |]. apply Z.pow_le_mono_r; lia.
    + intros _. rewrite Hdig. replace (d + (e - E) + E) with (d + e) by lia. reflexivity.
  - assert (Hn : 0 < E - e) by lia.
    pose proof (rne_bounds m (E - e) ltac:(lia) Hn) as [Hr1 Hr2].
    pose proof (pow2_pos (E - e) ltac:(lia)).
    assert (Hq : 0 <= m / 2 ^ (E - e) < 2 ^ prec).
    { split; [apply Z.div_pos; lia |].
      apply Z.div_lt_upper_bound; [lia |].
      rewrite <- Z.pow_add_r by lia.
      eapply Z.lt_le_trans; [exact Hdu |]. apply Z.pow_le_mono_r; lia. }
    destruct (Z.eqb_spec (rne m (E - e)) (2 ^ prec)) as [Hc | Hc].
    + pose proof (pow2_pos (prec - 1) ltac:(lia)).
      split; [split; [lia | apply Z.pow_lt_mono_r; lia] | split; [lia |]].
      intros _. rewrite (Zdigits2_unique (2 ^ (prec - 1)) prec); [| | lia].
      * unfold SpecFloat.fexp. lia.
      * split; [lia | apply Z.pow_lt_mono_r; lia].
    + split; [lia | split; [assumption |]].
      intros Hpos. set (m1 := rne m (E - e)) in *.
      assert (Zdigits2 m1 <= prec) by (apply Zdigits2_le; lia).
      unfold E at 2. unfold SpecFloat.fexp at 1.
      destruct (Z.eq_dec E emin) as [He | He]; [lia |].
      assert (HEn : E = d + e - prec) by (unfold E, SpecFloat.fexp in *; lia).
      assert (2 ^ (prec - 1) <= m / 2 ^ (E - e)).
      { apply Z.div_le_lower_bound; [lia |].
        rewrite Z.mul_comm, <- Z.pow_add_r by lia.
        replace (prec - 1 + (E - e)) with (d - 1) by lia. assumption. }
      assert (prec - 1 + 1 <= Zdigits2 m1) by (apply Zdigits2_ge; lia).
      lia.
Qed.

Lemma round_pair_scale m e k :
  0 < m -> 0 <= k -> round_pair (m * 2 ^ k) (e - k) = round_pair m e.
Proof.
  intros Hm Hk. unfold SpecRound.round_pair.
  pose proof (pow2_pos k Hk) as Hpk.
  rewrite Zdigits2_shift by lia.
  replace (Zdigits2 m + k + (e - k)) with (Zdigits2 m + e) by lia.
  pose proof (Zdigits2_bounds m Hm) as [Hdl Hdu].
  pose proof (Zdigits2_pos m Hm) as Hd.
  set (E := fexp (Zdigits2 m + e)).
  assert (HE2 : Zdigits2 m + e - prec <= E) by apply fexp_ge.
  destruct (Z.leb_spec E (e - k)) as [H1 | H1]; destruct (Z.leb_spec E e) as [H2 | H2]; try lia.
  - f_equal. rewrite <- Z.mul_assoc, <- Z.pow_add_r by lia. do 2 f_equal. lia.
  - (* the shift only removes appended zeros *)
    rewrite rne_exact; [| lia |].
    2:{ replace k with (k - (E - (e - k)) + (E - (e - k))) at 1 by lia.
        rewrite Z.pow_add_r, Z.mul_assoc by lia. apply Z.mod_mul.
        apply Z.pow_nonzero; lia. }
    assert (Hq : m * 2 ^ k / 2 ^ (E - (e - k)) = m * 2 ^ (e - E)).
    { replace k with (e - E + (E - (e - k))) at 1 by lia.
      rewrite Z.pow_add_r, Z.mul_assoc by lia. apply Z.div_mul.
      apply Z.pow_nonzero; lia. }
    rewrite Hq.
    assert (m * 2 ^ (e - E) < 2 ^ prec).
    { pose proof (pow2_pos (e - E) ltac:(lia)).
      apply Z.lt_le_trans with (2 ^ Zdigits2 m * 2 ^ (e - E)); [nia |].
      rewrite <- Z.pow_add_r by lia. apply Z.pow_le_mono_r; lia. }
    destruct (Z.eqb_spec (m * 2 ^ (e - E)) (2 ^ prec)); [lia | reflexivity].
  - replace (E - (e - k)) with (E - e + k) by lia.
    rewrite rne_scale by lia. reflexivity.
Qed.

Lemma pval_round_shift m e :
  0 < m -> e < fexp (Zdigits2 m + e) ->
  pval (round_pair m e) =
    rne m (fexp (Zdigits2 m + e) - e) * 2 ^ (fexp (Zdigits2 m + e) - emin).
Proof.
  intros Hm H. unfold SpecRound.round_pair, pval.
  set (E := fexp (Zdigits2 m + e)) in *.
  assert (emin <= E) by apply fexp_ge_emin.
  destruct (Z.leb_spec E e); [lia |].
  destruct (Z.eqb_spec (rne m (E - e)) (2 ^ prec)) as [Hc | Hc]; cbn [fst snd]; [| reflexivity].
  rewrite Hc. replace (E + 1 - emin) with (Z.succ (E - emin)) by lia.
  replace (2 ^ prec) with (2 ^ Z.succ (prec - 1)) by (f_equal; lia).
  rewrite !Z.pow_succ_r by lia. lia.
Qed.

Lemma pval_round_exact m e :
  0 < m -> fexp (Zdigits2 m + e) <= e ->
  pval (round_pair m e) = m * 2 ^ (e - emin).
Proof.
  intros Hm H. unfold SpecRound.round_pair, pval.
  set (E := fexp (Zdigits2 m + e)) in *.
  assert (emin <= E) by apply fexp_ge_emin.
  destruct (Z.leb_spec E e); [| lia]. cbn [fst snd].
  rewrite <- Z.mul_assoc, <- Z.pow_add_r by lia. do 2 f_equal. lia.
Qed.

(** A value below [2^K] is rounded to at most [2^K]. *)
Lemma pval_round_upper m e K :
  0 < m -> Zdigits2 m + e <= K -> emin <= K ->
  pval (round_pair m e) <= 2 ^ (K - emin).
Proof.
  intros Hm HK HKe.
  pose proof (Zdigits2_bounds m Hm) as [Hdl Hdu].
  pose proof (Zdigits2_pos m Hm) as Hd.
  set (d := Zdigits2 m) in *.
  destruct (Z.le_gt_cases (fexp (d + e)) e) as [Hle | Hlt].
  - rewrite pval_round_exact by assumption.
    assert (emin <= e) by (pose proof (fexp_ge_emin (d + e)); lia).
    pose proof (pow2_pos (e - emin) ltac:(lia)).
    apply Z.le_trans with (2 ^ d * 2 ^ (e - emin)); [nia |].
    rewrite <- Z.pow_add_r by lia. apply Z.pow_le_mono_r; lia.
  - rewrite pval_round_shift by assumption. fold d.
    set (E := fexp (d + e)) in *.
    assert (emin <= E) by apply fexp_ge_emin.
    pose proof (pow2_pos (E - emin) ltac:(lia)).
    destruct (Z.le_gt_cases (E - e) d) as [Hdn | Hdn].
    + pose proof (rne_bounds m (E - e) ltac:(lia) ltac:(lia)) as [_ Hr].
      pose proof (pow2_pos (E - e) ltac:(lia)).
      assert (m / 2 ^ (E - e) < 2 ^ (d - (E - e))).
      { apply Z.div_lt_upper_bound; [lia |]. rewrite <- Z.pow_add_r by lia.
        replace (E - e + (d - (E - e))) with d by lia. assumption. }
      apply Z.le_trans with (2 ^ (d - (E - e)) * 2 ^ (E - emin)); [nia |].
      rewrite <- Z.pow_add_r by lia. apply Z.pow_le_mono_r; lia.
    + rewrite rne_small; [| lia | lia |].
      * pose proof (pow2_pos (K - emin) ltac:(lia)). lia.
      * apply Z.lt_le_trans with (2 ^ (d + 1)).
        { rewrite Z.pow_add_r, Z.pow_1_r by lia. lia. }
        apply Z.pow_le_mono_r; lia.
Qed.

(** A value of the normal range that is at least [2^K] is rounded to at
    least [2^K]. *)
Lemma pval_round_lower m e K :
  0 < m -> K <= Zdigits2 m + e - 1 -> emin <= K ->
  emin + prec - 1 <= Zdigits2 m + e - 1 ->
  2 ^ (K - emin) <= pval (round_pair m e).
Proof.
  intros Hm HK HKe Hn.
  pose proof (Zdigits2_bounds m Hm) as [Hdl Hdu].
  pose proof (Zdigits2_pos m Hm) as Hd.
  set (d := Zdigits2 m) in *.
  destruct (Z.le_gt_cases (fexp (d + e)) e) as [Hle | Hlt].
  - rewrite pval_round_exact by assumption.
    assert (emin <= e) by (pose proof (fexp_ge_emin (d + e)); lia).
    pose proof (pow2_pos (e - emin) ltac:(lia)).
    apply Z.le_trans with (2 ^ (d - 1) * 2 ^ (e - emin)); [| nia].
    rewrite <- Z.pow_add_r by lia. apply Z.pow_le_mono_r; lia.
  - rewrite pval_round_shift by assumption. fold d.
    set (E := fexp (d + e)) in *.
    assert (HE : E = d + e - prec) by (unfold E, SpecFloat.fexp; lia).
    pose proof (pow2_pos (E - emin) ltac:(lia)).
    pose proof (pow2_pos (E - e) ltac:(lia)).
    pose proof (rne_bounds m (E - e) ltac:(lia) ltac:(lia)) as [Hr _].
    assert (2 ^ (prec - 1) <= m / 2 ^ (E - e)).
    { apply Z.div_le_lower_bound; [lia |].
      rewrite Z.mul_comm, <- Z.pow_add_r by lia.
      replace (prec - 1 + (E - e)) with (d - 1) by lia. assumption. }
    apply Z.le_trans with (2 ^ (prec - 1) * 2 ^ (E - emin)); [| nia].
    rewrite <- Z.pow_add_r by lia. apply Z.pow_le_mono_r; lia.
Qed.

Lemma Zdigits2_mono a c : 0 < a <= c -> Zdigits2 a <= Zdigits2 c.
Proof.
  intros H. pose proof (Zdigits2_bounds c ltac:(lia)) as [_ Hu].
  apply Zdigits2_le; lia.
Qed.

Lemma round_pair_mono_same m1 m2 e :
  0 < m1 <= m2 -> pval (round_pair m1 e) <= pval (round_pair m2 e).
Proof.
  intros Hm.
  pose proof (Zdigits2_mono m1 m2 Hm) as Hd.
  pose proof (fexp_mono (Zdigits2 m1 + e) (Zdigits2 m2 + e) ltac:(lia)) as HE.
  destruct (Z.eq_dec (fexp (Zdigits2 m1 + e)) (fexp (Zdigits2 m2 + e))) as [Heq | Hne].
  - destruct (Z.le_gt_cases (fexp (Zdigits2 m2 + e)) e) as [Hle | Hlt].
    + rewrite !pval_round_exact by lia.
      assert (emin <= e) by (pose proof (fexp_ge_emin (Zdigits2 m2 + e)); lia).
      pose proof (pow2_pos (e - emin) ltac:(lia)). nia.
    + rewrite !pval_round_shift by lia. rewrite Heq.
      set (E := fexp (Zdigits2 m2 + e)) in *.
      assert (emin <= E) by apply fexp_ge_emin.
      pose proof (pow2_pos (E - emin) ltac:(lia)).
      pose proof (rne_mono m1 m2 (E - e) ltac:(lia) ltac:(lia)). nia.
  - assert (Hlt : fexp (Zdigits2 m1 + e) < fexp (Zdigits2 m2 + e)) by lia.
    assert (Zdigits2 m1 < Zdigits2 m2).
    { destruct (Z.lt_ge_cases (Zdigits2 m1) (Zdigits2 m2)); [assumption |].
      replace (Zdigits2 m2) with (Zdigits2 m1) in Hlt by lia. lia. }
    assert (emin < fexp (Zdigits2 m2 + e))
      by (pose proof (fexp_ge_emin (Zdigits2 m1 + e)); lia).
    assert (fexp (Zdigits2 m2 + e) = Zdigits2 m2 + e - prec) by (unfold SpecFloat.fexp in *; lia).
    apply Z.le_trans with (2 ^ (Zdigits2 m2 + e - 1 - emin)).
    + apply pval_round_upper; lia.
    + apply pval_round_lower; lia.
Qed.

(** Rounding is monotone in the value. *)
Lemma round_pair_mono m1 e1 m2 e2 e0 :
  0 < m1 -> 0 < m2 -> e0 <= e1 -> e0 <= e2 ->
  m1 * 2 ^ (e1 - e0) <= m2 * 2 ^ (e2 - e0) ->
  pval (round_pair m1 e1) <= pval (round_pair m2 e2).
Proof.
  intros H1 H2 He1 He2 Hv.
  pose proof (pow2_pos (e1 - e0) ltac:(lia)). pose proof (pow2_pos (e2 - e0) ltac:(lia)).
  rewrite <- (round_pair_scale m1 e1 (e1 - e0)) by lia.
  rewrite <- (round_pair_scale m2 e2 (e2 - e0)) by lia.
  replace (e1 - (e1 - e0)) with e0 by lia. replace (e2 - (e2 - e0)) with e0 by lia.
  apply round_pair_mono_same. nia.
Qed.

Lemma emin_lt : emin < emax - prec.
Proof. unfold SpecFloat.emin. lia. Qed.

Lemma bounded_inv m e :
  bounded m e = true ->
  fexp (Zpos (digits2_pos m) + e) = e /\ e <= emax - prec /\ emin <= e /\
  Zpos m < 2 ^ prec.
Proof.
  unfold SpecFloat.bounded, canonical_mantissa. intros H.
  apply andb_true_iff in H as [H1 H2].
  apply Z.eqb_eq in H1. apply Z.leb_le in H2.
  pose proof (fexp_ge_emin (Zpos (digits2_pos m) + e)).
  pose proof (fexp_ge (Zpos (digits2_pos m) + e)).
  repeat split; try lia.
  pose proof (digits_bounds m) as [_ Hu].
  eapply Z.lt_le_trans; [exact Hu |]. apply Z.pow_le_mono_r; lia.
Qed.

Lemma bounded_intro m e :
  fexp (Zpos (digits2_pos m) + e) = e -> e <= emax - prec -> bounded m e = true.
Proof.
  intros H1 H2. unfold SpecFloat.bounded, canonical_mantissa.
  apply andb_true_iff. split; [now apply Z.eqb_eq | now apply Z.leb_le].
Qed.

Lemma fval_bounded_lt s m e :
  bounded m e = true -> fval (S754_finite s m e) < 2 ^ (emax - emin).
Proof.
  intros H. apply bounded_inv in H as (_ & He & Hm & Hp). cbn [fval].
  pose proof (pow2_pos (e - emin) ltac:(lia)).
  apply Z.lt_le_trans with (2 ^ prec * 2 ^ (e - emin)); [nia |].
  rewrite <- Z.pow_add_r by lia. apply Z.pow_le_mono_r; lia.
Qed.

(** The three shapes of a rounded positive value. *)
Lemma of_pair_round_cases sx m e :
  0 < m ->
  let r := of_pair sx (round_pair m e) in
  (r = S754_zero sx /\ pval (round_pair m e) = 0) \/
  (exists m' e', r = S754_finite sx m' e' /\ bounded m' e' = true /\
                 fval r = pval (round_pair m e)) \/
  (r = S754_infinity sx /\ 2 ^ (emax - emin) <= pval (round_pair m e)).
Proof.
  intros Hm r. subst r.
  pose proof (round_pair_format m e Hm) as Hf.
  destruct (round_pair m e) as [m' e'] eqn:Er.
  destruct Hf as (Hm' & He' & Hc).
  unfold SpecRound.of_pair, SpecRound.pval. cbn [fst snd].
  destruct m' as [| p | p]; [left; split; [reflexivity | lia] | | lia].
  right. specialize (Hc ltac:(lia)). cbn [Zdigits2] in Hc.
  unfold SpecRound.overflow_to. destruct (Z.leb_spec e' (emax - prec)) as [Hle | Hgt].
  - left. exists p, e'. split; [reflexivity |]. split; [now apply bounded_intro | reflexivity].
  - right. split; [reflexivity |].
    pose proof emin_lt.
    assert (Hd : Zpos (digits2_pos p) = prec) by (unfold SpecFloat.fexp in Hc; lia).
    pose proof (digits_bounds p) as [Hl _]. rewrite Hd in Hl.
    pose proof (pow2_pos (e' - emin) ltac:(lia)).
    apply Z.le_trans with (2 ^ (prec - 1) * 2 ^ (e' - emin)); [| nia].
    rewrite <- Z.pow_add_r by lia. apply Z.pow_le_mono_r; lia.
Qed.

(** A number of the format is rounded to itself. *)
Lemma binary_round_bounded sx m e :
  bounded m e = true -> binary_round prec emax sx m e = S754_finite sx m e.
Proof.
  intros H. apply bounded_inv in H as (Hc & He & _ & _).
  rewrite binary_round_pair by assumption. unfold SpecRound.round_pair. cbn [Zdigits2].
  rewrite Hc. rewrite Z.leb_refl, Z.sub_diag, Z.pow_0_r, Z.mul_1_r.
  unfold SpecRound.of_pair, SpecRound.overflow_to. cbn [fst snd].
  destruct (Z.leb_spec e (emax - prec)); [reflexivity | lia].
Qed.

Lemma binary_round_rnd sx m e :
  emin <= e -> binary_round prec emax sx m e = rnd sx (Zpos m * 2 ^ (e - emin)).
Proof.
  intros He. rewrite binary_round_pair by assumption. unfold rnd.
  rewrite <- (round_pair_scale (Zpos m) e (e - emin)) by lia.
  do 2 f_equal. lia.
Qed.

Lemma rnd_bounded sx m e :
  bounded m e = true -> rnd sx (fval (S754_finite sx m e)) = S754_finite sx m e.
Proof.
  intros H. pose proof (bounded_inv m e H) as (_ & _ & He & _).
  cbn [fval]. rewrite <- binary_round_rnd by assumption. now apply binary_round_bounded.
Qed.

Lemma rnd_cases sx v :
  0 < v ->
  (rnd sx v = S754_zero sx /\ pval (round_pair v emin) = 0) \/
  (exists m' e', rnd sx v = S754_finite sx m' e' /\ bounded m' e' = true /\
                 fval (rnd sx v) = pval (round_pair v emin)) \/
  (rnd sx v = S754_infinity sx /\ 2 ^ (emax - emin) <= pval (round_pair v emin)).
Proof. intros Hv. apply (of_pair_round_cases sx v emin Hv). Qed.

Lemma pval_rnd_mono v1 v2 :
  0 < v1 <= v2 -> pval (round_pair v1 emin) <= pval (round_pair v2 emin).
Proof. intros H. apply round_pair_mono_same; assumption. Qed.

Lemma pval_rnd_fval s m e :
  bounded m e = true ->
  pval (round_pair (fval (S754_finite s m e)) emin) = fval (S754_finite s m e).
Proof.
  intros H. pose proof (rnd_bounded s m e H) as Hr.
  destruct (rnd_cases s (fval (S754_finite s m e))) as [[E _] | [(m' & e' & E & _ & Hv) | [E _]]].
  - cbn [fval]. pose proof (pow2_pos (e - emin)).
    pose proof (bounded_inv m e H). lia.
  - rewrite Hr in E; discriminate.
  - rewrite <- Hv, Hr. reflexivity.
  - rewrite Hr in E; discriminate.
Qed.

(** *** The operations on finite numbers, by value *)

Lemma shl_align_val m e ez :
  ez <= e -> Zpos (fst (shl_align m e ez)) = Zpos m * 2 ^ (e - ez).
Proof.
  intros H. unfold shl_align.
  destruct (ez - e) as [| d | d] eqn:Ed; cbn [fst].
  - replace (e - ez) with 0 by lia. lia.
  - lia.
  - rewrite pos_iter_xO. do 2 f_equal. lia.
Qed.

Lemma binary_normalize_signed v e :
  emin <= e ->
  binary_normalize prec emax v e false = round_signed (v * 2 ^ (e - emin)).
Proof.
  intros He. pose proof (pow2_pos (e - emin) ltac:(lia)) as Hp.
  destruct v as [| p | p]; cbn [binary_normalize].
  - reflexivity.
  - rewrite binary_round_rnd by assumption.
    destruct (Zpos p * 2 ^ (e - emin)) eqn:Ev; try lia. reflexivity.
  - rewrite binary_round_rnd by assumption.
    destruct (Zneg p * 2 ^ (e - emin)) as [| q | q] eqn:Ev; try lia.
    cbn [SpecRound.round_signed]. f_equal. lia.
Qed.

Lemma SFadd_finite s1 m1 e1 s2 m2 e2 :
  emin <= e1 -> emin <= e2 ->
  SFadd prec emax (S754_finite s1 m1 e1) (S754_finite s2 m2 e2) =
  round_signed (sval (S754_finite s1 m1 e1) + sval (S754_finite s2 m2 e2)).
Proof.
  intros H1 H2. cbn [SFadd sval].
  rewrite !shl_align_val by lia.
  rewrite binary_normalize_signed by lia. f_equal.
  set (ez := Z.min e1 e2).
  assert (Hz : forall s m e, ez <= e ->
    cond_Zopp s (Zpos m * 2 ^ (e - ez)) * 2 ^ (ez - emin) = cond_Zopp s (Zpos m * 2 ^ (e - emin))).
  { intros s m e He. replace (e - emin) with (e - ez + (ez - emin)) by lia.
    rewrite Z.pow_add_r by lia. destruct s; cbn [cond_Zopp]; lia. }
  rewrite Z.mul_add_distr_r, !Hz by lia. reflexivity.
Qed.

Lemma SFsub_finite s1 m1 e1 s2 m2 e2 :
  emin <= e1 -> emin <= e2 ->
  SFsub prec emax (S754_finite s1 m1 e1) (S754_finite s2 m2 e2) =
  round_signed (sval (S754_finite s1 m1 e1) - sval (S754_finite s2 m2 e2)).
Proof.
  intros H1 H2. cbn [SFsub sval].
  rewrite !shl_align_val by lia.
  rewrite binary_normalize_signed by lia. f_equal.
  set (ez := Z.min e1 e2).
  assert (Hz : forall s m e, ez <= e ->
    cond_Zopp s (Zpos m * 2 ^ (e - ez)) * 2 ^ (ez - emin) = cond_Zopp s (Zpos m * 2 ^ (e - emin))).
  { intros s m e He. replace (e - emin) with (e - ez + (ez - emin)) by lia.
    rewrite Z.pow_add_r by lia. destruct s; cbn [cond_Zopp]; lia. }
  rewrite Z.mul_sub_distr_r, !Hz by lia. reflexivity.
Qed.

Lemma Zdigits2_mul a c :
  0 < a -> 0 < c -> Zdigits2 a + Zdigits2 c - 1 <= Zdigits2 (a * c) <= Zdigits2 a + Zdigits2 c.
Proof.
  intros Ha Hc.
  pose proof (Zdigits2_bounds a Ha) as [Hal Hau]. pose proof (Zdigits2_bounds c Hc) as [Hcl Hcu].
  pose proof (Zdigits2_pos a Ha). pose proof (Zdigits2_pos c Hc).
  split.
  - assert (Zdigits2 a + Zdigits2 c - 2 + 1 <= Zdigits2 (a * c)); [| lia].
    apply Zdigits2_ge; [lia |].
    replace (Zdigits2 a + Zdigits2 c - 2) with (Zdigits2 a - 1 + (Zdigits2 c - 1)) by lia.
    rewrite Z.pow_add_r by lia. nia.
  - apply Zdigits2_le; [nia |]. rewrite Z.pow_add_r by lia. nia.
Qed.

Lemma SFmul_finite s1 m1 e1 s2 m2 e2 :
  bounded m1 e1 = true -> bounded m2 e2 = true ->
  SFmul prec emax (S754_finite s1 m1 e1) (S754_finite s2 m2 e2) =
  of_pair (xorb s1 s2) (round_pair (Zpos m1 * Zpos m2) (e1 + e2)).
Proof.
  intros H1 H2. cbn [SFmul].
  change (Zpos (m1 * m2)) with (Zpos m1 * Zpos m2).
  apply bounded_inv in H1 as (Hc1 & _ & He1 & _).
  apply bounded_inv in H2 as (Hc2 & _ & He2 & _).
  change (Zpos m1 * Zpos m2) with (Zpos (m1 * m2)).
  apply binary_round_aux_pair.
  change (Zpos (digits2_pos (m1 * m2))) with (Zdigits2 (Zpos m1 * Zpos m2)).
  pose proof (Zdigits2_mul (Zpos m1) (Zpos m2) ltac:(lia) ltac:(lia)) as [Hd _].
  cbn [Zdigits2] in Hd.
  pose proof (fexp_ge (Zdigits2 (Zpos m1 * Zpos m2) + (e1 + e2))).
  pose proof (fexp_ge_emin (Zdigits2 (Zpos m1 * Zpos m2) + (e1 + e2))).
  pose proof emin_lt.
  unfold SpecFloat.fexp in Hc1, Hc2. unfold SpecFloat.emin in *. lia.
Qed.

(** *** Signs and sizes of the results *)

Lemma pval_round_pow2 K :
  emin <= K -> pval (round_pair 1 K) = 2 ^ (K - emin).
Proof.
  intros HK. rewrite pval_round_exact; [lia | lia |].
  cbn [Zdigits2 digits2_pos]. unfold SpecFloat.fexp. lia.
Qed.

Lemma of_pair_nonneg m e : 0 < m -> nonneg (of_pair false (round_pair m e)).
Proof.
  intros Hm.
  destruct (of_pair_round_cases false m e Hm) as [[E _] | [(m' & e' & E & Hb & _) | [E _]]];
    rewrite E; cbn; auto.
Qed.

Lemma of_pair_nonpos m e : 0 < m -> nonpos (of_pair true (round_pair m e)).
Proof.
  intros Hm.
  destruct (of_pair_round_cases true m e Hm) as [[E _] | [(m' & e' & E & Hb & _) | [E _]]];
    rewrite E; cbn; auto.
Qed.

Lemma of_pair_number sx m e : 0 < m -> number (of_pair sx (round_pair m e)).
Proof.
  intros Hm.
  destruct (of_pair_round_cases sx m e Hm) as [[E _] | [(m' & e' & E & Hb & _) | [E _]]];
    rewrite E; cbn; auto.
Qed.

Lemma round_signed_number v : number (round_signed v).
Proof.
  destruct v as [| p | p]; cbn [SpecRound.round_signed]; [exact I | |];
    apply of_pair_number; lia.
Qed.

Lemma nonneg_number x : nonneg x -> number x.
Proof. destruct x as [| [] | | [] ? ?]; cbn; auto. Qed.

Lemma nonpos_number x : nonpos x -> number x.
Proof. destruct x as [| [] | | [] ? ?]; cbn; auto. Qed.

Lemma finitef_number x : finitef x -> number x.
Proof. destruct x; cbn; auto. Qed.

Lemma nonneg_plus_sign x : nonneg x -> plus_sign x.
Proof. destruct x as [| [] | | [] ? ?]; cbn; auto. Qed.

(** An upper bound of the value is kept by the rounding. *)
Lemma of_pair_mag sx m e K e0 :
  0 < m -> e0 <= e -> e0 <= K -> emin <= K -> K < emax ->
  m * 2 ^ (e - e0) <= 2 ^ (K - e0) ->
  mag_le K (of_pair sx (round_pair m e)).
Proof.
  intros Hm H1 H2 HK HK' Hv.
  assert (Hp : pval (round_pair m e) <= 2 ^ (K - emin)).
  { rewrite <- pval_round_pow2 by assumption.
    apply (round_pair_mono m e 1 K e0); lia. }
  destruct (of_pair_round_cases sx m e Hm) as [[E _] | [(m' & e' & E & Hb & Hf) | [E Hi]]];
    rewrite E in *.
  - exact I.
  - cbn [SpecRound.mag_le]. split; [assumption | lia].
  - assert (2 ^ (K - emin) < 2 ^ (emax - emin)) by (apply Z.pow_lt_mono_r; lia). lia.
Qed.

(** A lower bound of the value in the normal range is kept by the
    rounding. *)
Lemma of_pair_at_least m e K e0 :
  0 < m -> e0 <= e -> e0 <= K -> emin + prec - 1 <= K ->
  2 ^ (K - e0) <= m * 2 ^ (e - e0) ->
  at_least K (of_pair false (round_pair m e)).
Proof.
  intros Hm H1 H2 HK Hv.
  assert (Hp : 2 ^ (K - emin) <= pval (round_pair m e)).
  { rewrite <- pval_round_pow2 by lia.
    apply (round_pair_mono 1 K m e e0); lia. }
  pose proof (pow2_pos (K - emin) ltac:(lia)).
  destruct (of_pair_round_cases false m e Hm) as [[E Hz] | [(m' & e' & E & Hb & Hf) | [E Hi]]];
    rewrite E in *.
  - lia.
  - cbn [SpecRound.at_least]. split; [assumption | lia].
  - exact I.
Qed.

Lemma mag_le_finitef K x : mag_le K x -> finitef x.
Proof. destruct x; cbn; tauto. Qed.

Lemma mag_le_weaken K K' x : K <= K' -> emin <= K -> mag_le K x -> mag_le K' x.
Proof.
  intros HK He. destruct x; cbn [SpecRound.mag_le]; try tauto.
  intros [Hb Hv]. split; [assumption |].
  eapply Z.le_trans; [exact Hv |]. apply Z.pow_le_mono_r; lia.
Qed.

Lemma finitef_mag x : finitef x -> mag_le emax x.
Proof.
  destruct x as [| | | s0 m e]; cbn [SpecRound.finitef SpecRound.mag_le]; try tauto.
  intros Hb. split; [assumption |].
  pose proof (fval_bounded_lt s0 m e Hb). lia.
Qed.

Lemma round_signed_pos v : 0 < v -> round_signed v = rnd false v.
Proof. destruct v; try lia. reflexivity. Qed.

Lemma round_signed_neg v : v < 0 -> round_signed v = rnd true (- v).
Proof. destruct v; try lia. reflexivity. Qed.

Lemma fval_pos s0 m e : emin <= e -> 0 < fval (S754_finite s0 m e).
Proof. intros He. cbn [SpecRound.fval]. pose proof (pow2_pos (e - emin) ltac:(lia)). nia. Qed.

Lemma sval_false m e : sval (S754_finite false m e) = fval (S754_finite false m e).
Proof. reflexivity. Qed.

Lemma sval_true m e : sval (S754_finite true m e) = - fval (S754_finite true m e).
Proof. reflexivity. Qed.

Lemma SFadd_nonneg x y : nonneg x -> nonneg y -> nonneg (SFadd prec emax x y).
Proof.
  destruct x as [sx | [] | | [] mx ex], y as [sy | [] | | [] my ey];
    cbn [SpecRound.nonneg]; try tauto; intros Hx Hy;
    try (cbn [SFadd]; cbn [SpecRound.nonneg]; tauto).
  - destruct sx, sy; exact I.
  - pose proof (bounded_inv mx ex Hx) as (_ & _ & H1 & _).
    pose proof (bounded_inv my ey Hy) as (_ & _ & H2 & _).
    rewrite SFadd_finite, !sval_false by assumption.
    pose proof (fval_pos false mx ex H1). pose proof (fval_pos false my ey H2).
    rewrite round_signed_pos by lia. apply of_pair_nonneg. lia.
Qed.

Lemma at_least_nonneg K x : at_least K x -> nonneg x.
Proof. destruct x as [| [] | | [] ? ?]; cbn; tauto. Qed.

Lemma rnd_at_least K v :
  emin + prec - 1 <= K -> 2 ^ (K - emin) <= v -> at_least K (rnd false v).
Proof.
  intros HK Hv. pose proof (pow2_pos (K - emin) ltac:(lia)).
  apply (of_pair_at_least v emin K emin); try lia.
  now rewrite Z.sub_diag, Z.pow_0_r, Z.mul_1_r.
Qed.

Lemma SFadd_at_least_l K x y :
  emin + prec - 1 <= K -> at_least K x -> nonneg y -> at_least K (SFadd prec emax x y).
Proof.
  intros HK.
  destruct x as [sx | [] | | [] mx ex], y as [sy | [] | | [] my ey];
    cbn [SpecRound.nonneg SpecRound.at_least]; try tauto; intros Hx Hy;
    try (cbn [SFadd]; cbn [SpecRound.at_least]; tauto).
  destruct Hx as [Hx Hv].
  pose proof (bounded_inv mx ex Hx) as (_ & _ & H1 & _).
  pose proof (bounded_inv my ey Hy) as (_ & _ & H2 & _).
  rewrite SFadd_finite, !sval_false by assumption.
  pose proof (fval_pos false my ey H2).
  rewrite round_signed_pos by lia. apply rnd_at_least; lia.
Qed.

Lemma SFadd_at_least_r K x y :
  emin + prec - 1 <= K -> nonneg x -> at_least K y -> at_least K (SFadd prec emax x y).
Proof.
  intros HK.
  destruct x as [sx | [] | | [] mx ex], y as [sy | [] | | [] my ey];
    cbn [SpecRound.nonneg SpecRound.at_least]; try tauto; intros Hx Hy;
    try (cbn [SFadd]; cbn [SpecRound.at_least]; tauto).
  destruct Hy as [Hy Hv].
  pose proof (bounded_inv mx ex Hx) as (_ & _ & H1 & _).
  pose proof (bounded_inv my ey Hy) as (_ & _ & H2 & _).
  rewrite SFadd_finite, !sval_false by assumption.
  pose proof (fval_pos false mx ex H1).
  rewrite round_signed_pos by lia. apply rnd_at_least; lia.
Qed.

Lemma SFopp_nonneg x : nonneg x -> nonpos (SFopp x).
Proof. destruct x as [| [] | | [] ? ?]; cbn; tauto. Qed.

Lemma SFsub_nonpos_nonneg x y : nonpos x -> nonneg y -> nonpos (SFsub prec emax x y).
Proof.
  destruct x as [sx | [] | | [] mx ex], y as [sy | [] | | [] my ey];
    cbn [SpecRound.nonneg SpecRound.nonpos]; try tauto; intros Hx Hy;
    try (cbn [SFsub negb]; cbn [SpecRound.nonpos]; tauto).
  - destruct sx, sy; exact I.
  - pose proof (bounded_inv mx ex Hx) as (_ & _ & H1 & _).
    pose proof (bounded_inv my ey Hy) as (_ & _ & H2 & _).
    rewrite SFsub_finite, sval_false, sval_true by assumption.
    pose proof (fval_pos true mx ex H1). pose proof (fval_pos false my ey H2).
    rewrite round_signed_neg by lia. apply of_pair_nonpos. lia.
Qed.

Lemma SFsub_finitef_number x y :
  finitef x -> finitef y -> number (SFsub prec emax x y).
Proof.
  destruct x as [sx | | | sx mx ex], y as [sy | | | sy my ey];
    cbn [SpecRound.finitef]; try tauto; intros Hx Hy;
    try (destruct sx, sy; exact I); try exact Hy; try exact Hx.
  pose proof (bounded_inv mx ex Hx) as (_ & _ & H1 & _).
  pose proof (bounded_inv my ey Hy) as (_ & _ & H2 & _).
  rewrite SFsub_finite by assumption. apply round_signed_number.
Qed.

Lemma SFsub_diag x : finitef x -> SFsub prec emax x x = S754_zero false.
Proof.
  destruct x as [[] | | | sx mx ex]; cbn [SpecRound.finitef]; try tauto; intros Hx;
    try reflexivity.
  pose proof (bounded_inv mx ex Hx) as (_ & _ & H1 & _).
  rewrite SFsub_finite by assumption. now rewrite Z.sub_diag.
Qed.

Lemma rnd_mag sx K v :
  emin <= K -> K < emax -> 0 < v <= 2 ^ (K - emin) -> mag_le K (rnd sx v).
Proof.
  intros HK HK' Hv. apply (of_pair_mag sx v emin K emin); try lia.
  now rewrite Z.sub_diag, Z.pow_0_r, Z.mul_1_r.
Qed.

Lemma round_signed_mag K v :
  emin <= K -> K < emax -> Z.abs v <= 2 ^ (K - emin) -> mag_le K (round_signed v).
Proof.
  intros HK HK' Hv. destruct v as [| p | p]; cbn [SpecRound.round_signed];
    [exact I | |]; apply rnd_mag; lia.
Qed.

Lemma sval_abs x : Z.abs (sval x) = fval x.
Proof.
  destruct x as [| | | [] m e]; cbn [SpecRound.sval SpecRound.fval cond_Zopp]; try reflexivity.
  - rewrite Z.abs_opp. apply Z.abs_eq. apply Z.mul_nonneg_nonneg; [lia | apply Z.pow_nonneg; lia].
  - apply Z.abs_eq. apply Z.mul_nonneg_nonneg; [lia | apply Z.pow_nonneg; lia].
Qed.

Lemma SFsub_mag K x y :
  emin <= K -> K + 1 < emax -> mag_le K x -> mag_le K y ->
  mag_le (K + 1) (SFsub prec emax x y).
Proof.
  intros HK HK'.
  destruct x as [sx | | | sx mx ex], y as [sy | | | sy my ey];
    cbn [SpecRound.mag_le]; try tauto; intros Hx Hy.
  - destruct sx, sy; exact I.
  - cbn [SFsub SpecRound.mag_le]. destruct Hy as [Hb Hv]. split; [assumption |].
    cbn [SpecRound.fval] in *. eapply Z.le_trans; [exact Hv |]. apply Z.pow_le_mono_r; lia.
  - cbn [SFsub SpecRound.mag_le]. destruct Hx as [Hb Hv]. split; [assumption |].
    eapply Z.le_trans; [exact Hv |]. apply Z.pow_le_mono_r; lia.
  - destruct Hx as [Hx Hvx], Hy as [Hy Hvy].
    pose proof (bounded_inv mx ex Hx) as (_ & _ & H1 & _).
    pose proof (bounded_inv my ey Hy) as (_ & _ & H2 & _).
    rewrite SFsub_finite by assumption. apply round_signed_mag; try lia.
    pose proof (sval_abs (S754_finite sx mx ex)). pose proof (sval_abs (S754_finite sy my ey)).
    replace (K + 1 - emin) with (Z.succ (K - emin)) by lia. rewrite Z.pow_succ_r by lia.
    lia.
Qed.

Lemma SFmul_self_nonneg x : number x -> nonneg (SFmul prec emax x x).
Proof.
  destruct x as [sx | sx | | sx mx ex]; cbn [SpecRound.number]; try tauto; intros Hx.
  - cbn [SFmul]. now rewrite xorb_nilpotent.
  - rewrite SFmul_finite, xorb_nilpotent by assumption. apply of_pair_nonneg. lia.
Qed.

Lemma SFmul_nonneg_finite x my ey :
  nonneg x -> bounded my ey = true ->
  nonneg (SFmul prec emax x (S754_finite false my ey)).
Proof.
  destruct x as [sx | [] | | [] mx ex]; cbn [SpecRound.nonneg]; try tauto; intros Hx Hy;
    try exact I.
  rewrite SFmul_finite by assumption. apply of_pair_nonneg. lia.
Qed.

Lemma pow2_split a c : 0 <= a -> 0 <= c -> 2 ^ (a + c) = 2 ^ a * 2 ^ c.
Proof. intros. now apply Z.pow_add_r. Qed.

Lemma SFmul_mag Ka Kb x y :
  emin <= Ka -> emin <= Kb -> emin <= Ka + Kb -> Ka + Kb < emax ->
  mag_le Ka x -> mag_le Kb y -> mag_le (Ka + Kb) (SFmul prec emax x y).
Proof.
  intros HKa HKb HK HK'.
  destruct x as [sx | | | sx mx ex], y as [sy | | | sy my ey];
    cbn [SpecRound.mag_le]; try tauto; intros Hx Hy; try exact I.
  destruct Hx as [Hx Hvx], Hy as [Hy Hvy].
  pose proof (bounded_inv mx ex Hx) as (_ & _ & H1 & _).
  pose proof (bounded_inv my ey Hy) as (_ & _ & H2 & _).
  rewrite SFmul_finite by assumption.
  pose proof emin_lt.
  assert (Hemin : emin <= 0) by (unfold SpecFloat.emin in *; lia).
  apply (of_pair_mag _ _ _ _ (emin + emin)); try lia.
  cbn [SpecRound.fval] in Hvx, Hvy.
  replace (ex + ey - (emin + emin)) with ((ex - emin) + (ey - emin)) by lia.
  replace (Ka + Kb - (emin + emin)) with ((Ka - emin) + (Kb - emin)) by lia.
  rewrite !pow2_split by lia.
  pose proof (pow2_pos (ex - emin) ltac:(lia)). pose proof (pow2_pos (ey - emin) ltac:(lia)).
  pose proof (pow2_pos (Ka - emin) ltac:(lia)). pose proof (pow2_pos (Kb - emin) ltac:(lia)).
  nia.
Qed.

Lemma SFmul_at_least Ka Kb x y :
  emin <= Ka -> emin <= Kb -> emin + prec - 1 <= Ka + Kb ->
  at_least Ka x -> at_least Kb y -> at_least (Ka + Kb) (SFmul prec emax x y).
Proof.
  intros HKa HKb HK.
  destruct x as [sx | [] | | [] mx ex], y as [sy | [] | | [] my ey];
    cbn [SpecRound.at_least]; try tauto; intros Hx Hy; try exact I.
  destruct Hx as [Hx Hvx], Hy as [Hy Hvy].
  pose proof (bounded_inv mx ex Hx) as (_ & _ & H1 & _).
  pose proof (bounded_inv my ey Hy) as (_ & _ & H2 & _).
  rewrite SFmul_finite by assumption. cbn [xorb].
  pose proof emin_lt.
  assert (Hemin : emin <= 0) by (unfold SpecFloat.emin in *; lia).
  apply (of_pair_at_least _ _ _ (emin + emin)); try lia.
  cbn [SpecRound.fval] in Hvx, Hvy.
  replace (ex + ey - (emin + emin)) with ((ex - emin) + (ey - emin)) by lia.
  replace (Ka + Kb - (emin + emin)) with ((Ka - emin) + (Kb - emin)) by lia.
  rewrite !pow2_split by lia.
  pose proof (pow2_pos (ex - emin) ltac:(lia)). pose proof (pow2_pos (ey - emin) ltac:(lia)).
  pose proof (pow2_pos (Ka - emin) ltac:(lia)). pose proof (pow2_pos (Kb - emin) ltac:(lia)).
  nia.
Qed.

(** *** Conversion into the format *)

Lemma reround_nonneg x : plus_sign x -> nonneg (reround prec emax x).
Proof.
  destruct x as [sx | [] | | [] mx ex]; cbn [SpecRound.plus_sign reround]; try tauto; intros _;
    try exact I.
  rewrite binary_round_pair. apply of_pair_nonneg. lia.
Qed.

Lemma reround_number x : is_nan x = false -> number (reround prec emax x).
Proof.
  destruct x as [sx | sx | | sx mx ex]; cbn [is_nan reround]; try discriminate; intros _;
    try exact I.
  rewrite binary_round_pair. apply of_pair_number. lia.
Qed.

Lemma reround_mag s0 m e K e0 :
  e0 <= e -> e0 <= K -> emin <= K -> K < emax ->
  Zpos m * 2 ^ (e - e0) <= 2 ^ (K - e0) ->
  mag_le K (reround prec emax (S754_finite s0 m e)).
Proof.
  intros. cbn [reround]. rewrite binary_round_pair.
  apply (of_pair_mag _ _ _ _ e0); lia.
Qed.

Lemma reround_at_least m e K e0 :
  e0 <= e -> e0 <= K -> emin + prec - 1 <= K ->
  2 ^ (K - e0) <= Zpos m * 2 ^ (e - e0) ->
  at_least K (reround prec emax (S754_finite false m e)).
Proof.
  intros. cbn [reround]. rewrite binary_round_pair.
  apply (of_pair_at_least _ _ _ e0); lia.
Qed.

(** *** Division *)

Lemma SFdiv_core_nonneg m1 e1 m2 e2 :
  0 <= fst (fst (SFdiv_core_binary prec emax (Zpos m1) e1 (Zpos m2) e2)).
Proof.
  unfold SFdiv_core_binary.
  set (e' := Z.min _ _). set (m' := match e1 - e2 - e' with Z0 => _ | Zpos _ => _ | Zneg _ => _ end).
  assert (0 <= m').
  { subst m'. destruct (e1 - e2 - e') as [| k | k]; try lia.
    rewrite Z.shiftl_mul_pow2 by lia. pose proof (pow2_pos (Zpos k) ltac:(lia)). nia. }
  pose proof (Z.div_pos m' (Zpos m2) ltac:(lia) ltac:(lia)) as Hq.
  unfold Z.div in Hq. destruct (Z.div_eucl m' (Zpos m2)) as [q r]. exact Hq.
Qed.

Lemma SFdiv_plus_sign x my ey :
  plus_sign x -> plus_sign (SFdiv prec emax x (S754_finite false my ey)).
Proof.
  destruct x as [sx | [] | | [] mx ex]; cbn [SpecRound.plus_sign]; try tauto; intros _;
    try exact I.
  cbn [SFdiv].
  pose proof (SFdiv_core_nonneg mx ex my ey) as Hq.
  destruct (SFdiv_core_binary prec emax (Zpos mx) ex (Zpos my) ey) as [[q e'] l].
  cbn [fst] in Hq. cbn [xorb].
  pose proof (binary_round_aux_class false q e' l Hq) as Hc.
  destruct (binary_round_aux prec emax false q e' l) as [sz | sz | | sz mz ez];
    try contradiction; subst sz; exact I.
Qed.

(** *** Comparison and truncation *)

Lemma SFcompare_finite_pos m1 e1 m2 e2 :
  bounded m1 e1 = true -> bounded m2 e2 = true ->
  SFcompare (S754_finite false m1 e1) (S754_finite false m2 e2) =
  Some (fval (S754_finite false m1 e1) ?= fval (S754_finite false m2 e2)).
Proof.
  intros H1 H2. cbn [SFcompare SpecRound.fval]. f_equal.
  pose proof (bounded_inv m1 e1 H1) as (Hc1 & _ & He1 & Hm1).
  pose proof (bounded_inv m2 e2 H2) as (Hc2 & _ & He2 & Hm2).
  pose proof (digits_bounds m1) as [Hl1 _]. pose proof (digits_bounds m2) as [Hl2 _].
  pose proof (pow2_pos (e1 - emin) ltac:(lia)). pose proof (pow2_pos (e2 - emin) ltac:(lia)).
  destruct (Z.compare_spec e1 e2) as [He | He | He].
  - subst e2. change (Pos.compare_cont Eq m1 m2) with (Zpos m1 ?= Zpos m2).
    rewrite <- Zmult_compare_compat_r by lia. reflexivity.
  - symmetry. apply Z.compare_lt_iff.
    assert (Hd : Zpos (digits2_pos m2) = prec) by (unfold SpecFloat.fexp in Hc2; lia).
    rewrite Hd in Hl2.
    replace (e2 - emin) with (Z.succ (e2 - 1 - emin)) by lia. rewrite Z.pow_succ_r by lia.
    assert (2 ^ (e1 - emin) <= 2 ^ (e2 - 1 - emin)) by (apply Z.pow_le_mono_r; lia).
    replace (2 ^ prec) with (2 ^ Z.succ (prec - 1)) in Hm1 by (f_equal; lia).
    rewrite Z.pow_succ_r in Hm1 by lia.
    pose proof (pow2_pos (e2 - 1 - emin) ltac:(lia)). nia.
  - symmetry. apply Z.compare_gt_iff.
    assert (Hd : Zpos (digits2_pos m1) = prec) by (unfold SpecFloat.fexp in Hc1; lia).
    rewrite Hd in Hl1.
    replace (e1 - emin) with (Z.succ (e1 - 1 - emin)) by lia. rewrite Z.pow_succ_r by lia.
    assert (2 ^ (e2 - emin) <= 2 ^ (e1 - 1 - emin)) by (apply Z.pow_le_mono_r; lia).
    replace (2 ^ prec) with (2 ^ Z.succ (prec - 1)) in Hm2 by (f_equal; lia).
    rewrite Z.pow_succ_r in Hm2 by lia.
    pose proof (pow2_pos (e1 - 1 - emin) ltac:(lia)). nia.
Qed.

Lemma SFleb_posfin x y :
  posfin x -> posfin y -> SFleb x y = (fval x <=? fval y).
Proof.
  destruct x as [sx | | | [] mx ex], y as [sy | | | [] my ey];
    cbn [SpecRound.posfin]; try tauto; intros Hx Hy.
  - pose proof (bounded_inv my ey Hy) as (_ & _ & He & _).
    pose proof (fval_pos false my ey He).
    unfold SFleb. cbn [SFcompare]. change (fval (S754_zero sx)) with 0.
    destruct (Z.leb_spec 0 (fval (S754_finite false my ey))); [reflexivity | lia].
  - pose proof (bounded_inv mx ex Hx) as (_ & _ & He & _).
    pose proof (fval_pos false mx ex He).
    unfold SFleb. cbn [SFcompare]. change (fval (S754_zero sy)) with 0.
    destruct (Z.leb_spec (fval (S754_finite false mx ex)) 0); [lia | reflexivity].
  - unfold SFleb. rewrite SFcompare_finite_pos by assumption.
    unfold Z.leb. destruct (_ ?= _); reflexivity.
Qed.

Lemma Ztrunc_finite s0 m e :
  emin <= e ->
  Ztrunc (S754_finite s0 m e) = Some (cond_Zopp s0 (fval (S754_finite s0 m e) / 2 ^ (- emin))).
Proof.
  intros He. pose proof emin_lt.
  assert (Hemin : emin <= 0) by (unfold SpecFloat.emin in *; lia).
  cbn [Ztrunc SpecRound.fval]. do 2 f_equal.
  pose proof (pow2_pos (- emin) ltac:(lia)).
  destruct e as [| p | p].
  - rewrite Z.shiftl_0_r. replace (0 - emin) with (- emin) by lia.
    now rewrite Z.div_mul by lia.
  - rewrite Z.shiftl_mul_pow2 by lia.
    replace (Zpos p - emin) with (Zpos p + - emin) by lia.
    rewrite (pow2_split (Zpos p) (- emin)), Z.mul_assoc by lia.
    now rewrite Z.div_mul by lia.
  - rewrite Z.shiftr_div_pow2 by lia.
    replace (2 ^ (- emin)) with (2 ^ Zpos p * 2 ^ (Zneg p - emin))
      by (rewrite <- pow2_split by lia; f_equal; lia).
    pose proof (pow2_pos (Zneg p - emin) ltac:(lia)). pose proof (pow2_pos (Zpos p) ltac:(lia)).
    now rewrite Z.div_mul_cancel_r by lia.
Qed.

(** *** A few more facts on the classes of numbers *)

Lemma SFadd_finitef_number x y :
  finitef x -> finitef y -> number (SFadd prec emax x y).
Proof.
  destruct x as [sx | | | sx mx ex], y as [sy | | | sy my ey];
    cbn [SpecRound.finitef]; try tauto; intros Hx Hy;
    try (destruct sx, sy; exact I); try exact Hy; try exact Hx.
  pose proof (bounded_inv mx ex Hx) as (_ & _ & H1 & _).
  pose proof (bounded_inv my ey Hy) as (_ & _ & H2 & _).
  rewrite SFadd_finite by assumption. apply round_signed_number.
Qed.

Lemma SFadd_number_finitef x y :
  number x -> finitef y -> number (SFadd prec emax x y).
Proof.
  intros Hx Hy. destruct x as [sx | sx | | sx mx ex].
  - apply SFadd_finitef_number; [exact I | assumption].
  - destruct y; cbn [SpecRound.finitef] in Hy; try tauto; exact I.
  - contradiction.
  - apply SFadd_finitef_number; assumption.
Qed.

Lemma at_least_mag_finite K K' x :
  at_least K x -> mag_le K' x ->
  exists m e, x = S754_finite false m e /\ bounded m e = true.
Proof.
  destruct x as [sx | [] | | [] m e]; cbn [SpecRound.at_least SpecRound.mag_le];
    try tauto.
  intros [Hb _] _. exists m, e. split; [reflexivity | assumption].
Qed.

Lemma number_valid x :
  number x -> valid_binary prec emax x = true /\ x <> S754_nan.
Proof.
  destruct x; cbn [SpecRound.number valid_binary]; try tauto;
    intros H; (split; [first [reflexivity | assumption] | discriminate]).
Qed.

Lemma valid_leb_zero_nonneg x :
  valid_binary prec emax x = true -> SFleb (S754_zero false) x = true -> nonneg x.
Proof.
  destruct x as [sx | [] | | [] m e]; cbn [valid_binary SpecRound.nonneg];
    try tauto; try discriminate.
Qed.

Lemma nonpos_leb_zero x : nonpos x -> SFleb x (S754_zero false) = true.
Proof. destruct x as [sx | [] | | [] m e]; cbn [SpecRound.nonpos]; try tauto; reflexivity. Qed.

Lemma SFadd_mag K x y :
  emin <= K -> K + 1 < emax -> mag_le K x -> mag_le K y ->
  mag_le (K + 1) (SFadd prec emax x y).
Proof.
  intros HK HK'.
  destruct x as [sx | | | sx mx ex], y as [sy | | | sy my ey];
    cbn [SpecRound.mag_le]; try tauto; intros Hx Hy.
  - destruct sx, sy; exact I.
  - cbn [SFadd SpecRound.mag_le]. destruct Hy as [Hb Hv]. split; [assumption |].
    eapply Z.le_trans; [exact Hv |]. apply Z.pow_le_mono_r; lia.
  - cbn [SFadd SpecRound.mag_le]. destruct Hx as [Hb Hv]. split; [assumption |].
    eapply Z.le_trans; [exact Hv |]. apply Z.pow_le_mono_r; lia.
  - destruct Hx as [Hx Hvx], Hy as [Hy Hvy].
    pose proof (bounded_inv mx ex Hx) as (_ & _ & H1 & _).
    pose proof (bounded_inv my ey Hy) as (_ & _ & H2 & _).
    rewrite SFadd_finite by assumption. apply round_signed_mag; try lia.
    pose proof (sval_abs (S754_finite sx mx ex)). pose proof (sval_abs (S754_finite sy my ey)).
    replace (K + 1 - emin) with (Z.succ (K - emin)) by lia. rewrite Z.pow_succ_r by lia.
    lia.
Qed.

Lemma SFdiv_finite_inf x sy :
  finitef x -> SFdiv prec emax x (S754_infinity sy) =
               S754_zero (xorb (match x with S754_zero s | S754_finite s _ _ => s | _ => false end) sy).
Proof. destruct x; cbn [SpecRound.finitef]; try tauto; reflexivity. Qed.

Lemma nonneg_valid_leb x :
  nonneg x -> valid_binary prec emax x = true /\ SFleb (S754_zero false) x = true.
Proof.
  intros H. destruct x as [sx | sx | | sx m e]; try contradiction.
  - split; reflexivity.
  - destruct sx; [contradiction | split; reflexivity].
  - destruct sx; [contradiction | split; [exact H | reflexivity]].
Qed.

Lemma binary_normalize_nonneg v e :
  0 <= v -> emin <= e -> nonneg (binary_normalize prec emax v e false).
Proof.
  intros Hv He. rewrite binary_normalize_signed by assumption.
  pose proof (pow2_pos (e - emin) ltac:(lia)).
  destruct (Z.eq_dec v 0) as [-> | Hn]; [exact I |].
  rewrite round_signed_pos by nia. apply of_pair_nonneg. nia.
Qed.

End Format.


(** ** Order and monotonicity of the rounded operations *)

Section Monotone.
Variables prec emax : Z.
Hypothesis Hprec : 0 < prec.
Hypothesis Hemax : prec < emax.
Local Set Default Proof Using "Hprec Hemax".

Local Notation "'here' L" := (L prec emax Hprec Hemax)
  (at level 10, L at level 9, only parsing).
Local Abbreviation fexp := (SpecFloat.fexp prec emax).
Local Abbreviation emin := (SpecFloat.emin prec emax).
Local Abbreviation bounded := (SpecFloat.bounded prec emax).
Local Abbreviation round_pair := (SpecRound.round_pair prec emax).
Local Abbreviation of_pair := (SpecRound.of_pair prec emax).
Local Abbreviation pval := (SpecRound.pval prec emax).
Local Abbreviation fval := (SpecRound.fval prec emax).
Local Abbreviation rnd := (SpecRound.rnd prec emax).
Local Abbreviation sval := (SpecRound.sval prec emax).
Local Abbreviation posfin := (SpecRound.posfin prec emax).

Lemma SFltb_posfin x y :
  posfin x -> posfin y -> SFltb x y = (fval x <? fval y).
Proof.
  destruct x as [sx | | | [] mx ex], y as [sy | | | [] my ey];
    cbn [SpecRound.posfin]; try tauto; intros Hx Hy.
  - pose proof (here bounded_inv my ey Hy) as (_ & _ & He & _).
    pose proof (here fval_pos false my ey He).
    unfold SFltb. cbn [SFcompare]. change (fval (S754_zero sx)) with 0.
    destruct (Z.ltb_spec 0 (fval (S754_finite false my ey))); [reflexivity | lia].
  - pose proof (here bounded_inv mx ex Hx) as (_ & _ & He & _).
    pose proof (here fval_pos false mx ex He).
    unfold SFltb. cbn [SFcompare]. change (fval (S754_zero sy)) with 0.
    destruct (Z.ltb_spec (fval (S754_finite false mx ex)) 0); [lia | reflexivity].
  - unfold SFltb. rewrite (here SFcompare_finite_pos) by assumption.
    unfold Z.ltb. destruct (_ ?= _); reflexivity.
Qed.
Lemma pow2_pos_format : 0 < 2 ^ (emax - emin).
Proof. apply pow2_pos. pose proof (here emin_lt). lia. Qed.

Lemma fval_nonneg x : 0 <= fval x.
Proof.
  destruct x as [| | | s0 m e]; cbn [SpecRound.fval]; lia.
Qed.

Lemma posfin_cases x :
  posfin x ->
  (exists s0, x = S754_zero s0) \/
  (exists m e, x = S754_finite false m e /\ bounded m e = true /\ emin <= e /\ 0 < fval x).
Proof.
  destruct x as [s0 | | | [] m e]; cbn [SpecRound.posfin]; try tauto; intros H.
  - left. now exists s0.
  - right. exists m, e. pose proof (here bounded_inv m e H) as (_ & _ & He & _).
    repeat split; try assumption. now apply (here fval_pos).
Qed.

Lemma posfin_zero s0 : posfin (S754_zero s0).
Proof. exact I. Qed.

(** Rounding keeps the order of positive values. *)
Lemma of_pair_posfin_mono m1 e1 m2 e2 :
  0 < m1 -> 0 < m2 ->
  pval (round_pair m1 e1) <= pval (round_pair m2 e2) ->
  posfin (of_pair false (round_pair m2 e2)) ->
  posfin (of_pair false (round_pair m1 e1)) /\
  fval (of_pair false (round_pair m1 e1)) <= fval (of_pair false (round_pair m2 e2)).
Proof.
  intros Hm1 Hm2 Hle Hp2.
  destruct (here of_pair_round_cases false m1 e1 Hm1) as [[E1 P1] | [(a1 & c1 & E1 & B1 & P1) | [E1 P1]]];
    destruct (here of_pair_round_cases false m2 e2 Hm2) as [[E2 P2] | [(a2 & c2 & E2 & B2 & P2) | [E2 P2]]];
    cbv zeta in E1, E2.
  - rewrite E1, E2. split; [exact I | cbn [SpecRound.fval]; lia].
  - rewrite E1. split; [exact I |]. cbn [SpecRound.fval]. apply fval_nonneg.
  - rewrite E2 in Hp2. contradiction.
  - rewrite P1. rewrite E1. split; [exact B1 |]. rewrite E2. cbn [SpecRound.fval]. lia.
  - rewrite P1, P2. rewrite E1. split; [exact B1 | exact Hle].
  - rewrite E2 in Hp2. contradiction.
  - pose proof pow2_pos_format as Hpos. lia.
  - pose proof (here fval_bounded_lt false a2 c2 B2) as Hlt.
    rewrite <- E2 in Hlt. rewrite P2 in Hlt. lia.
  - rewrite E2 in Hp2. contradiction.
Qed.
Lemma rnd_posfin_mono v1 v2 :
  0 < v1 <= v2 -> posfin (rnd false v2) ->
  posfin (rnd false v1) /\ fval (rnd false v1) <= fval (rnd false v2).
Proof.
  intros Hv Hp. apply of_pair_posfin_mono; try lia; [| exact Hp].
  now apply (here pval_rnd_mono).
Qed.

(** The sum of two numbers that are not negative is the rounding of
    the sum of their values. *)
Lemma SFadd_posfin x y :
  posfin x -> posfin y ->
  (fval x + fval y = 0 /\ exists s0, SFadd prec emax x y = S754_zero s0) \/
  (0 < fval x + fval y /\ SFadd prec emax x y = rnd false (fval x + fval y)).
Proof.
  intros Hx Hy.
  destruct (posfin_cases x Hx) as [[s1 ->] | (m1 & e1 & -> & B1 & He1 & P1)];
    destruct (posfin_cases y Hy) as [[s2 ->] | (m2 & e2 & -> & B2 & He2 & P2)].
  - left. split; [reflexivity |]. destruct s1, s2; eexists; reflexivity.
  - right. split; [cbn [SpecRound.fval] in *; lia |].
    change (fval (S754_zero s1)) with 0. rewrite Z.add_0_l.
    rewrite (here rnd_bounded) by assumption. reflexivity.
  - right. split; [cbn [SpecRound.fval] in *; lia |].
    change (fval (S754_zero s2)) with 0. rewrite Z.add_0_r.
    rewrite (here rnd_bounded) by assumption. reflexivity.
  - right. split; [lia |].
    rewrite (here SFadd_finite) by assumption.
    rewrite !(here sval_false). apply (here round_signed_pos). lia.
Qed.

Lemma SFadd_posfin_mono x y x' y' :
  posfin x -> posfin y -> posfin x' -> posfin y' ->
  fval x <= fval x' -> fval y <= fval y' ->
  posfin (SFadd prec emax x' y') ->
  posfin (SFadd prec emax x y) /\
  fval (SFadd prec emax x y) <= fval (SFadd prec emax x' y').
Proof.
  intros Hx Hy Hx' Hy' Lx Ly Hp.
  destruct (SFadd_posfin x y Hx Hy) as [[_ [s0 E]] | [P E]].
  { rewrite E. split; [exact I | apply fval_nonneg]. }
  destruct (SFadd_posfin x' y' Hx' Hy') as [[Z' _] | [P' E']]; [lia |].
  rewrite E. rewrite E' in Hp |- *. apply rnd_posfin_mono; [lia | exact Hp].
Qed.

(** The product, likewise. *)
Lemma SFmul_posfin_mono x y x' y' :
  posfin x -> posfin y -> posfin x' -> posfin y' ->
  fval x <= fval x' -> fval y <= fval y' ->
  posfin (SFmul prec emax x' y') ->
  posfin (SFmul prec emax x y) /\
  fval (SFmul prec emax x y) <= fval (SFmul prec emax x' y').
Proof.
  intros Hx Hy Hx' Hy' Lx Ly Hp.
  destruct (posfin_cases x Hx) as [[s1 ->] | (m1 & e1 & -> & B1 & He1 & P1)].
  { destruct (posfin_cases y Hy) as [[s2 ->] | (m2 & e2 & -> & _)];
      (split; [exact I | apply fval_nonneg]). }
  destruct (posfin_cases y Hy) as [[s2 ->] | (m2 & e2 & -> & B2 & He2 & P2)].
  { split; [exact I | apply fval_nonneg]. }
  destruct (posfin_cases x' Hx') as [[s1' ->] | (m1' & e1' & -> & B1' & He1' & P1')].
  { change (fval (S754_zero s1')) with 0 in Lx. lia. }
  destruct (posfin_cases y' Hy') as [[s2' ->] | (m2' & e2' & -> & B2' & He2' & P2')].
  { change (fval (S754_zero s2')) with 0 in Ly. lia. }
  rewrite (here SFmul_finite) in Hp |- * by assumption.
  rewrite (here SFmul_finite) by assumption. cbn [xorb] in Hp |- *.
  apply of_pair_posfin_mono; try lia; [| exact Hp].
  apply (here round_pair_mono) with (e0 := emin + emin); try lia.
  replace (e1 + e2 - (emin + emin)) with ((e1 - emin) + (e2 - emin)) by lia.
  replace (e1' + e2' - (emin + emin)) with ((e1' - emin) + (e2' - emin)) by lia.
  rewrite !(here pow2_split) by lia.
  cbn [SpecRound.fval] in Lx, Ly, P1, P2.
  pose proof (pow2_pos (e1 - emin) ltac:(lia)).
  pose proof (pow2_pos (e2 - emin) ltac:(lia)).
  apply Z.le_trans with ((Zpos m1 * 2 ^ (e1 - emin)) * (Zpos m2 * 2 ^ (e2 - emin))); [nia |].
  apply Z.le_trans with ((Zpos m1' * 2 ^ (e1' - emin)) * (Zpos m2' * 2 ^ (e2' - emin))); [| nia].
  apply Z.mul_le_mono_nonneg; lia.
Qed.

(** A rounded value exceeds the value by less than one unit of the
    last place that is kept. *)
Lemma pval_round_ulp m e k :
  0 < m -> emin <= e -> 0 <= k -> fexp (Zdigits2 m + e) - e <= k ->
  pval (round_pair m e) <= (m + 2 ^ k) * 2 ^ (e - emin).
Proof.
  intros Hm He Hk HE.
  pose proof (pow2_pos (e - emin) ltac:(lia)) as Hp.
  pose proof (pow2_pos k Hk) as Hpk.
  destruct (Z.le_gt_cases (fexp (Zdigits2 m + e)) e) as [Hle | Hgt].
  - rewrite (here pval_round_exact) by assumption. nia.
  - rewrite (here pval_round_shift) by (try assumption; lia).
    set (n := fexp (Zdigits2 m + e) - e).
    replace (fexp (Zdigits2 m + e) - emin) with (n + (e - emin)) by (subst n; lia).
    rewrite (here pow2_split) by (subst n; lia).
    pose proof (rne_bounds m n ltac:(lia) ltac:(subst n; lia)) as [_ Hr].
    pose proof (pow2_pos n ltac:(subst n; lia)) as Hpn.
    pose proof (Z.mul_div_le m (2 ^ n) Hpn) as Hd.
    assert (Hnk : 2 ^ n <= 2 ^ k) by (apply Z.pow_le_mono_r; subst n; lia).
    assert (rne m n * 2 ^ n <= m + 2 ^ k) by nia.
    rewrite Z.mul_assoc. apply Z.mul_le_mono_nonneg_r; lia.
Qed.
(** ** Division *)

Lemma SFdiv_core_spec mx ex my ey :
  let '(q, e', l) := SFdiv_core_binary prec emax (Zpos mx) ex (Zpos my) ey in
  Z.min emin (ex - ey) <= e' <= ex - ey /\ 0 <= q /\
  Zpos my * q <= Zpos mx * 2 ^ (ex - ey - e') < Zpos my * (q + 1) /\
  e' <= fexp (Zdigits2 q + e').
Proof.
  unfold SFdiv_core_binary. cbn [Zdigits2].
  set (d1 := Zpos (digits2_pos mx)). set (d2 := Zpos (digits2_pos my)).
  set (e' := Z.min (fexp (d1 + ex - (d2 + ey))) (ex - ey)).
  set (m' := match ex - ey - e' with Z0 => _ | Zpos _ => _ | Zneg _ => _ end).
  assert (Hs : 0 <= ex - ey - e') by (subst e'; lia).
  assert (Em : m' = Zpos mx * 2 ^ (ex - ey - e')).
  { subst m'. destruct (ex - ey - e') as [| k | k]; [lia | | lia].
    now rewrite Z.shiftl_mul_pow2 by lia. }
  pose proof (Z_div_mod m' (Zpos my) ltac:(lia)) as Hdm.
  destruct (Z.div_eucl m' (Zpos my)) as [q r]. destruct Hdm as [Hdm Hr].
  pose proof (pow2_pos (ex - ey - e') Hs) as Hps.
  assert (Hq : 0 <= q) by nia.
  split; [pose proof (here fexp_ge_emin (d1 + ex - (d2 + ey))); subst e'; lia |].
  split; [exact Hq |]. split; [rewrite <- Em; nia |].
  pose proof (digits_bounds mx) as [Lx _]. pose proof (digits_bounds my) as [_ Uy].
  fold d1 in Lx. fold d2 in Uy.
  assert (Hd : d1 + (ex - ey - e') - d2 <= Zdigits2 q).
  { destruct (Z.eq_dec q 0) as [-> | Hq0].
    - cbn [Zdigits2].
      assert (Hlt : 2 ^ (d1 - 1 + (ex - ey - e')) < 2 ^ d2).
      { rewrite (here pow2_split) by (subst d1; lia). nia. }
      apply Z.pow_lt_mono_r_iff in Hlt; [lia | lia | subst d2; lia].
    - destruct (Z.le_gt_cases 0 (d1 + (ex - ey - e') - d2 - 1)) as [Hk | Hk].
      + assert (H2 : 2 ^ (d1 + (ex - ey - e') - d2 - 1) <= q).
        { assert (Hpk : 2 ^ (d1 + (ex - ey - e') - d2 - 1) * 2 ^ d2 =
                        2 ^ (d1 - 1) * 2 ^ (ex - ey - e')).
          { rewrite <- !(here pow2_split) by (subst d1 d2; lia). f_equal. lia. }
          pose proof (pow2_pos (d1 + (ex - ey - e') - d2 - 1) Hk). nia. }
        apply Zdigits2_ge in H2; lia.
      + pose proof (Zdigits2_pos q ltac:(lia)). lia. }
  apply Z.le_trans with (fexp (d1 + ex - (d2 + ey))); [subst e'; lia |].
  apply (here fexp_mono). lia.
Qed.

(** The quotient of two positive numbers of the format stays at or
    below every number of the format that is above the exact quotient. *)
Lemma SFdiv_below mx ex my ey mB eB :
  bounded mx ex = true -> bounded my ey = true -> bounded mB eB = true ->
  fval (S754_finite false mx ex) * 2 ^ (- emin) <
    fval (S754_finite false mB eB) * fval (S754_finite false my ey) ->
  match SFdiv prec emax (S754_finite false mx ex) (S754_finite false my ey) with
  | S754_zero _ => True
  | S754_finite false m e =>
      emin <= e /\ fval (S754_finite false m e) <= fval (S754_finite false mB eB)
  | _ => False
  end.
Proof.
  intros Bx By BB Hlt.
  pose proof (here bounded_inv mx ex Bx) as (_ & _ & Hex & _).
  pose proof (here bounded_inv my ey By) as (_ & _ & Hey & _).
  pose proof (here bounded_inv mB eB BB) as (CB & HeB' & HeB & HmB).
  pose proof (here emin_lt) as Hemin.
  assert (Hemin0 : emin <= 0) by (unfold SpecFloat.emin in *; lia).
  cbn [SFdiv xorb].
  pose proof (SFdiv_core_spec mx ex my ey) as Hcore.
  destruct (SFdiv_core_binary prec emax (Zpos mx) ex (Zpos my) ey) as [[q e'] l].
  destruct Hcore as ([He'l He'] & Hq & [Hq1 Hq2] & HF).
  destruct (here binary_round_aux_loc false q e' l Hq HF) as (m1 & [Hm1l Hm1u] & Hm1p & _ & Eres).
  cbv zeta in Eres, Hm1l, Hm1u. rewrite Eres. clear Eres.
  set (E := fexp (Zdigits2 q + e')) in *.
  assert (HE : emin <= E) by apply (here fexp_ge_emin).
  (* the quotient, scaled, is below the bound *)
  set (g := ey + e' - (emin + emin)).
  set (h := eB + ey - (emin + emin)).
  assert (Hg : 0 <= g) by (subst g; lia).
  assert (Hg' : 0 <= ex - ey - e' + g) by (subst g; lia).
  assert (Hh : 0 <= h) by (subst h; lia).
  assert (I1 : q * 2 ^ g < Zpos mB * 2 ^ h).
  { cbn [SpecRound.fval] in Hlt.
    assert (EL : 2 ^ (ex - emin) * 2 ^ (- emin) = 2 ^ (ex - ey - e') * 2 ^ g).
    { rewrite <- !(here pow2_split) by lia. f_equal. subst g. lia. }
    assert (ER : 2 ^ (eB - emin) * 2 ^ (ey - emin) = 2 ^ h).
    { rewrite <- (here pow2_split) by lia. f_equal. subst h. lia. }
    pose proof (pow2_pos g Hg) as Hpg.
    apply (Z.mul_lt_mono_pos_l (Zpos my)); [lia |].
    apply Z.le_lt_trans with (Zpos mx * 2 ^ (ex - ey - e') * 2 ^ g); [nia |].
    rewrite <- Z.mul_assoc, <- EL. rewrite Z.mul_assoc.
    replace (Zpos my * (Zpos mB * 2 ^ h)) with
      (Zpos mB * 2 ^ (eB - emin) * (Zpos my * 2 ^ (ey - emin))); [exact Hlt |].
    rewrite <- ER. ring. }
  assert (HEB : E <= eB).
  { destruct (Z.eq_dec q 0) as [-> | Hq0].
    - subst E. cbn [Zdigits2] in *. unfold SpecFloat.fexp in *. lia.
    - pose proof (Zdigits2_bounds q ltac:(lia)) as [Lq _].
      pose proof (digits_bounds mB) as [_ UB].
      pose proof (pow2_pos g Hg) as Hpg. pose proof (pow2_pos h Hh) as Hph.
      pose proof (Zdigits2_pos q ltac:(lia)) as Hdq.
      assert (Hlt2 : 2 ^ (Zdigits2 q - 1 + g) < 2 ^ (Zpos (digits2_pos mB) + h)).
      { rewrite !(here pow2_split) by lia. nia. }
      apply Z.pow_lt_mono_r_iff in Hlt2; [| lia | lia].
      rewrite <- CB. apply (here fexp_mono). subst g h. lia. }
  assert (Ht : 0 <= E - e') by lia.
  assert (I2 : q / 2 ^ (E - e') < Zpos mB * 2 ^ (eB - E)).
  { pose proof (pow2_pos (E - e') Ht) as Hpt. pose proof (pow2_pos g Hg) as Hpg.
    apply Z.div_lt_upper_bound; [exact Hpt |].
    apply (Z.mul_lt_mono_pos_r (2 ^ g)); [exact Hpg |].
    replace (2 ^ (E - e') * (Zpos mB * 2 ^ (eB - E)) * 2 ^ g) with (Zpos mB * 2 ^ h); [exact I1 |].
    replace h with ((E - e') + (eB - E) + g) by (subst g h; lia).
    rewrite !(here pow2_split) by lia. ring. }
  assert (Hm1B : m1 <= Zpos mB * 2 ^ (eB - E)) by lia.
  assert (Hval : m1 * 2 ^ (E - emin) <= Zpos mB * 2 ^ (eB - emin)).
  { replace (eB - emin) with ((eB - E) + (E - emin)) by lia.
    rewrite (here pow2_split) by lia. rewrite Z.mul_assoc.
    apply Z.mul_le_mono_nonneg_r; [| exact Hm1B].
    apply Z.lt_le_incl, pow2_pos. lia. }
  assert (Hm1n : 0 <= m1).
  { pose proof (Z.div_pos q (2 ^ (E - e')) Hq (pow2_pos _ Ht)). lia. }
  destruct (Z.eqb_spec m1 0) as [_ | Hm0]; [exact I |].
  destruct (Z.eqb_spec m1 (2 ^ prec)) as [Hm2 | Hm2].
  - assert (HE1 : E + 1 <= eB).
    { destruct (Z.eq_dec eB E) as [Heq | Hne]; [| lia].
      rewrite Heq, Z.sub_diag in Hm1B. cbn in Hm1B. lia. }
    unfold SpecRound.overflow_to.
    destruct (Z.leb_spec (E + 1) (emax - prec)); [| lia].
    split; [lia |]. cbn [SpecRound.fval].
    rewrite Z2Pos.id by (apply pow2_pos; lia).
    replace (E + 1 - emin) with (1 + (E - emin)) by lia.
    rewrite (here pow2_split) by lia. rewrite Z.mul_assoc.
    replace (2 ^ (prec - 1) * 2 ^ 1) with (2 ^ prec); [rewrite <- Hm2; exact Hval |].
    rewrite <- (here pow2_split) by lia. f_equal. lia.
  - unfold SpecRound.overflow_to.
    destruct (Z.leb_spec E (emax - prec)); [| lia].
    split; [exact HE |]. cbn [SpecRound.fval].
    rewrite Z2Pos.id by lia. exact Hval.
Qed.
End Monotone.
(** * The repetition driver *)

Section Driver.
Variable expf : spec_float -> spec_float.

Lemma filterRow_params fuel imagein p q y n x imageout :
  s p = s q -> b p = b q ->
  filterRow expf fuel imagein p y n x imageout =
  filterRow expf fuel imagein q y n x imageout.
Proof.
  intros Hs Hb. revert x imageout.
  induction n as [| n IH]; intros x imageout; cbn [filterRow]; [reflexivity |].
  rewrite Hs, Hb.
  destruct (bilateralFilterPixel expf fuel imagein x y (s q) (b q)) as [[[p0 p1] p2] | f];
    cbn [bind]; [| reflexivity].
  destruct (setPixel imageout x y p0 p1 p2); cbn [bind]; [apply IH | reflexivity].
Qed.

Lemma filterRows_params fuel imagein p q n y imageout :
  s p = s q -> b p = b q ->
  filterRows expf fuel imagein p n y imageout =
  filterRows expf fuel imagein q n y imageout.
Proof.
  intros Hs Hb. revert y imageout.
  induction n as [| n IH]; intros y imageout; cbn [filterRows]; [reflexivity |].
  rewrite (filterRow_params fuel imagein p q) by assumption.
  destruct (filterRow expf fuel imagein q y _ 0 imageout); cbn [bind];
    [apply IH | reflexivity].
Qed.

Lemma repLoop_params fuel p q n rep st :
  s p = s q -> b p = b q -> reps p = reps q ->
  repLoop expf fuel p n rep st = repLoop expf fuel q n rep st.
Proof.
  intros Hs Hb Hr. revert rep st.
  induction n as [| n IH]; intros rep st; cbn [repLoop]; [reflexivity |].
  unfold filterPass. rewrite (filterRows_params fuel (st_in st) p q) by assumption.
  rewrite Hr.
  destruct (filterRows expf fuel (st_in st) q _ 0 (st_out st)); cbn [bind];
    [apply IH | reflexivity].
Qed.

(** C8: the result of [filterImage] does not depend on [nthreads]. *)
Theorem filterImage_nthreads_irrelevant fuel st p n1 n2 :
  filterImage expf fuel st (set_nthreads n1 p) =
  filterImage expf fuel st (set_nthreads n2 p).
Proof.
  unfold filterImage. cbn [reps set_nthreads].
  apply repLoop_params; reflexivity.
Qed.

(** C10: with [reps <= 0] the loop body never runs; the input canvas,
    the output canvas and the files are returned as they were. *)
Theorem filterImage_no_reps fuel st p :
  reps p <= 0 -> filterImage expf fuel st p = Ok st.
Proof.
  intros H. unfold filterImage.
  replace (Z.to_nat (reps p)) with O by lia. reflexivity.
Qed.

(** C9: with [reps = 1] the run is one pass over the output canvas; the
    input canvas and the files of the final state are those of the
    initial state. *)
Theorem filterImage_one_rep_frame fuel st p :
  reps p = 1 ->
  filterImage expf fuel st p =
    (imageout' <- filterPass expf fuel (st_in st) p (st_out st) ;;
     Ok {| st_in := st_in st; st_out := imageout'; st_files := st_files st |})
  /\ forall st', filterImage expf fuel st p = Ok st' ->
       st_in st' = st_in st /\ st_files st' = st_files st.
Proof.
  intros H.
  assert (E : filterImage expf fuel st p =
    (imageout' <- filterPass expf fuel (st_in st) p (st_out st) ;;
     Ok {| st_in := st_in st; st_out := imageout'; st_files := st_files st |})).
  { unfold filterImage. rewrite H. change (Z.to_nat 1) with 1%nat.
    cbn [repLoop]. rewrite H.
    destruct (filterPass expf fuel (st_in st) p (st_out st)); reflexivity. }
  split; [exact E |].
  intros st'. rewrite E.
  destruct (filterPass expf fuel (st_in st) p (st_out st)); cbn [bind]; [| discriminate].
  intros [= <-]. split; reflexivity.
Qed.

Lemma copyBack_data imagein imageout x y k :
  in_bounds imagein x y = true -> 0 <= k < 3 ->
  data (copyBack imagein imageout) y x k = data imageout y x k.
Proof.
  intros Hb Hk. cbn [copyBack data]. rewrite Hb.
  destruct (Z.leb_spec 0 k); [| lia]. destruct (Z.ltb_spec k 3); [| lia].
  reflexivity.
Qed.

(** C3: with [reps = 2] the first pass is written to ["rep0.png"] and
    copied into the input canvas, and the second pass filters that
    canvas, whose samples are those of the first output. *)
Theorem filterImage_two_reps_chain fuel st p :
  reps p = 2 ->
  filterImage expf fuel st p =
    (out1 <- filterPass expf fuel (st_in st) p (st_out st) ;;
     out2 <- filterPass expf fuel (copyBack (st_in st) out1) p out1 ;;
     Ok {| st_in := copyBack (st_in st) out1;
           st_out := out2;
           st_files := write out1 "rep0.png" (st_files st) |})
  /\ forall out1 x y k,
       in_bounds (st_in st) x y = true -> 0 <= k < 3 ->
       data (copyBack (st_in st) out1) y x k = data out1 y x k.
Proof.
  intros H. split; [| intros; now apply copyBack_data].
  unfold filterImage. rewrite H. change (Z.to_nat 2) with 2%nat.
  cbn [repLoop]. rewrite H.
  destruct (filterPass expf fuel (st_in st) p (st_out st)) as [out1 | f];
    cbn [bind]; [| reflexivity].
  change (0 <? Int.sub 2 1) with true. change (0 + 1 <? Int.sub 2 1) with false.
  cbn [st_in st_out st_files].
  destruct (filterPass expf fuel (copyBack (st_in st) out1) p out1); reflexivity.
Qed.
End Driver.

(** * binary32 and binary64 *)

Lemma prec32_pos : 0 < F32.prec.
Proof. reflexivity. Qed.

Lemma prec32_emax : F32.prec < F32.emax.
Proof. reflexivity. Qed.

Lemma prec64_pos : 0 < F64.prec.
Proof. reflexivity. Qed.

Lemma prec64_emax : F64.prec < F64.emax.
Proof. reflexivity. Qed.

Lemma emin32 : emin F32.prec F32.emax = -149.
Proof. reflexivity. Qed.

Lemma emin64 : emin F64.prec F64.emax = -1074.
Proof. reflexivity. Qed.

Lemma wrap_small z : Int.min_signed <= z <= Int.max_signed -> Int.wrap z = z.
Proof.
  unfold Int.wrap, Int.min_signed, Int.max_signed. intros H.
  rewrite Z.mod_small by lia. lia.
Qed.

Lemma scale149_pos i : 0 < i -> 0 < i * 2 ^ 149.
Proof. intros. pose proof (pow2_pos 149 ltac:(lia)). nia. Qed.

Section Binary32.
Local Notation "'in32' L" := (L F32.prec F32.emax prec32_pos prec32_emax)
  (at level 10, L at level 9, only parsing).
Local Abbreviation nonneg32 := (nonneg F32.prec F32.emax).
Local Abbreviation posfin32 := (posfin F32.prec F32.emax).
Local Abbreviation fval32 := (fval F32.prec F32.emax).
Local Abbreviation bounded32 := (bounded F32.prec F32.emax).

(** ** Integers in binary32 *)

Lemma of_int_signed i :
  F32.of_int i = round_signed F32.prec F32.emax (i * 2 ^ 149).
Proof.
  unfold F32.of_int.
  rewrite (in32 binary_normalize_signed) by (rewrite emin32; lia).
  rewrite emin32. reflexivity.
Qed.

Lemma of_int_nonneg i : 0 <= i -> nonneg32 (F32.of_int i).
Proof.
  intros Hi. rewrite of_int_signed.
  destruct (Z.eq_dec i 0) as [-> | Hn]; [exact I |].
  rewrite (in32 round_signed_pos) by (apply scale149_pos; lia).
  apply (in32 of_pair_nonneg). lia.
Qed.

(** An integer up to [2^24] is a binary32 number. *)
Lemma of_int_exact i :
  0 < i <= 2 ^ 24 ->
  exists m e, F32.of_int i = S754_finite false m e /\ bounded32 m e = true /\
              fval32 (F32.of_int i) = i * 2 ^ 149.
Proof.
  intros Hi.
  destruct (Z.eq_dec i (2 ^ 24)) as [-> | Hn].
  { exists 8388608%positive, 1. repeat split. }
  rewrite of_int_signed, (in32 round_signed_pos) by (apply scale149_pos; lia).
  assert (Hp : pval F32.prec F32.emax (round_pair F32.prec F32.emax (i * 2 ^ 149) (-149))
               = i * 2 ^ 149).
  { change (-149) with (0 - 149) at 1.
    rewrite (in32 round_pair_scale) by lia.
    rewrite (in32 pval_round_exact); [reflexivity | lia |].
    assert (Zdigits2 i <= 24) by (apply Zdigits2_le; lia).
    unfold fexp, emin, F32.prec, F32.emax. lia. }
  destruct (in32 rnd_cases false (i * 2 ^ 149) (scale149_pos i ltac:(lia)))
    as [[E Hz] | [(m & e & E & Hb & Hv) | [E Hinf]]]; rewrite emin32 in *.
  - lia.
  - exists m, e. unfold rnd in *. rewrite emin32 in *. rewrite E in *.
    split; [reflexivity |]. split; [assumption |]. lia.
  - rewrite Hp in Hinf. change (2 ^ (F32.emax - -149)) with (2 ^ 128 * 2 ^ 149) in Hinf.
    assert (i < 2 ^ 128) by (apply Z.lt_le_trans with (2 ^ 24); [lia | apply Z.pow_le_mono_r; lia]).
    lia.
Qed.

Lemma of_int_posfin i : 0 <= i <= 2 ^ 24 -> posfin32 (F32.of_int i).
Proof.
  intros Hi. destruct (Z.eq_dec i 0) as [-> | Hn]; [exact I |].
  destruct (of_int_exact i ltac:(lia)) as (m & e & E & Hb & _). rewrite E. exact Hb.
Qed.

Lemma of_int_fval i : 0 <= i <= 2 ^ 24 -> fval32 (F32.of_int i) = i * 2 ^ 149.
Proof.
  intros Hi. destruct (Z.eq_dec i 0) as [-> | Hn]; [reflexivity |].
  destruct (of_int_exact i ltac:(lia)) as (m & e & _ & _ & Hv). exact Hv.
Qed.

Lemma of_int_leb i j :
  0 <= i <= 2 ^ 24 -> 0 <= j <= 2 ^ 24 ->
  F32.leb (F32.of_int i) (F32.of_int j) = (i <=? j).
Proof.
  intros Hi Hj. unfold F32.leb.
  rewrite (in32 SFleb_posfin) by now apply of_int_posfin.
  rewrite !of_int_fval by assumption.
  destruct (Z.leb_spec (i * 2 ^ 149) (j * 2 ^ 149)), (Z.leb_spec i j); try reflexivity; lia.
Qed.

Lemma of_int_succ i :
  0 <= i < 2 ^ 24 -> F32.add (F32.of_int i) F32.one = F32.of_int (i + 1).
Proof.
  intros Hi. destruct (Z.eq_dec i 0) as [-> | Hn]; [reflexivity |].
  destruct (of_int_exact i ltac:(lia)) as (m & e & E & Hb & Hv).
  rewrite (of_int_signed (i + 1)). rewrite E in *. unfold F32.add, F32.one.
  pose proof (in32 bounded_inv m e Hb) as (_ & _ & He & _).
  rewrite (in32 SFadd_finite) by (rewrite ?emin32 in *; lia).
  f_equal. rewrite (in32 sval_false), Hv. cbn. lia.
Qed.

Lemma of_int_to_int i : 0 <= i < 2 ^ 24 -> F32.to_int (F32.of_int i) = Ok i.
Proof.
  intros Hi. destruct (Z.eq_dec i 0) as [-> | Hn]; [reflexivity |].
  destruct (of_int_exact i ltac:(lia)) as (m & e & E & Hb & Hv).
  unfold F32.to_int. rewrite E in *.
  pose proof (in32 bounded_inv m e Hb) as (_ & _ & He & _).
  rewrite (in32 Ztrunc_finite) by assumption.
  rewrite Hv, emin32. cbn [cond_Zopp]. change (- -149) with 149.
  rewrite Z.div_mul by (apply Z.pow_nonzero; lia).
  unfold Int.in_range, Int.min_signed, Int.max_signed.
  destruct (Z.leb_spec (- 2 ^ 31) i); [| lia].
  destruct (Z.leb_spec i (2 ^ 31 - 1)); [reflexivity | lia].
Qed.
End Binary32.
(** * The weight of one window pixel *)

Section Kernel.
Local Notation "'in32' L" := (L F32.prec F32.emax prec32_pos prec32_emax)
  (at level 10, L at level 9, only parsing).
Local Notation "'in64' L" := (L F64.prec F64.emax prec64_pos prec64_emax)
  (at level 10, L at level 9, only parsing).
Local Abbreviation nonneg32 := (nonneg F32.prec F32.emax).
Local Abbreviation nonpos32 := (nonpos F32.prec F32.emax).
Local Abbreviation posfin32 := (posfin F32.prec F32.emax).
Local Abbreviation number32 := (number F32.prec F32.emax).
Local Abbreviation finitef32 := (finitef F32.prec F32.emax).
Local Abbreviation mag32 := (mag_le F32.prec F32.emax).
Local Abbreviation fval32 := (fval F32.prec F32.emax).
Local Abbreviation bounded32 := (bounded F32.prec F32.emax).
Local Abbreviation nonneg64 := (nonneg F64.prec F64.emax).
Local Abbreviation number64 := (number F64.prec F64.emax).
Local Abbreviation finitef64 := (finitef F64.prec F64.emax).
Local Abbreviation mag64 := (mag_le F64.prec F64.emax).
Local Abbreviation least64 := (at_least F64.prec F64.emax).

(** ** The samples *)

Lemma sample01_ok v : sample_okb (sample01 v) = true.
Proof. destruct v; vm_compute; reflexivity. Qed.

Lemma sample_okb_inv x :
  sample_okb x = true -> posfin32 x /\ mag32 0 x /\ fval32 x <= 2 ^ 149.
Proof.
  destruct x as [[] | | | [] m e]; cbn [sample_okb]; try discriminate; intros H.
  - repeat split. cbn. lia.
  - apply andb_true_iff in H as [Hb Hv]. apply Z.leb_le in Hv.
    cbn [posfin mag_le fval]. rewrite emin32.
    replace (e - -149) with (e + 149) by lia. change (0 - -149) with 149.
    repeat split; assumption.
Qed.

Lemma sample01_posfin v : posfin32 (sample01 v).
Proof. apply sample_okb_inv, sample01_ok. Qed.

Lemma sample01_mag v : mag32 0 (sample01 v).
Proof. apply sample_okb_inv, sample01_ok. Qed.

Lemma posfin_finitef x : posfin32 x -> finitef32 x.
Proof. destruct x as [| | | [] m e]; cbn; tauto. Qed.

Lemma posfin_nonneg x : posfin32 x -> nonneg32 x.
Proof. destruct x as [| | | [] m e]; cbn; tauto. Qed.

(** With weight [1] and weight sum [1] a sample is reproduced. *)
Lemma sample01_weight_one v :
  F32.add F32.zero (F32.mul F32.one (sample01 v)) = sample01 v.
Proof. destruct v; vm_compute; reflexivity. Qed.

Lemma sample01_quantize v :
  F32.to_uint8 (quotient F32.one (sample01 v)) = Ok v.
Proof. destruct v; vm_compute; reflexivity. Qed.

(** ** The denominator [2.0 * s * s] *)

Lemma of_float_mag K x :
  -149 <= K -> K < 1024 -> mag32 K x -> mag64 K (F64.of_float x).
Proof.
  intros HK HK'. destruct x as [sx | | | sx m e]; cbn [mag_le]; try tauto.
  intros [Hb Hv]. unfold F64.of_float.
  pose proof (in32 bounded_inv m e Hb) as (_ & _ & He & _). rewrite emin32 in *.
  apply (in64 reround_mag sx m e K (-149)); try (rewrite ?emin64; unfold F64.emax; lia).
  exact Hv.
Qed.

Lemma sigma_den m e :
  bounded32 m e = true ->
  exists md ed,
    F64.mul (F64.mul (F64.of_int 2) (F64.of_float (S754_finite false m e)))
            (F64.of_float (S754_finite false m e)) = S754_finite false md ed.
Proof.
  intros Hb.
  pose proof (in32 bounded_inv m e Hb) as (_ & _ & He & _). rewrite emin32 in *.
  pose proof (in32 fval_bounded_lt false m e Hb) as Hu. cbn [fval] in Hu.
  rewrite emin32 in Hu. change (F32.emax - -149) with (128 + 149) in Hu.
  pose proof (pow2_pos (e - -149) ltac:(lia)) as Hp.
  set (S := F64.of_float (S754_finite false m e)).
  assert (HS1 : least64 (-149) S).
  { apply (in64 reround_at_least m e (-149) (-149)); try (rewrite ?emin64; unfold F64.prec; lia).
    all: try (rewrite Z.sub_diag, Z.pow_0_r; nia). }
  assert (HS2 : mag64 128 S).
  { apply (in64 reround_mag false m e 128 (-149)); try (rewrite ?emin64; unfold F64.emax; lia).
    all: try (change (128 - -149) with (128 + 149); lia). }
  assert (H21 : least64 1 (F64.of_int 2)).
  { split; [reflexivity |]. apply Z.leb_le. vm_compute. reflexivity. }
  assert (H22 : mag64 1 (F64.of_int 2)).
  { split; [reflexivity |]. apply Z.leb_le. vm_compute. reflexivity. }
  assert (HT1 : least64 (1 + -149) (F64.mul (F64.of_int 2) S)).
  { apply (in64 SFmul_at_least); try assumption; rewrite ?emin64; unfold F64.prec; lia. }
  assert (HT2 : mag64 (1 + 128) (F64.mul (F64.of_int 2) S)).
  { apply (in64 SFmul_mag); try assumption; rewrite ?emin64; unfold F64.emax; lia. }
  assert (HD1 : least64 (1 + -149 + -149) (F64.mul (F64.mul (F64.of_int 2) S) S)).
  { apply (in64 SFmul_at_least); try assumption; rewrite ?emin64; unfold F64.prec; lia. }
  assert (HD2 : mag64 (1 + 128 + 128) (F64.mul (F64.mul (F64.of_int 2) S) S)).
  { apply (in64 SFmul_mag); try assumption; rewrite ?emin64; unfold F64.emax; lia. }
  destruct (in64 at_least_mag_finite _ _ _ HD1 HD2) as (md & ed & E & _).
  exists md, ed. exact E.
Qed.

Lemma ltb_zero_posfin x :
  posfin32 x -> F32.ltb (F32.of_int 0) x = true ->
  exists m e, x = S754_finite false m e /\ bounded32 m e = true.
Proof.
  destruct x as [sx | | | [] m e]; cbn [posfin]; try tauto; intros Hb H.
  - discriminate.
  - exists m, e. split; [reflexivity | assumption].
Qed.

(** ** The spatial term *)

Lemma square_no_wrap j y :
  -46340 <= j - y <= 46340 ->
  Int.mul (Int.sub j y) (Int.sub j y) = (j - y) * (j - y) /\ 0 <= (j - y) * (j - y).
Proof.
  intros H. unfold Int.mul, Int.sub.
  rewrite (wrap_small (j - y)) by (unfold Int.min_signed, Int.max_signed; lia).
  rewrite wrap_small by (unfold Int.min_signed, Int.max_signed; nia).
  split; [reflexivity | apply Z.square_nonneg].
Qed.

Lemma spatialTerm_nonneg x y s i j :
  posfin32 s -> 0 <= i <= 2 ^ 24 -> 0 <= x <= 2 ^ 24 -> -46340 <= j - y <= 46340 ->
  nonneg32 (spatialTerm x y s (F32.of_int i) j).
Proof.
  intros Hs Hi Hx Hj. unfold spatialTerm.
  destruct (F32.ltb (F32.of_int 0) s) eqn:Hlt; [| exact I].
  destruct (ltb_zero_posfin s Hs Hlt) as (m & e & -> & Hb).
  destruct (sigma_den m e Hb) as (md & ed & Ed). rewrite Ed.
  unfold F32.of_double. apply (in32 reround_nonneg).
  unfold F64.div. apply (in64 SFdiv_plus_sign).
  apply (in64 nonneg_plus_sign). unfold F64.of_float. apply (in64 reround_nonneg).
  apply (in32 nonneg_plus_sign). unfold F32.add. apply (in32 SFadd_nonneg).
  - unfold F32.mul. apply (in32 SFmul_self_nonneg).
    unfold F32.sub. apply (in32 SFsub_finitef_number); apply posfin_finitef, of_int_posfin; lia.
  - destruct (square_no_wrap j y Hj) as [-> Hk]. now apply of_int_nonneg.
Qed.

Lemma spatialTerm_target x y s :
  posfin32 s -> 0 <= x <= 2 ^ 24 -> spatialTerm x y s (F32.of_int x) y = F32.zero.
Proof.
  intros Hs Hx. unfold spatialTerm.
  destruct (F32.ltb (F32.of_int 0) s) eqn:Hlt; [| reflexivity].
  destruct (ltb_zero_posfin s Hs Hlt) as (m & e & -> & Hb).
  destruct (sigma_den m e Hb) as (md & ed & Ed). rewrite Ed.
  unfold F32.sub. rewrite (in32 SFsub_diag) by (apply posfin_finitef, of_int_posfin; lia).
  unfold Int.sub. rewrite Z.sub_diag. reflexivity.
Qed.

(** ** The brightness term *)

Lemma constant_mag n :
  n = 2125 \/ n = 7154 \/ n = 721 -> mag64 0 (F64.decimal4 n).
Proof.
  intros [-> | [-> | ->]]; (split; [reflexivity | apply Z.leb_le; vm_compute; reflexivity]).
Qed.

Lemma intensity_term n d :
  n = 2125 \/ n = 7154 \/ n = 721 -> mag32 1 d ->
  finitef64 (F64.mul (F64.decimal4 n) (F64.of_float d)).
Proof.
  intros Hn Hd.
  apply (in64 mag_le_finitef (0 + 1)).
  apply (in64 SFmul_mag); try (rewrite ?emin64; unfold F64.emax; lia).
  - now apply constant_mag.
  - apply of_float_mag; [lia | lia | assumption].
Qed.

Lemma of_double_mag K x :
  -149 <= K -> K < 128 -> mag64 K x -> mag32 K (F32.of_double x).
Proof.
  intros HK HK'. destruct x as [sx | | | sx m e]; cbn [mag_le]; try tauto.
  intros [Hb Hv]. unfold F32.of_double.
  pose proof (in64 bounded_inv m e Hb) as (_ & _ & He & _). rewrite emin64 in *.
  apply (in32 reround_mag sx m e K (-1074)); try (rewrite ?emin32; unfold F32.emax; lia).
  exact Hv.
Qed.

Lemma getIntensity_mag d0 d1 d2 :
  mag32 1 d0 -> mag32 1 d1 -> mag32 1 d2 -> mag32 3 (getIntensity (d0, d1, d2)).
Proof.
  intros H0 H1 H2. unfold getIntensity.
  assert (Ht : forall n d, n = 2125 \/ n = 7154 \/ n = 721 -> mag32 1 d ->
                 mag64 1 (F64.mul (F64.decimal4 n) (F64.of_float d))).
  { intros n d Hn Hd. change 1 with (0 + 1) at 1.
    apply (in64 SFmul_mag); try (rewrite ?emin64; unfold F64.emax; lia).
    - now apply constant_mag.
    - apply of_float_mag; [lia | lia | assumption]. }
  apply of_double_mag; [lia | lia |].
  change 3 with (2 + 1). unfold F64.add.
  apply (in64 SFadd_mag); try (rewrite ?emin64; unfold F64.emax; lia).
  - change 2 with (1 + 1).
    apply (in64 SFadd_mag); try (rewrite ?emin64; unfold F64.emax; lia); apply Ht; auto.
  - apply (in64 mag_le_weaken 1); try (rewrite ?emin64; lia). apply Ht; auto.
Qed.

Lemma sample_diff_mag u v : mag32 1 (F32.sub (sample01 u) (sample01 v)).
Proof.
  change 1 with (0 + 1). unfold F32.sub.
  apply (in32 SFsub_mag); try apply sample01_mag; rewrite ?emin32; unfold F32.emax; lia.
Qed.

(** The numerator of the brightness term is a finite number that is
    not negative. *)
Lemma brightness_numerator u0 u1 u2 v0 v1 v2 :
  let diffI := getIntensity (rgb_map2 F32.sub (sample01 u0, sample01 u1, sample01 u2)
                                              (sample01 v0, sample01 v1, sample01 v2)) in
  nonneg64 (F64.of_float (F32.mul diffI diffI)) /\
  finitef64 (F64.of_float (F32.mul diffI diffI)).
Proof.
  intros diffI.
  assert (Hd : mag32 3 diffI).
  { subst diffI. cbn [rgb_map2]. apply getIntensity_mag; apply sample_diff_mag. }
  split.
  - unfold F64.of_float. apply (in64 reround_nonneg), (in32 nonneg_plus_sign).
    unfold F32.mul. apply (in32 SFmul_self_nonneg), (in32 finitef_number).
    apply (in32 mag_le_finitef 3). exact Hd.
  - apply (in64 mag_le_finitef (3 + 3)). apply of_float_mag; [lia | lia |].
    unfold F32.mul. apply (in32 SFmul_mag); try assumption; rewrite ?emin32; unfold F32.emax; lia.
Qed.

Lemma sigma_cases b :
  nonneg32 b -> F32.ltb (F32.of_int 0) b = true ->
  b = S754_infinity false \/ exists m e, b = S754_finite false m e /\ bounded32 m e = true.
Proof.
  intros Hb Hlt. destruct b as [sb | sb | | sb m e].
  - discriminate Hlt.
  - destruct sb; [contradiction | left; reflexivity].
  - contradiction.
  - destruct sb; [contradiction |]. right. exists m, e. split; [reflexivity | exact Hb].
Qed.

Lemma sigma_den_inf :
  F64.mul (F64.mul (F64.of_int 2) (F64.of_float (S754_infinity false)))
          (F64.of_float (S754_infinity false)) = S754_infinity false.
Proof. vm_compute. reflexivity. Qed.

Lemma brightnessTerm_nonneg b u0 u1 u2 v0 v1 v2 :
  nonneg32 b ->
  nonneg32 (brightnessTerm b (sample01 u0, sample01 u1, sample01 u2)
                             (sample01 v0, sample01 v1, sample01 v2)).
Proof.
  intros Hb. unfold brightnessTerm.
  destruct (F32.ltb (F32.of_int 0) b) eqn:Hlt; [| exact I].
  pose proof (brightness_numerator u0 u1 u2 v0 v1 v2) as [Hn Hf]. cbv zeta in Hn, Hf.
  set (N := F64.of_float _) in Hn, Hf |- *.
  unfold F32.of_double. apply (in32 reround_nonneg).
  destruct (sigma_cases b Hb Hlt) as [-> | (m & e & -> & Hbd)].
  - (* an infinite sigma: the quotient is a zero *)
    rewrite sigma_den_inf.
    unfold F64.div. rewrite (in64 SFdiv_finite_inf) by exact Hf. exact I.
  - destruct (sigma_den m e Hbd) as (md & ed & Ed). rewrite Ed.
    unfold F64.div. apply (in64 SFdiv_plus_sign). apply (in64 nonneg_plus_sign). exact Hn.
Qed.

Lemma brightnessTerm_same b u0 u1 u2 :
  nonneg32 b ->
  brightnessTerm b (sample01 u0, sample01 u1, sample01 u2)
                   (sample01 u0, sample01 u1, sample01 u2) = F32.zero.
Proof.
  intros Hb. unfold brightnessTerm.
  destruct (F32.ltb (F32.of_int 0) b) eqn:Hlt; [| reflexivity].
  cbn [rgb_map2]. unfold F32.sub.
  rewrite !(in32 SFsub_diag) by apply posfin_finitef, sample01_posfin.
  destruct (sigma_cases b Hb Hlt) as [-> | (m & e & -> & Hbd)].
  - rewrite sigma_den_inf. vm_compute. reflexivity.
  - destruct (sigma_den m e Hbd) as (md & ed & Ed). rewrite Ed. vm_compute. reflexivity.
Qed.

(** ** The weight *)

Section Weight.
Variable expf : spec_float -> spec_float.
Hypothesis expf_positive : exp_positive expf.

Lemma weight_nonneg d1 d2 :
  nonneg32 d1 -> nonneg32 d2 -> nonneg32 (weight expf d1 d2).
Proof.
  intros H1 H2. unfold weight.
  assert (Ha : nonpos32 (F32.sub (F32.opp d1) d2)).
  { unfold F32.sub, F32.opp. apply (in32 SFsub_nonpos_nonneg); [| assumption].
    now apply (in32 SFopp_nonneg). }
  apply (in32 nonpos_number) in Ha. apply (in32 number_valid) in Ha as [Hv Hn].
  destruct (exp_number expf expf_positive _ Hv Hn) as [Hv' Hl].
  now apply (in32 valid_leb_zero_nonneg).
Qed.

Lemma weight_zero : weight expf F32.zero F32.zero = F32.one.
Proof. unfold weight. cbn. apply (exp_zero expf expf_positive). Qed.
End Weight.
End Kernel.
(** * The window loops *)

Section Window.
Local Notation "'in32' L" := (L F32.prec F32.emax prec32_pos prec32_emax)
  (at level 10, L at level 9, only parsing).
Local Abbreviation nonneg32 := (nonneg F32.prec F32.emax).
Local Abbreviation posfin32 := (posfin F32.prec F32.emax).
Local Abbreviation least32 := (at_least F32.prec F32.emax).
Local Abbreviation fval32 := (fval F32.prec F32.emax).

(** ** The half-width and the clipped window *)

Lemma sigma_support s support :
  valid_binary F32.prec F32.emax s = true -> F32.leb F32.zero s = true ->
  F32.to_int (F32.mul s (F32.of_int 3)) = Ok support ->
  posfin32 s /\ 0 <= support <= Int.max_signed.
Proof.
  intros Hv Hl Ht.
  pose proof (in32 valid_leb_zero_nonneg s Hv Hl) as Hn.
  assert (Hm : nonneg32 (F32.mul s (F32.of_int 3))).
  { apply (in32 SFmul_nonneg_finite); [assumption | reflexivity]. }
  unfold F32.to_int in Ht.
  destruct s as [sg | [] | | [] m e]; cbn [nonneg] in Hn; try contradiction.
  - cbn in Ht. injection Ht as <-. split; [exact I |]. unfold Int.max_signed. lia.
  - discriminate.
  - split; [exact Hn |].
    destruct (F32.mul (S754_finite false m e) (F32.of_int 3)) as [sz | [] | | [] mz ez];
      cbn [nonneg] in Hm; try contradiction; try discriminate.
    + cbn in Ht. injection Ht as <-. unfold Int.max_signed. lia.
    + pose proof (in32 bounded_inv mz ez Hm) as (_ & _ & He & _).
      rewrite (in32 Ztrunc_finite) in Ht by assumption. cbn [cond_Zopp] in Ht.
      destruct (Int.in_range _) eqn:Hr; [| discriminate]. injection Ht as <-.
      unfold Int.in_range in Hr. apply andb_true_iff in Hr as [_ Hr]. apply Z.leb_le in Hr.
      split; [| exact Hr]. apply Z.div_pos.
      * apply Z.lt_le_incl. exact (in32 fval_pos false mz ez He).
      * apply (pow2_pos (- emin F32.prec F32.emax)). rewrite emin32. lia.
Qed.

Lemma window_bounds imagein x y support :
  0 <= support ->
  x + support <= Int.max_signed -> y + support <= Int.max_signed ->
  width imagein <= Int.max_signed -> height imagein <= Int.max_signed ->
  in_bounds imagein x y = true ->
  exists x1 x2 y1 y2,
    window imagein x y support = (x1, x2, y1, y2) /\
    0 <= x1 <= x /\ x <= x2 < width imagein /\
    0 <= y1 <= y /\ y <= y2 < height imagein /\
    x - support <= x1 /\ x2 <= x + support /\
    y - support <= y1 /\ y2 <= y + support.
Proof.
  intros Hs Hx Hy Hw Hh Hb. unfold in_bounds in Hb.
  apply andb_true_iff in Hb as [Hb Hb4]. apply andb_true_iff in Hb as [Hb Hb3].
  apply andb_true_iff in Hb as [Hb1 Hb2].
  apply Z.leb_le in Hb1, Hb3. apply Z.ltb_lt in Hb2, Hb4.
  unfold window, Int.add, Int.sub.
  unfold Int.max_signed in *.
  rewrite !wrap_small by (unfold Int.min_signed, Int.max_signed; lia).
  do 4 eexists. split; [reflexivity |].
  destruct (Z.gtb_spec (x - support) 0), (Z.ltb_spec (x + support) (width imagein)),
    (Z.gtb_spec (y - support) 0), (Z.ltb_spec (y + support) (height imagein)); lia.
Qed.

(** ** One step of the window loops *)

Section Loops.
Variable expf : spec_float -> spec_float.
Variable imagein : SimpleCanvas.
Variables x y : Z.
Variables s b : spec_float.
Variable I1 : rgb spec_float.

Lemma windowBody_in_bounds c j final weights :
  0 <= c < 2 ^ 24 -> in_bounds imagein c j = true ->
  let I2 := (sample01 (data imagein j c 0), sample01 (data imagein j c 1),
             sample01 (data imagein j c 2)) in
  let w := weight expf (spatialTerm x y s (F32.of_int c) j) (brightnessTerm b I1 I2) in
  windowBody expf imagein x y s b I1 (F32.of_int c) j (final, weights) =
  Ok (rgb_map2 F32.add final (rgb_map (F32.mul w) I2), F32.add weights w).
Proof.
  intros Hc Hb I2 w. unfold windowBody.
  rewrite of_int_to_int by assumption. cbn [bind].
  unfold getColor01. rewrite Hb. reflexivity.
Qed.

(** The inner loop keeps an invariant that the body keeps. *)
Lemma loop_ys_invariant (Q : Z -> sums -> Prop) xs n ys acc :
  Q ys acc ->
  (forall j a, ys <= j < ys + Z.of_nat n -> Q j a ->
     exists a', windowBody expf imagein x y s b I1 xs j a = Ok a' /\ Q (j + 1) a') ->
  exists acc', loop_ys expf imagein x y s b I1 xs n ys acc = Ok acc' /\
               Q (ys + Z.of_nat n) acc'.
Proof.
  revert ys acc. induction n as [| n IH]; intros ys acc HQ Hstep.
  - exists acc. cbn [loop_ys]. rewrite Z.add_0_r. auto.
  - destruct (Hstep ys acc ltac:(lia) HQ) as (a' & Ea & HQ').
    cbn [loop_ys]. rewrite Ea. cbn [bind].
    destruct (IH (ys + 1) a' HQ') as (acc' & E & HQf).
    { intros j a Hj. apply Hstep. lia. }
    exists acc'. split; [exact E |].
    replace (ys + Z.of_nat (S n)) with (ys + 1 + Z.of_nat n) by lia. exact HQf.
Qed.

(** The outer loop, whose variable is a binary32 number, runs through
    the columns [i .. x2] when they are below [2^24]. *)
Lemma loop_xs_invariant (R : Z -> sums -> Prop) fuel x2 y1 y2 i acc :
  0 <= i <= x2 + 1 -> 0 <= x2 < 2 ^ 24 -> (Z.to_nat (x2 + 1 - i) <= fuel)%nat ->
  R i acc ->
  (forall c a, i <= c <= x2 -> R c a ->
     exists a', loop_ys expf imagein x y s b I1 (F32.of_int c)
                  (Z.to_nat (y2 - y1 + 1)) y1 a = Ok a' /\ R (c + 1) a') ->
  exists acc', loop_xs expf fuel imagein x y s b I1 x2 y1 y2 (F32.of_int i) acc = Ok acc' /\
               R (x2 + 1) acc'.
Proof.
  revert i acc. induction fuel as [| fuel IH]; intros i acc Hi Hx2 Hf HR Hstep.
  - assert (i = x2 + 1) by lia. subst i. exists acc.
    cbn [loop_xs]. rewrite of_int_leb by lia.
    destruct (Z.leb_spec (x2 + 1) x2); [lia |]. auto.
  - cbn [loop_xs]. rewrite of_int_leb by lia.
    destruct (Z.leb_spec i x2) as [Hle | Hgt].
    + destruct (Hstep i acc ltac:(lia) HR) as (a' & Ea & HR').
      rewrite Ea. cbn [bind]. rewrite of_int_succ by lia.
      apply IH; try lia; try assumption.
      intros c a Hc. apply Hstep. lia.
    + assert (i = x2 + 1) by lia. subst i. exists acc. auto.
Qed.
End Loops.
End Window.
(** * Windows of one pixel *)

Section SinglePixel.
Local Notation "'in32' L" := (L F32.prec F32.emax prec32_pos prec32_emax)
  (at level 10, L at level 9, only parsing).
Local Abbreviation nonneg32 := (nonneg F32.prec F32.emax).
Local Abbreviation posfin32 := (posfin F32.prec F32.emax).

Variable expf : spec_float -> spec_float.
Hypothesis expf_zero : expf (S754_zero true) = F32.one.

(** When the window is the target alone, the sums are the target's
    samples and the weight [1]. *)
Lemma single_window_sums fuel imagein x y s b :
  in_bounds imagein x y = true -> 0 <= x < 2 ^ 24 ->
  posfin32 s -> nonneg32 b -> (1 <= fuel)%nat ->
  let I1 := (sample01 (data imagein y x 0), sample01 (data imagein y x 1),
             sample01 (data imagein y x 2)) in
  loop_xs expf fuel imagein x y s b I1 x y y (F32.of_int x) sums0 = Ok (I1, F32.one).
Proof.
  intros Hin Hx Hs Hb Hfuel I1.
  destruct fuel as [| fuel]; [lia |].
  cbn [loop_xs]. rewrite of_int_leb, Z.leb_refl by lia.
  replace (Z.to_nat (y - y + 1)) with 1%nat by lia. cbn [loop_ys].
  subst I1. unfold sums0. rewrite windowBody_in_bounds by assumption. cbv zeta.
  rewrite spatialTerm_target by (try assumption; lia).
  rewrite !brightnessTerm_same by assumption.
  change (weight expf F32.zero F32.zero) with (expf (S754_zero true)).
  rewrite expf_zero. cbn [bind rgb_map rgb_map2].
  rewrite !sample01_weight_one, of_int_succ by lia.
  change (F32.add F32.zero F32.one) with F32.one.
  destruct fuel; cbn [loop_xs]; rewrite of_int_leb by lia;
    (destruct (Z.leb_spec (x + 1) x); [lia | reflexivity]).
Qed.

Lemma single_window_pixel fuel imagein x y s b support :
  in_bounds imagein x y = true -> 0 <= x < 2 ^ 24 ->
  posfin32 s -> nonneg32 b -> (1 <= fuel)%nat ->
  F32.to_int (F32.mul s (F32.of_int 3)) = Ok support ->
  window imagein x y support = (x, x, y, y) ->
  bilateralSums expf fuel imagein x y s b =
    Ok ((sample01 (data imagein y x 0), sample01 (data imagein y x 1),
         sample01 (data imagein y x 2)), F32.one) /\
  bilateralFilterPixel expf fuel imagein x y s b =
    Ok (data imagein y x 0, data imagein y x 1, data imagein y x 2).
Proof.
  intros Hin Hx Hs Hb Hfuel Ht Hwin.
  assert (E : bilateralSums expf fuel imagein x y s b =
    Ok ((sample01 (data imagein y x 0), sample01 (data imagein y x 1),
         sample01 (data imagein y x 2)), F32.one)).
  { unfold bilateralSums. rewrite Ht. cbn [bind]. rewrite Hwin.
    unfold getColor01. rewrite Hin. cbn [bind].
    now apply single_window_sums. }
  split; [exact E |].
  unfold bilateralFilterPixel. rewrite E. cbn [bind quantize].
  rewrite !sample01_quantize. reflexivity.
Qed.

(** A 1x1 canvas is reproduced for all sigmas [s >= 0] and [b >= 0]
    for which [(int)(3 * s)] is defined: the window is the pixel
    alone, the weight sum is [1], and the quantized value is the
    sample. *)
Theorem single_pixel_image fuel imagein s b support :
  width imagein = 1 -> height imagein = 1 ->
  valid_binary F32.prec F32.emax s = true -> F32.leb F32.zero s = true ->
  valid_binary F32.prec F32.emax b = true -> F32.leb F32.zero b = true ->
  F32.to_int (F32.mul s (F32.of_int 3)) = Ok support ->
  (1 <= fuel)%nat ->
  window imagein 0 0 support = (0, 0, 0, 0) /\
  bilateralSums expf fuel imagein 0 0 s b =
    Ok ((sample01 (data imagein 0 0 0), sample01 (data imagein 0 0 1),
         sample01 (data imagein 0 0 2)), F32.one) /\
  bilateralFilterPixel expf fuel imagein 0 0 s b =
    Ok (data imagein 0 0 0, data imagein 0 0 1, data imagein 0 0 2).
Proof.
  intros Hw Hh Hvs Hls Hvb Hlb Ht Hfuel.
  destruct (sigma_support s support Hvs Hls Ht) as [Hs [Hs0 Hs1]].
  pose proof (in32 valid_leb_zero_nonneg b Hvb Hlb) as Hb.
  assert (Hwin : window imagein 0 0 support = (0, 0, 0, 0)).
  { unfold window, Int.add, Int.sub. rewrite Hw, Hh. cbn [Z.add Z.sub Z.opp].
    unfold Int.max_signed in Hs1.
    rewrite !wrap_small by (unfold Int.min_signed, Int.max_signed; lia).
    destruct (Z.gtb_spec (- support) 0); [lia |].
    destruct (Z.ltb_spec support 1); [| reflexivity].
    replace support with 0 by lia. reflexivity. }
  split; [exact Hwin |].
  apply (single_window_pixel fuel imagein 0 0 s b support); try assumption; try lia.
  unfold in_bounds. rewrite Hw, Hh. reflexivity.
Qed.

Lemma zero_window imagein x y :
  width imagein <= Int.max_signed -> height imagein <= Int.max_signed ->
  in_bounds imagein x y = true -> window imagein x y 0 = (x, x, y, y).
Proof.
  intros Hw Hh Hin.
  pose proof Hin as Hb. unfold in_bounds in Hb.
  apply andb_true_iff in Hb as [Hb Hb4]. apply andb_true_iff in Hb as [Hb Hb3].
  apply andb_true_iff in Hb as [Hb1 Hb2].
  apply Z.leb_le in Hb1, Hb3. apply Z.ltb_lt in Hb2, Hb4.
  unfold window, Int.add, Int.sub. rewrite !Z.add_0_r, !Z.sub_0_r.
  unfold Int.max_signed in *.
  rewrite !wrap_small by (unfold Int.min_signed, Int.max_signed; lia).
  destruct (Z.gtb_spec x 0), (Z.ltb_spec x (width imagein)),
    (Z.gtb_spec y 0), (Z.ltb_spec y (height imagein)); try lia;
    repeat f_equal; lia.
Qed.

Lemma zero_sigmas_pixel fuel imagein x y :
  width imagein <= Int.max_signed -> height imagein <= Int.max_signed ->
  in_bounds imagein x y = true -> x < 2 ^ 24 -> (1 <= fuel)%nat ->
  bilateralFilterPixel expf fuel imagein x y F32.zero F32.zero =
    Ok (data imagein y x 0, data imagein y x 1, data imagein y x 2).
Proof.
  intros Hw Hh Hin Hx Hfuel.
  assert (0 <= x) by (apply andb_true_iff in Hin as [Hin _];
    apply andb_true_iff in Hin as [Hin _]; apply andb_true_iff in Hin as [Hin _];
    now apply Z.leb_le in Hin).
  apply (single_window_pixel fuel imagein x y F32.zero F32.zero 0);
    try assumption; try exact I; try reflexivity; try lia.
  now apply zero_window.
Qed.

(** With [s = 0] and [b = 0] both terms are [+0] and the weight is [1]
    for every pixel, the half-width is [0], and the window of an
    in-bounds target is the target alone; for a target column below
    [2^24] the filter returns the target's samples. *)
Theorem zero_sigmas_below_2p24 fuel imagein x y :
  width imagein <= Int.max_signed -> height imagein <= Int.max_signed ->
  in_bounds imagein x y = true -> x < 2 ^ 24 -> (1 <= fuel)%nat ->
  (forall xs ys I1 I2,
     spatialTerm x y F32.zero xs ys = F32.zero /\
     brightnessTerm F32.zero I1 I2 = F32.zero /\
     weight expf (spatialTerm x y F32.zero xs ys) (brightnessTerm F32.zero I1 I2) = F32.one) /\
  F32.to_int (F32.mul F32.zero (F32.of_int 3)) = Ok 0 /\
  window imagein x y 0 = (x, x, y, y) /\
  bilateralFilterPixel expf fuel imagein x y F32.zero F32.zero =
    Ok (data imagein y x 0, data imagein y x 1, data imagein y x 2).
Proof.
  intros Hw Hh Hin Hx Hfuel.
  split; [| split; [reflexivity | split; [now apply zero_window |]]].
  - intros xs ys I1 I2. repeat split. exact expf_zero.
  - now apply zero_sigmas_pixel.
Qed.
End SinglePixel.

(** At column [2^24] the counter of line 126 no longer advances. *)
Lemma loop_xs_stuck expf fuel imagein x y s b I1 acc :
  width imagein = 16777217 -> height imagein = 1 ->
  loop_xs expf fuel imagein x y s b I1 16777216 0 0 (F32.of_int 16777216) acc
    = Err OutOfFuel.
Proof.
  intros Hw Hh. revert acc. induction fuel as [| fuel IH]; intros acc; [reflexivity |].
  cbn [loop_xs].
  change (F32.leb (F32.of_int 16777216) (F32.of_int 16777216)) with true.
  change (Z.to_nat (0 - 0 + 1)) with 1%nat. cbn [loop_ys].
  unfold windowBody at 1.
  change (F32.to_int (F32.of_int 16777216)) with (Ok (A := Z) 16777216). cbn [bind].
  unfold getColor01, in_bounds. rewrite Hw, Hh. cbn [Z.leb Z.ltb Z.compare Pos.compare Pos.compare_cont andb bind].
  destruct acc as [final weights]. cbn [bind].
  change (F32.add (F32.of_int 16777216) F32.one) with (F32.of_int 16777216).
  apply IH.
Qed.

(** C4: with [s = 0] and [b = 0] the filter does not compute the
    average of its window for every target.  On a canvas 16777217
    columns wide the window of the in-bounds target column 16777216 is
    the target alone, but the loop over it never ends, whatever the
    fuel: [xs++] leaves the binary32 number 16777216 unchanged. *)
Theorem zero_sigmas_never_returns expf fuel :
  in_bounds (uniform 16777217 1 x80) 16777216 0 = true /\
  window (uniform 16777217 1 x80) 16777216 0 0 = (16777216, 16777216, 0, 0) /\
  F32.add (F32.of_int 16777216) F32.one = F32.of_int 16777216 /\
  bilateralFilterPixel expf fuel (uniform 16777217 1 x80) 16777216 0 F32.zero F32.zero
    = Err OutOfFuel.
Proof.
  repeat split.
  unfold bilateralFilterPixel, bilateralSums.
  change (F32.to_int (F32.mul F32.zero (F32.of_int 3))) with (Ok (A := Z) 0). cbn [bind].
  change (window (uniform 16777217 1 x80) 16777216 0 0) with (16777216, 16777216, 0, 0).
  change (getColor01 (uniform 16777217 1 x80) 16777216 0)
    with (Ok (sample01 x80, sample01 x80, sample01 x80)).
  cbn [bind]. rewrite loop_xs_stuck by reflexivity. reflexivity.
Qed.
(** * The weight sum *)

Section WeightSum.
Local Notation "'in32' L" := (L F32.prec F32.emax prec32_pos prec32_emax)
  (at level 10, L at level 9, only parsing).
Local Abbreviation nonneg32 := (nonneg F32.prec F32.emax).
Local Abbreviation posfin32 := (posfin F32.prec F32.emax).
Local Abbreviation least32 := (at_least F32.prec F32.emax).
Local Abbreviation fval32 := (fval F32.prec F32.emax).

Variable expf : spec_float -> spec_float.
Hypothesis expf_positive : exp_positive expf.

Lemma at_least_leb_one w : least32 0 w -> F32.leb F32.one w = true.
Proof.
  intros H. destruct w as [sw | sw | | sw m e]; try contradiction.
  - destruct sw; [contradiction | reflexivity].
  - destruct sw; [contradiction |]. destruct H as [Hb Hv]. unfold F32.leb.
    rewrite (in32 SFleb_posfin); [| reflexivity | exact Hb].
    apply Z.leb_le. rewrite emin32 in Hv. exact Hv.
Qed.

Lemma at_least_ltb_zero w : least32 0 w -> F32.ltb F32.zero w = true.
Proof.
  intros H. destruct w as [sw | sw | | sw m e]; try contradiction;
    (destruct sw; [contradiction | reflexivity]).
Qed.

Lemma one_at_least : least32 0 F32.one.
Proof. split; [reflexivity |]. apply Z.leb_le. vm_compute. reflexivity. Qed.

Lemma seen_next x y c j :
  seen x y c (j + 1) = seen x y c j || ((c =? x) && (j =? y)).
Proof.
  unfold seen.
  destruct (Z.ltb_spec x c), (Z.eqb_spec c x), (Z.ltb_spec y (j + 1)), (Z.ltb_spec y j),
    (Z.eqb_spec j y); cbn; try reflexivity; lia.
Qed.

Lemma seen_row x y c y1 y2 :
  y1 <= y <= y2 -> seen x y c (y2 + 1) = seen x y (c + 1) y1.
Proof.
  intros H. unfold seen.
  destruct (Z.ltb_spec x c), (Z.eqb_spec c x), (Z.ltb_spec y (y2 + 1)), (Z.ltb_spec x (c + 1)),
    (Z.eqb_spec (c + 1) x), (Z.ltb_spec y y1); cbn; try reflexivity; lia.
Qed.

(** The body of the loops keeps the invariant of the weight sum. *)
Lemma windowBody_weight_inv imagein x y s b c j acc :
  posfin32 s -> nonneg32 b ->
  0 <= x < 2 ^ 24 -> 0 <= c < 2 ^ 24 -> in_bounds imagein c j = true ->
  -46340 <= j - y <= 46340 ->
  weight_inv (seen x y c j) acc ->
  let I1 := (sample01 (data imagein y x 0), sample01 (data imagein y x 1),
             sample01 (data imagein y x 2)) in
  exists acc', windowBody expf imagein x y s b I1 (F32.of_int c) j acc = Ok acc' /\
               weight_inv (seen x y c (j + 1)) acc'.
Proof.
  intros Hs Hb Hx Hc Hin Hj [Hn Hseen] I1. destruct acc as [final weights].
  cbn [snd] in Hn, Hseen.
  rewrite windowBody_in_bounds by assumption. cbv zeta.
  set (I2 := (sample01 (data imagein j c 0), sample01 (data imagein j c 1),
              sample01 (data imagein j c 2))).
  set (w := weight expf (spatialTerm x y s (F32.of_int c) j) (brightnessTerm b I1 I2)).
  assert (Hw : nonneg32 w).
  { apply weight_nonneg; [assumption | |].
    - apply spatialTerm_nonneg; try assumption; lia.
    - apply brightnessTerm_nonneg. assumption. }
  eexists. split; [reflexivity |]. split; cbn [snd].
  - unfold F32.add. now apply (in32 SFadd_nonneg).
  - rewrite seen_next. intros Ht. apply orb_true_iff in Ht as [Ht | Ht].
    + unfold F32.add. apply (in32 SFadd_at_least_l); [rewrite emin32; unfold F32.prec; lia | auto | assumption].
    + apply andb_true_iff in Ht as [Hcx Hjy].
      apply Z.eqb_eq in Hcx, Hjy. subst c j.
      assert (Ew : w = F32.one).
      { subst w I2. fold I1. rewrite spatialTerm_target by (try assumption; lia).
        unfold I1. rewrite brightnessTerm_same by assumption.
        now apply weight_zero. }
      rewrite Ew. unfold F32.add.
      apply (in32 SFadd_at_least_r); [rewrite emin32; unfold F32.prec; lia | assumption |].
      apply one_at_least.
Qed.

End WeightSum.
(** * The reference [exp] *)

Lemma squarings_nonneg n y : (0 < n)%nat -> 0 <= squarings n y.
Proof.
  revert y. induction n as [| n IH]; intros y Hn; [lia |].
  cbn [squarings]. destruct n as [| n].
  - cbn [squarings]. apply Z.shiftr_nonneg. apply Z.square_nonneg.
  - apply IH. lia.
Qed.

Lemma expf_ref_nonneg x :
  x <> S754_nan -> nonneg F32.prec F32.emax (expf_ref x).
Proof.
  intros Hn. destruct x as [sx | sx | | sx m e]; cbn [expf_ref].
  - reflexivity.
  - destruct sx; exact I.
  - contradiction.
  - destruct (7 <=? Zpos (digits2_pos m) + e - 1); [destruct sx; exact I |].
    assert (Hr : nonneg F32.prec F32.emax
                   (binary_normalize F32.prec F32.emax (exp_fix sx m e) (- expP) false)).
    { apply (binary_normalize_nonneg F32.prec F32.emax prec32_pos prec32_emax).
      - unfold exp_fix. apply squarings_nonneg. lia.
      - rewrite emin32. unfold expP. lia. }
    destruct (sx && negb _); [reflexivity | exact Hr].
Qed.

Lemma expf_ref_positive : exp_positive expf_ref.
Proof.
  split.
  - intros sg. reflexivity.
  - intros x _ Hn.
    apply (nonneg_valid_leb F32.prec F32.emax prec32_pos prec32_emax).
    now apply expf_ref_nonneg.
Qed.

Lemma expf_ref_le_one : exp_le_one expf_ref.
Proof.
  intros x _ Hl. destruct x as [sx | sx | | sx m e]; cbn [expf_ref].
  - reflexivity.
  - destruct sx; [reflexivity | discriminate Hl].
  - discriminate Hl.
  - destruct sx; [| discriminate Hl].
    destruct (7 <=? Zpos (digits2_pos m) + e - 1); [reflexivity |].
    cbn [andb].
    destruct (SFleb (binary_normalize F32.prec F32.emax (exp_fix true m e) (- expP) false)
                    F32.one) eqn:E; cbn [negb]; [exact E | reflexivity].
Qed.
(** * Concrete runs *)

Lemma filterImage_no_reps_witness :
  reps (sample_params F32.one F32.one 0) <= 0 /\
  filterImage expf_ref 4 (start (uniform 4 4 xff)) (sample_params F32.one F32.one 0) =
  Ok (start (uniform 4 4 xff)).
Proof.
  split; [cbn; lia |]. apply filterImage_no_reps. cbn. lia.
Defined.

Lemma filterImage_one_rep_frame_witness :
  let st := start (uniform 2 2 x80) in
  let p := sample_params F32.one F32.one 1 in
  reps p = 1 /\
  (filterImage expf_ref 2 st p =
     (imageout' <- filterPass expf_ref 2 (st_in st) p (st_out st) ;;
      Ok {| st_in := st_in st; st_out := imageout'; st_files := st_files st |})
   /\ forall st', filterImage expf_ref 2 st p = Ok st' ->
        st_in st' = st_in st /\ st_files st' = st_files st).
Proof.
  split; [reflexivity |]. apply filterImage_one_rep_frame. reflexivity.
Defined.

Lemma filterImage_two_reps_chain_witness :
  let st := start (uniform 2 2 x80) in
  let p := sample_params F32.one F32.one 2 in
  reps p = 2 /\
  (filterImage expf_ref 2 st p =
     (out1 <- filterPass expf_ref 2 (st_in st) p (st_out st) ;;
      out2 <- filterPass expf_ref 2 (copyBack (st_in st) out1) p out1 ;;
      Ok {| st_in := copyBack (st_in st) out1;
            st_out := out2;
            st_files := write out1 "rep0.png" (st_files st) |})
   /\ forall out1 x y k,
        in_bounds (st_in st) x y = true -> 0 <= k < 3 ->
        data (copyBack (st_in st) out1) y x k = data out1 y x k).
Proof.
  split; [reflexivity |]. apply filterImage_two_reps_chain. reflexivity.
Defined.

(** C2: on a canvas 16777220 columns wide the window of the in-bounds
    target column 16777219 with [s = 0] is that column alone, but the
    binary32 loop variable [xs] starts at 16777220, and the pixel read
    is outside the grid. *)
Theorem bilateralFilterPixel_reads_outside expf fuel :
  in_bounds wide_canvas 16777219 0 = true /\
  window wide_canvas 16777219 0 0 = (16777219, 16777219, 0, 0) /\
  F32.of_int 16777219 = F32.of_int 16777220 /\
  bilateralFilterPixel expf (S fuel) wide_canvas 16777219 0 F32.zero F32.zero
    = Err OutOfBounds.
Proof. repeat split. Qed.

(** C6: the 4x4 all-white canvas filtered once with [s = b = 1] is not
    all white: the four inner pixels come out as 254. *)
Theorem filterImage_white_4x4 :
  (st' <- filterImage expf_ref 4 (start (uniform 4 4 xff)) (sample_params F32.one F32.one 1) ;;
   Ok (pixels (st_out st')))
  = Ok [ [white; white; white; white];
         [white; dimmed; dimmed; white];
         [white; dimmed; dimmed; white];
         [white; white; white; white] ].
Proof. vm_compute. reflexivity. Qed.

Lemma single_pixel_image_witness :
  bilateralFilterPixel expf_ref 1 (uniform 1 1 x80) 0 0 F32.one F32.one
    = Ok (x80, x80, x80).
Proof.
  apply (single_pixel_image expf_ref (exp_zero expf_ref expf_ref_positive true)
           1 (uniform 1 1 x80) F32.one F32.one 3); reflexivity.
Defined.

(** * The command line *)

Section Arguments.
Variable atof : string -> spec_float.
Variable atoi : string -> Z.

Local Abbreviation loop := (parseLoop atof atoi).
Local Abbreviation put := (assign atof atoi).

(** The state of the parameters after a list of options with values. *)
Local Abbreviation assign_all := (fold_left (fun p kv => put kv p)).

Lemma parseLoop_option k v rest p :
  loop (key_name k :: v :: rest) p = loop rest (put (k, v) p).
Proof. destruct k; reflexivity. Qed.

Lemma parseLoop_render kvs rest p :
  loop (render kvs ++ rest) p = loop rest (assign_all kvs p).
Proof.
  revert p. induction kvs as [| [k v] kvs IH]; intros p; [reflexivity |].
  cbn [render flat_map fst snd app fold_left]. fold (render kvs).
  rewrite parseLoop_option. apply IH.
Qed.

Lemma assign_comm kv1 kv2 p :
  fst kv1 <> fst kv2 -> put kv1 (put kv2 p) = put kv2 (put kv1 p).
Proof.
  destruct kv1 as [k1 v1], kv2 as [k2 v2]. cbn [fst].
  destruct k1, k2; intros H; try reflexivity; now elim H.
Qed.

Lemma assign_all_perm kvs1 kvs2 :
  Permutation kvs1 kvs2 -> NoDup (map fst kvs1) ->
  forall p, assign_all kvs1 p = assign_all kvs2 p.
Proof.
  induction 1 as [| kv l1 l2 HP IH | kv1 kv2 l | l1 l2 l3 HP1 IH1 HP2 IH2];
    intros Hnd p.
  - reflexivity.
  - cbn [fold_left]. apply IH. cbn [map] in Hnd. now inversion Hnd.
  - cbn [fold_left]. f_equal. apply assign_comm.
    cbn [map] in Hnd. inversion Hnd as [| ? ? Hin _]. subst.
    intros E. apply Hin. left. now symmetry.
  - rewrite IH1 by assumption. apply IH2.
    apply (Permutation_NoDup (l := map fst l1)); [| assumption].
    now apply Permutation_map.
Qed.

(** The options of a command line made of options with values may come
    in any order, as long as none is given twice. *)
Theorem parseArgs_any_order prog kvs1 kvs2 :
  Permutation kvs1 kvs2 -> NoDup (map fst kvs1) ->
  parseArgs atof atoi (prog :: render kvs1) = parseArgs atof atoi (prog :: render kvs2).
Proof.
  intros HP Hnd. unfold parseArgs. cbn [tl].
  rewrite <- (app_nil_r (render kvs1)), <- (app_nil_r (render kvs2)).
  rewrite !parseLoop_render. cbn [parseLoop].
  f_equal. now apply assign_all_perm.
Qed.

(** What a list of options with values leaves in each parameter: the
    last value given for it. *)
Lemma assign_all_snoc kvs kv p :
  assign_all (kvs ++ [kv]) p = put kv (assign_all kvs p).
Proof. now rewrite fold_left_app. Qed.

Lemma last_value_snoc k kvs kv :
  last_value k (kvs ++ [kv]) =
  if key_eqb (fst kv) k then Some (snd kv) else last_value k kvs.
Proof.
  unfold last_value. rewrite rev_app_distr. cbn [rev app find].
  destruct (key_eqb (fst kv) k); reflexivity.
Qed.

Lemma assign_all_fields kvs :
  let a := assign_all kvs args0 in
  a_inpath a = match last_value KIn kvs with
               | Some v => Assigned (Some v) | None => Indeterminate end /\
  a_outpath a = match last_value KOut kvs with
                | Some v => Assigned (Some v) | None => Indeterminate end /\
  a_s a = match last_value KS kvs with
          | Some v => Assigned (F32.of_double (atof v)) | None => Indeterminate end /\
  a_b a = match last_value KB kvs with
          | Some v => Assigned (F32.of_double (atof v)) | None => Indeterminate end /\
  a_nthreads a = match last_value KThreads kvs with
                 | Some v => atoi v | None => 1 end /\
  a_reps a = match last_value KReps kvs with
             | Some v => atoi v | None => 1 end.
Proof.
  induction kvs as [| [k v] kvs IH] using rev_ind; [repeat split |].
  cbv zeta in IH |- *. rewrite assign_all_snoc, !last_value_snoc. cbn [fst snd].
  destruct IH as (H1 & H2 & H3 & H4 & H5 & H6).
  destruct k; cbn [key_eqb assign set_inpath set_outpath set_s set_b set_threads
                   set_reps a_inpath a_outpath a_s a_b a_nthreads a_reps];
    repeat split; assumption.
Qed.

(** On a command line made of options with values, whatever the values
    are, [parseArgs] returns; every parameter holds the last value given
    for its option, [nthreads] and [reps] are [1] when their option is
    not given, and the other four are left without a value. *)
Theorem parseArgs_last_values prog kvs :
  exists a, parseArgs atof atoi (prog :: render kvs) = Returned a /\
  a_inpath a = match last_value KIn kvs with
               | Some v => Assigned (Some v) | None => Indeterminate end /\
  a_outpath a = match last_value KOut kvs with
                | Some v => Assigned (Some v) | None => Indeterminate end /\
  a_s a = match last_value KS kvs with
          | Some v => Assigned (F32.of_double (atof v)) | None => Indeterminate end /\
  a_b a = match last_value KB kvs with
          | Some v => Assigned (F32.of_double (atof v)) | None => Indeterminate end /\
  a_nthreads a = match last_value KThreads kvs with
                 | Some v => atoi v | None => 1 end /\
  a_reps a = match last_value KReps kvs with
             | Some v => atoi v | None => 1 end.
Proof.
  exists (assign_all kvs args0). split; [| apply assign_all_fields].
  unfold parseArgs. cbn [tl].
  rewrite <- (app_nil_r (render kvs)), parseLoop_render. reflexivity.
Qed.

Lemma parseLoop_skip l rest p :
  Forall (fun a => dash a = false) l -> loop (l ++ rest) p = loop rest p.
Proof.
  induction 1 as [| a l Ha _ IH]; [reflexivity |].
  cbn [app parseLoop]. rewrite Ha. exact IH.
Qed.

(** Strings that do not start with a dash, where an option is looked
    for, are passed over: the result is the same without them. *)
Theorem parseArgs_skips_plain prog kvs l rest :
  Forall (fun a => dash a = false) l ->
  parseArgs atof atoi (prog :: render kvs ++ l ++ rest) = parseArgs atof atoi (prog :: render kvs ++ rest).
Proof.
  intros Hl. unfold parseArgs. cbn [tl].
  rewrite !parseLoop_render. now apply parseLoop_skip.
Qed.

(** A string that starts with a dash and is none of the seven options,
    where an option is looked for, ends the program with the exit
    status [0] after a message on [stderr]; what follows is not read. *)
Theorem parseArgs_invalid_option prog kvs a rest :
  dash a = true -> a <> "--help"%string -> (forall k, a <> key_name k) ->
  parseArgs atof atoi (prog :: render kvs ++ a :: rest) = Exited 0 true (invalid_option a).
Proof.
  intros Hd Hh Hk. unfold parseArgs. cbn [tl].
  rewrite parseLoop_render. cbn [parseLoop]. rewrite Hd.
  pose proof (Hk KIn) as H1. pose proof (Hk KOut) as H2. pose proof (Hk KS) as H3.
  pose proof (Hk KB) as H4. pose proof (Hk KThreads) as H5. pose proof (Hk KReps) as H6.
  cbn [key_name] in *.
  apply String.eqb_neq in Hh, H1, H2, H3, H4, H5, H6.
  rewrite Hh, H1, H2, H3, H4, H5, H6. reflexivity.
Qed.

(** [--help] where an option is looked for ends the program with the
    usage line, whatever comes before or after it; as the value of an
    option it is only a value. *)
Theorem parseArgs_help prog kvs rest k :
  parseArgs atof atoi (prog :: render kvs ++ "--help"%string :: rest) = Exited 0 false usage /\
  parseArgs atof atoi (prog :: render (kvs ++ [(k, "--help"%string)])) =
    Returned (put (k, "--help"%string) (assign_all kvs args0)).
Proof.
  unfold parseArgs. cbn [tl]. split.
  - rewrite parseLoop_render. reflexivity.
  - rewrite <- (app_nil_r (render _)), parseLoop_render, assign_all_snoc. reflexivity.
Qed.

(** An option that is the last string has no value: [--in] and [--out]
    store the null pointer that ends [argv], and the four numeric
    options hand it to [atof] or [atoi]. *)
Theorem parseArgs_option_last prog kvs k :
  parseArgs atof atoi (prog :: render kvs ++ [key_name k]) =
  match k with
  | KIn => Returned (set_inpath None (assign_all kvs args0))
  | KOut => Returned (set_outpath None (assign_all kvs args0))
  | _ => NullArgument
  end.
Proof.
  unfold parseArgs. cbn [tl]. rewrite parseLoop_render.
  destruct k; reflexivity.
Qed.
Lemma untouched_refl k p : untouched k p p.
Proof. destruct k; reflexivity. Qed.

Lemma untouched_put k kv p a :
  fst kv <> k -> untouched k (put kv p) a -> untouched k p a.
Proof.
  destruct kv as [k' v]. cbn [fst]. intros Hk.
  destruct k, k'; try (now elim Hk); exact (fun H => H).
Qed.

Lemma parseLoop_untouched k n : forall argv p a,
  (List.length argv <= n)%nat -> ~ In (key_name k) argv ->
  loop argv p = Returned a -> untouched k p a.
Proof.
  induction n as [| n IH]; intros argv p a Hlen Hnin E.
  { destruct argv; [| cbn in Hlen; lia]. injection E as <-. apply untouched_refl. }
  destruct argv as [| t rest]; [injection E as <-; apply untouched_refl |].
  cbn [List.length] in Hlen. cbn [parseLoop] in E.
  assert (Hrest : ~ In (key_name k) rest) by (intros H; apply Hnin; now right).
  destruct (dash t); [| apply (IH rest); [lia | assumption | exact E]].
  destruct (String.eqb_spec t "--help"); [discriminate |].
  assert (Hopt : forall k' v rest',
            t = key_name k' -> rest = v :: rest' ->
            loop rest' (put (k', v) p) = Returned a -> untouched k p a).
  { intros k' v rest' -> -> E'. apply (untouched_put k (k', v)).
    - cbn [fst]. intros ->. apply Hnin. now left.
    - apply (IH rest'); [cbn [List.length] in Hlen; lia | | exact E'].
      intros H. apply Hrest. now right. }
  assert (Hlast : forall k', t = key_name k' -> k' <> k).
  { intros k' -> ->. apply Hnin. now left. }
  destruct (String.eqb_spec t "--in") as [Et | _].
  { destruct rest as [| v rest']; [| now apply (Hopt KIn v rest')].
    injection E as <-. pose proof (Hlast KIn Et). destruct k; try reflexivity. now elim H. }
  destruct (String.eqb_spec t "--out") as [Et | _].
  { destruct rest as [| v rest']; [| now apply (Hopt KOut v rest')].
    injection E as <-. pose proof (Hlast KOut Et). destruct k; try reflexivity. now elim H. }
  destruct (String.eqb_spec t "--s") as [Et | _].
  { destruct rest as [| v rest']; [discriminate | now apply (Hopt KS v rest')]. }
  destruct (String.eqb_spec t "--b") as [Et | _].
  { destruct rest as [| v rest']; [discriminate | now apply (Hopt KB v rest')]. }
  destruct (String.eqb_spec t "--nthreads") as [Et | _].
  { destruct rest as [| v rest']; [discriminate | now apply (Hopt KThreads v rest')]. }
  destruct (String.eqb_spec t "--reps") as [Et | _].
  { destruct rest as [| v rest']; [discriminate | now apply (Hopt KReps v rest')]. }
  discriminate.
Qed.

(** Whatever the command line is, when [parseArgs] returns, a parameter
    whose option does not occur among the strings is as line 36 leaves
    it: [nthreads] and [reps] are [1], and the two paths and the two
    sigmas have no value; nothing reports a missing [--in]. *)
Theorem parseArgs_option_absent argv a :
  parseArgs atof atoi argv = Returned a ->
  (~ In "--in"%string (tl argv) -> a_inpath a = Indeterminate) /\
  (~ In "--out"%string (tl argv) -> a_outpath a = Indeterminate) /\
  (~ In "--s"%string (tl argv) -> a_s a = Indeterminate) /\
  (~ In "--b"%string (tl argv) -> a_b a = Indeterminate) /\
  (~ In "--nthreads"%string (tl argv) -> a_nthreads a = 1) /\
  (~ In "--reps"%string (tl argv) -> a_reps a = 1).
Proof.
  intros E. unfold parseArgs in E.
  repeat split; intros H.
  - exact (parseLoop_untouched KIn _ (tl argv) args0 a (le_n _) H E).
  - exact (parseLoop_untouched KOut _ (tl argv) args0 a (le_n _) H E).
  - exact (parseLoop_untouched KS _ (tl argv) args0 a (le_n _) H E).
  - exact (parseLoop_untouched KB _ (tl argv) args0 a (le_n _) H E).
  - exact (parseLoop_untouched KThreads _ (tl argv) args0 a (le_n _) H E).
  - exact (parseLoop_untouched KReps _ (tl argv) args0 a (le_n _) H E).
Qed.
End Arguments.

(** * One pass and the repetitions *)

Lemma in_bounds_iff c x y :
  in_bounds c x y = true <-> 0 <= x < width c /\ 0 <= y < height c.
Proof.
  unfold in_bounds.
  destruct (Z.leb_spec 0 x), (Z.ltb_spec x (width c)), (Z.leb_spec 0 y),
    (Z.ltb_spec y (height c)); cbn; split; intros Hyp; try discriminate; try reflexivity; lia.
Qed.

Lemma in_bounds_same_size c d x y :
  same_size c d -> in_bounds c x y = in_bounds d x y.
Proof. intros [Hw Hh]. unfold in_bounds. now rewrite Hw, Hh. Qed.

Lemma same_size_trans c d e : same_size c d -> same_size d e -> same_size c e.
Proof. intros [H1 H2] [H3 H4]. split; congruence. Qed.

Lemma setPixel_inv c x y r g b c' :
  setPixel c x y r g b = Ok c' ->
  in_bounds c x y = true /\ same_size c' c /\
  (data c' y x 0, data c' y x 1, data c' y x 2) = (r, g, b) /\
  (forall y' x' k, ~ (y' = y /\ x' = x /\ 0 <= k < 3) -> data c' y' x' k = data c y' x' k).
Proof.
  unfold setPixel. destruct (in_bounds c x y); [| discriminate].
  intros [= <-]. split; [reflexivity |]. split; [split; reflexivity |]. split.
  - cbn [store data]. rewrite !Z.eqb_refl. reflexivity.
  - intros y' x' k Hk. cbn [store data].
    destruct (Z.eqb_spec y' y), (Z.eqb_spec x' x), (Z.eqb_spec k 2), (Z.eqb_spec k 1),
      (Z.eqb_spec k 0); cbn [andb]; try reflexivity; exfalso; apply Hk; lia.
Qed.

Section Pass.
Variable expf : spec_float -> spec_float.
Variable fuel : nat.
Variable imagein : SimpleCanvas.
Variable p : Parameters.

Local Abbreviation pixel_at c x y := (data c y x 0, data c y x 1, data c y x 2).
Local Abbreviation filtered x y := (bilateralFilterPixel expf fuel imagein x y (s p) (b p)).

Lemma filterRow_spec y n : forall x imageout out,
  filterRow expf fuel imagein p y n x imageout = Ok out ->
  same_size out imageout /\
  (forall x', x <= x' < x + Z.of_nat n ->
     filtered x' y = Ok (pixel_at out x' y) /\ in_bounds imageout x' y = true) /\
  (forall y' x' k, ~ (y' = y /\ x <= x' < x + Z.of_nat n /\ 0 <= k < 3) ->
     data out y' x' k = data imageout y' x' k).
Proof.
  induction n as [| n IH]; intros x imageout out E; cbn [filterRow] in E.
  { injection E as <-. split; [split; reflexivity |]. split; [intros; lia | reflexivity]. }
  destruct (filtered x y) as [[[p0 p1] p2] | f] eqn:Epx; cbn [bind] in E; [| discriminate].
  destruct (setPixel imageout x y p0 p1 p2) as [io | f] eqn:Eset; cbn [bind] in E;
    [| discriminate].
  apply setPixel_inv in Eset as (Hin & Hsz & Hpx & Hframe).
  destruct (IH (x + 1) io out E) as (Hsz' & Hrow & Hrest).
  split; [now apply (same_size_trans out io imageout) |]. split.
  - intros x' Hx'. destruct (Z.eq_dec x' x) as [-> | Hne].
    + split; [| exact Hin]. rewrite Epx. f_equal.
      rewrite !Hrest by lia. exact (eq_sym Hpx).
    + destruct (Hrow x') as [H1 H2]; [lia |]. split; [exact H1 |].
      now rewrite <- (in_bounds_same_size io imageout).
  - intros y' x' k Hk. rewrite Hrest by lia. apply Hframe. lia.
Qed.

Lemma filterRows_spec n : forall y imageout out,
  filterRows expf fuel imagein p n y imageout = Ok out ->
  same_size out imageout /\
  (forall x' y', y <= y' < y + Z.of_nat n -> 0 <= x' < width imagein ->
     filtered x' y' = Ok (pixel_at out x' y') /\ in_bounds imageout x' y' = true) /\
  (forall y' x' k,
     ~ (y <= y' < y + Z.of_nat n /\ 0 <= x' < width imagein /\ 0 <= k < 3) ->
     data out y' x' k = data imageout y' x' k).
Proof.
  induction n as [| n IH]; intros y imageout out E; cbn [filterRows] in E.
  { injection E as <-. split; [split; reflexivity |]. split; [intros; lia | reflexivity]. }
  destruct (filterRow expf fuel imagein p y (Z.to_nat (width imagein)) 0 imageout)
    as [io | f] eqn:Erow; cbn [bind] in E; [| discriminate].
  apply filterRow_spec in Erow as (Hsz & Hrow & Hframe).
  destruct (IH (y + 1) io out E) as (Hsz' & Hrows & Hrest).
  split; [now apply (same_size_trans out io imageout) |]. split.
  - intros x' y' Hy' Hx'. destruct (Z.eq_dec y' y) as [-> | Hne].
    + destruct (Hrow x') as [H1 H2]; [lia |]. split; [| exact H2].
      rewrite H1. f_equal. rewrite !Hrest by lia. reflexivity.
    + destruct (Hrows x' y') as [H1 H2]; [lia | lia |]. split; [exact H1 |].
      now rewrite <- (in_bounds_same_size io imageout).
  - intros y' x' k Hk. rewrite Hrest by lia. apply Hframe. lia.
Qed.

Lemma filterRow_returns y n : forall x imageout,
  (forall x', x <= x' < x + Z.of_nat n ->
     (exists px, filtered x' y = Ok px) /\ in_bounds imageout x' y = true) ->
  exists out, filterRow expf fuel imagein p y n x imageout = Ok out.
Proof.
  induction n as [| n IH]; intros x imageout H; cbn [filterRow]; [now eexists |].
  destruct (H x) as [[[[p0 p1] p2] Epx] Hin]; [lia |]. rewrite Epx. cbn [bind].
  unfold setPixel. rewrite Hin. cbn [bind]. apply IH.
  intros x' Hx'. destruct (H x') as [H1 H2]; [lia |]. split; [exact H1 |].
  rewrite <- H2. unfold in_bounds. reflexivity.
Qed.

Lemma filterRows_returns n : forall y imageout,
  (forall x' y', y <= y' < y + Z.of_nat n -> 0 <= x' < width imagein ->
     (exists px, filtered x' y' = Ok px) /\ in_bounds imageout x' y' = true) ->
  exists out, filterRows expf fuel imagein p n y imageout = Ok out.
Proof.
  induction n as [| n IH]; intros y imageout H; cbn [filterRows]; [now eexists |].
  destruct (filterRow_returns y (Z.to_nat (width imagein)) 0 imageout) as [io Erow].
  { intros x' Hx'. apply H; lia. }
  rewrite Erow. cbn [bind]. apply IH.
  intros x' y' Hy' Hx'. destruct (H x' y') as [H1 H2]; [lia | lia |]. split; [exact H1 |].
  apply filterRow_spec in Erow as (Hsz & _). now rewrite (in_bounds_same_size io imageout).
Qed.

(** One pass of lines 170-175 writes to every pixel of the grid of the
    input the result of the pixel filter on the input canvas, which it
    never changes: no pixel depends on a pixel written before it.  The
    samples of the output canvas outside that grid and its size are
    kept. *)
Theorem filterPass_pixels imageout out :
  filterPass expf fuel imagein p imageout = Ok out ->
  same_size out imageout /\
  (forall x y, in_bounds imagein x y = true ->
     filtered x y = Ok (pixel_at out x y) /\ in_bounds imageout x y = true) /\
  (forall x y k, ~ (in_bounds imagein x y = true /\ 0 <= k < 3) ->
     data out y x k = data imageout y x k).
Proof.
  unfold filterPass. intros E. apply filterRows_spec in E as (Hsz & Hpx & Hframe).
  split; [exact Hsz |]. split.
  - intros x y Hin. apply in_bounds_iff in Hin. apply Hpx; lia.
  - intros x y k Hk. apply Hframe. intros H. apply Hk. split; [| lia].
    apply in_bounds_iff. lia.
Qed.

(** A pass returns exactly when the pixel filter returns for every
    pixel of the input and the output canvas holds every such pixel. *)
Theorem filterPass_returns_iff imageout :
  (exists out, filterPass expf fuel imagein p imageout = Ok out) <->
  (forall x y, in_bounds imagein x y = true ->
     (exists px, filtered x y = Ok px) /\ in_bounds imageout x y = true).
Proof.
  split.
  - intros [out E] x y Hin. apply filterRows_spec in E as (_ & Hpx & _).
    apply in_bounds_iff in Hin. destruct (Hpx x y) as [H1 H2]; [lia | lia |].
    split; [eexists; exact H1 | exact H2].
  - intros H. apply filterRows_returns. intros x y Hy Hx. apply H.
    apply in_bounds_iff. lia.
Qed.
End Pass.

(** * The repetitions *)

Lemma same_size_sym c d : same_size c d -> same_size d c.
Proof. intros [H1 H2]. split; congruence. Qed.

Lemma same_size_copyBack c d : same_size (copyBack c d) c.
Proof. split; reflexivity. Qed.

Lemma same_pixels_trans c d e :
  same_size c d -> same_pixels c d -> same_pixels d e -> same_pixels c e.
Proof.
  intros Hsz H1 H2 x y k Hin Hk. rewrite H1 by assumption. apply H2; [| assumption].
  now rewrite <- (in_bounds_same_size c d).
Qed.


Lemma sub_one_small r :
  Int.min_signed < r <= Int.max_signed -> Int.sub r 1 = r - 1.
Proof. intros H. unfold Int.sub. apply wrap_small. lia. Qed.

Section Repetitions.
Variable expf : spec_float -> spec_float.
Variable fuel : nat.
Variable p : Parameters.

Local Abbreviation pass := (filterPass expf fuel).
Local Abbreviation repeat_from := (repLoop expf fuel p).
Local Abbreviation names from count :=
  (rev (map (fun i => repName (Z.of_nat i)) (seq from count))).

Lemma filterPass_same_size imagein imageout out :
  pass imagein p imageout = Ok out -> same_size out imageout.
Proof. unfold filterPass. intros E. now apply filterRows_spec in E. Qed.

Lemma repLoop_frame n : forall rep st st',
  repeat_from n rep st = Ok st' ->
  same_size (st_in st') (st_in st) /\ same_size (st_out st') (st_out st).
Proof.
  induction n as [| n IH]; intros rep st st' E; cbn [repLoop] in E.
  { injection E as <-. repeat split. }
  destruct (pass (st_in st) p (st_out st)) as [out | f] eqn:Epass; cbn [bind] in E;
    [| discriminate].
  apply filterPass_same_size in Epass. apply IH in E as [Hin Hout].
  destruct (rep <? Int.sub (reps p) 1); cbn [st_in st_out] in Hin, Hout.
  - split; [| now apply (same_size_trans _ out)].
    apply (same_size_trans _ _ _ Hin). apply same_size_copyBack.
  - split; [exact Hin | now apply (same_size_trans _ out)].
Qed.

(** Whatever [reps] is, when [filterImage] returns, the width and the
    height of the input canvas and of the output canvas are what they
    were. *)
Theorem filterImage_frame st st' :
  filterImage expf fuel st p = Ok st' ->
  same_size (st_in st') (st_in st) /\ same_size (st_out st') (st_out st).
Proof. apply repLoop_frame. Qed.

Lemma repLoop_files n : forall rep st st',
  0 <= rep -> rep + Z.of_nat n = reps p -> reps p <= Int.max_signed -> (1 <= n)%nat ->
  repeat_from n rep st = Ok st' ->
  map fst (st_files st') = names (Z.to_nat rep) (n - 1) ++ map fst (st_files st).
Proof.
  induction n as [| n IH]; intros rep st st' Hrep Hn Hmax Hpos E; [lia |].
  cbn [repLoop] in E.
  destruct (pass (st_in st) p (st_out st)) as [out | f]; cbn [bind] in E; [| discriminate].
  rewrite sub_one_small in E by (unfold Int.min_signed; lia).
  destruct (Z.ltb_spec rep (reps p - 1)) as [Hlt | Hge].
  - apply IH in E; try lia. rewrite E. cbn [st_files write map fst].
    replace (S n - 1)%nat with (S (n - 1)) by lia. cbn [seq map rev].
    rewrite <- app_assoc. cbn [app].
    replace (Z.to_nat (rep + 1)) with (S (Z.to_nat rep)) by lia.
    rewrite Z2Nat.id by assumption. reflexivity.
  - destruct n; [| lia]. cbn [repLoop] in E. injection E as <-. reflexivity.
Qed.

Lemma filterImage_files_names st st' :
  reps p <= Int.max_signed ->
  filterImage expf fuel st p = Ok st' ->
  map fst (st_files st') =
    names 0 (Z.to_nat (reps p - 1)) ++ map fst (st_files st).
Proof.
  intros Hmax E. unfold filterImage in E.
  destruct (Z.le_gt_cases (reps p) 0) as [Hle | Hgt].
  - replace (Z.to_nat (reps p)) with O in E by lia. cbn [repLoop] in E.
    injection E as <-. replace (Z.to_nat (reps p - 1)) with O by lia. reflexivity.
  - apply repLoop_files in E; try lia.
    rewrite E. change (Z.to_nat 0) with O.
    replace (Z.to_nat (reps p) - 1)%nat with (Z.to_nat (reps p - 1)) by lia. reflexivity.
Qed.

(** The files [filterImage] writes are ["rep0.png"], ["rep1.png"], ...,
    one after each repetition but the last, [reps - 1] of them, the
    newest first; with [reps <= 1] it writes none. *)
Theorem filterImage_files st st' :
  reps p <= Int.max_signed ->
  filterImage expf fuel st p = Ok st' ->
  map fst (st_files st') =
    names 0 (Z.to_nat (reps p - 1)) ++ map fst (st_files st) /\
  List.length (st_files st') = (Z.to_nat (reps p - 1) + List.length (st_files st))%nat.
Proof.
  intros Hmax E. pose proof (filterImage_files_names st st' Hmax E) as H.
  split; [exact H |].
  rewrite <- (length_map fst (st_files st')), H, length_app, length_rev, !length_map.
  now rewrite length_seq.
Qed.



(** A fault of the pixel filter in the first pass is the result of
    [filterImage], whatever the number of repetitions. *)
Lemma repLoop_first_pass n rep st f :
  pass (st_in st) p (st_out st) = Err f -> repeat_from (S n) rep st = Err f.
Proof. intros E. cbn [repLoop]. rewrite E. reflexivity. Qed.

Section ZeroSigmas.
Hypothesis expf_zero : expf (S754_zero true) = F32.one.
Hypothesis s_zero : s p = F32.zero.
Hypothesis b_zero : b p = F32.zero.
Hypothesis some_fuel : (1 <= fuel)%nat.

Lemma pass_zero_sigmas imagein imageout :
  width imagein <= 2 ^ 24 -> height imagein <= Int.max_signed ->
  same_size imagein imageout ->
  exists out, pass imagein p imageout = Ok out /\
              same_size out imageout /\ same_pixels imagein out.
Proof.
  intros Hw Hh Hsz.
  assert (Hw' : width imagein <= Int.max_signed)
    by (unfold Int.max_signed; change (2 ^ 24) with 16777216 in Hw; lia).
  assert (Hpx : forall x y, 0 <= y < height imagein -> 0 <= x < width imagein ->
            bilateralFilterPixel expf fuel imagein x y (s p) (b p) =
              Ok (data imagein y x 0, data imagein y x 1, data imagein y x 2)).
  { intros x y Hy Hx. rewrite s_zero, b_zero.
    apply (zero_sigmas_pixel expf expf_zero); try assumption; [| lia].
    apply in_bounds_iff. lia. }
  destruct (filterRows_returns expf fuel imagein p (Z.to_nat (height imagein)) 0 imageout)
    as [out E].
  { intros x y Hy Hx. split; [eexists; apply Hpx; lia |].
    rewrite <- (in_bounds_same_size imagein imageout) by assumption.
    apply in_bounds_iff. lia. }
  exists out. split; [exact E |].
  apply filterRows_spec in E as (Hsz' & Hout & _). split; [exact Hsz' |].
  intros x y k Hin Hk. apply in_bounds_iff in Hin.
  destruct (Hout x y) as [H1 _]; [lia | lia |].
  rewrite Hpx in H1 by lia. injection H1 as E0 E1 E2.
  assert (Hk3 : k = 0 \/ k = 1 \/ k = 2) by lia.
  destruct Hk3 as [-> | [-> | ->]]; assumption.
Qed.

Lemma repLoop_zero_sigmas orig n : forall rep st,
  width orig <= 2 ^ 24 -> height orig <= Int.max_signed ->
  same_size orig (st_in st) -> same_pixels orig (st_in st) ->
  same_size (st_in st) (st_out st) ->
  exists st', repeat_from n rep st = Ok st' /\
              same_pixels orig (st_in st') /\
              ((1 <= n)%nat -> same_pixels orig (st_out st')).
Proof.
  induction n as [| n IH]; intros rep st Hw Hh Hsz Hpx Hio.
  { exists st. split; [reflexivity |]. split; [exact Hpx | lia]. }
  cbn [repLoop].
  destruct (pass_zero_sigmas (st_in st) (st_out st)) as (out & E & Hsz' & Hout).
  { destruct Hsz as [<- _]. exact Hw. }
  { destruct Hsz as [_ <-]. exact Hh. }
  { exact Hio. }
  rewrite E. cbn [bind].
  assert (Horig : same_pixels orig out) by now apply (same_pixels_trans orig (st_in st) out).
  assert (Hin_out : same_size (st_in st) out)
    by (apply (same_size_trans _ (st_out st)); [exact Hio | now apply same_size_sym]).
  set (st1 := if rep <? Int.sub (reps p) 1 then _ else _).
  assert (H1 : same_size orig (st_in st1) /\ same_pixels orig (st_in st1) /\
               same_size (st_in st1) (st_out st1) /\ st_out st1 = out).
  { subst st1. destruct (rep <? Int.sub (reps p) 1); cbn [st_in st_out].
    - split; [exact Hsz |]. split; [| split; [exact Hin_out | reflexivity]].
      intros x y k Hin Hk. rewrite copyBack_data; [now apply Horig | | exact Hk].
      now rewrite <- (in_bounds_same_size orig (st_in st)).
    - split; [exact Hsz |]. split; [exact Hpx |]. split; [exact Hin_out | reflexivity]. }
  destruct H1 as (Ha & Hb & Hc & Hd).
  destruct (IH (rep + 1) st1 Hw Hh Ha Hb Hc) as (st' & E' & Hin' & Hout').
  exists st'. split; [exact E' |]. split; [exact Hin' |]. intros _.
  destruct n as [| n]; [| apply Hout'; lia].
  cbn [repLoop] in E'. injection E' as <-. rewrite Hd. exact Horig.
Qed.

(** With [s = 0] and [b = 0], on canvases at most [2^24] columns wide,
    [filterImage] returns for every number of repetitions and changes
    no sample: the input canvas keeps its samples and, once a pass has
    run, the output canvas holds them too. *)
Theorem filterImage_zero_sigmas st :
  width (st_in st) <= 2 ^ 24 -> height (st_in st) <= Int.max_signed ->
  same_size (st_in st) (st_out st) ->
  exists st', filterImage expf fuel st p = Ok st' /\
              same_pixels (st_in st) (st_in st') /\
              (1 <= reps p -> same_pixels (st_in st) (st_out st')).
Proof.
  intros Hw Hh Hio.
  destruct (repLoop_zero_sigmas (st_in st) (Z.to_nat (reps p)) 0 st Hw Hh)
    as (st' & E & Hin & Hout).
  - split; reflexivity.
  - intros x y k _ _. reflexivity.
  - exact Hio.
  - exists st'. split; [exact E |]. split; [exact Hin |]. intros Hr. apply Hout. lia.
Qed.
End ZeroSigmas.
End Repetitions.

(** * The program *)

Section Program.
Variable atof : string -> spec_float.
Variable atoi : string -> Z.
Variable expf : spec_float -> spec_float.
Variable load : string -> option SimpleCanvas.

Local Abbreviation names count :=
  (rev (map (fun i => repName (Z.of_nat i)) (seq 0 count))).

(** The parameters read from a command line made of options with
    values on which the two paths and the two sigmas are given. *)
Local Abbreviation given kvs i o sv bv :=
  {| inpath := i; outpath := o;
     s := F32.of_double (atof sv); b := F32.of_double (atof bv);
     nthreads := match last_value KThreads kvs with Some v => atoi v | None => 1 end;
     reps := match last_value KReps kvs with Some v => atoi v | None => 1 end |}.

Lemma main_options fuel prog kvs i o sv bv :
  last_value KIn kvs = Some i -> last_value KOut kvs = Some o ->
  last_value KS kvs = Some sv -> last_value KB kvs = Some bv ->
  main atof atoi expf load fuel (prog :: render kvs) =
  match load i with
  | None => NoImage
  | Some image =>
      match filterImage expf fuel {| st_in := image; st_out := image; st_files := [] |}
              (given kvs i o sv bv) with
      | Err f => Faulted f
      | Ok st => Completed (write (st_out st) o (st_files st))
      end
  end.
Proof.
  intros Hi Ho Hs Hb. unfold main, parseArgs. cbn [tl].
  rewrite <- (app_nil_r (render kvs)), parseLoop_render. cbn [parseLoop].
  destruct (assign_all_fields atof atoi kvs) as (H1 & H2 & H3 & H4 & H5 & H6).
  cbv zeta in H1, H2, H3, H4, H5, H6. rewrite Hi in H1. rewrite Ho in H2.
  rewrite Hs in H3. rewrite Hb in H4.
  unfold params_of. rewrite H1, H2, H3, H4, H5, H6.
  cbn [assigned andb negb path_of sigma_of]. destruct (load i) as [image |]; [| reflexivity].
  rewrite andb_false_r. reflexivity.
Qed.

(** With [--reps] at most [0] the program filters nothing: the one file
    it writes is the decoded input, under the output path. *)
Theorem main_no_repetition fuel prog kvs i o sv bv r image :
  last_value KIn kvs = Some i -> last_value KOut kvs = Some o ->
  last_value KS kvs = Some sv -> last_value KB kvs = Some bv ->
  last_value KReps kvs = Some r -> atoi r <= 0 ->
  load i = Some image ->
  main atof atoi expf load fuel (prog :: render kvs) = Completed [(o, image)].
Proof.
  intros Hi Ho Hs Hb Hr Hle Hload.
  rewrite (main_options fuel prog kvs i o sv bv) by assumption.
  rewrite Hload, Hr. unfold filterImage. cbn [reps].
  replace (Z.to_nat (atoi r)) with O by lia. reflexivity.
Qed.

(** When the program completes, the files it has written are, from the
    last to the first, the output path and then ["rep<k>.png"] for [k]
    from [reps - 2] down to [0]; without [--reps] it is the output path
    alone. *)
Theorem main_files fuel prog kvs i o sv bv fs :
  last_value KIn kvs = Some i -> last_value KOut kvs = Some o ->
  last_value KS kvs = Some sv -> last_value KB kvs = Some bv ->
  match last_value KReps kvs with Some v => atoi v | None => 1 end <= Int.max_signed ->
  main atof atoi expf load fuel (prog :: render kvs) = Completed fs ->
  map fst fs =
    o :: names (Z.to_nat (match last_value KReps kvs with
                          | Some v => atoi v | None => 1 end - 1)).
Proof.
  intros Hi Ho Hs Hb Hmax E.
  rewrite (main_options fuel prog kvs i o sv bv) in E by assumption.
  destruct (load i) as [image |]; [| discriminate].
  destruct (filterImage expf fuel _ (given kvs i o sv bv)) as [st | f] eqn:Ef;
    [| discriminate].
  injection E as <-. cbn [write map fst]. f_equal.
  apply filterImage_files_names in Ef; [| exact Hmax].
  cbn [reps st_files map] in Ef. rewrite app_nil_r in Ef. exact Ef.
Qed.


(** With sigmas that [atof] reads as [0], on an image at most [2^24]
    columns wide, the program completes for every number of repetitions
    and the file under the output path holds the samples of the input. *)
Theorem main_zero_sigmas fuel prog kvs i o sv bv image :
  expf (S754_zero true) = F32.one -> (1 <= fuel)%nat ->
  last_value KIn kvs = Some i -> last_value KOut kvs = Some o ->
  last_value KS kvs = Some sv -> last_value KB kvs = Some bv ->
  F32.of_double (atof sv) = F32.zero -> F32.of_double (atof bv) = F32.zero ->
  load i = Some image ->
  width image <= 2 ^ 24 -> height image <= Int.max_signed ->
  exists fs c, main atof atoi expf load fuel (prog :: render kvs) = Completed fs /\
               file_named o fs = Some c /\ same_size c image /\ same_pixels image c.
Proof.
  intros Hexp Hfuel Hi Ho Hs Hb Hsv Hbv Hload Hw Hh.
  rewrite (main_options fuel prog kvs i o sv bv) by assumption. rewrite Hload.
  set (params := given kvs i o sv bv).
  set (st0 := {| st_in := image; st_out := image; st_files := [] |}).
  destruct (repLoop_zero_sigmas expf fuel params Hexp Hsv Hbv Hfuel image
              (Z.to_nat (reps params)) 0 st0 Hw Hh)
    as (st & E & _ & Hout).
  { split; reflexivity. }
  { intros x y k _ _. reflexivity. }
  { split; reflexivity. }
  unfold filterImage. rewrite E.
  exists (write (st_out st) o (st_files st)), (st_out st).
  split; [reflexivity |]. split.
  { unfold file_named, write. cbn [find fst]. rewrite String.eqb_refl. reflexivity. }
  split.
  { apply repLoop_frame in E as [_ H]. exact H. }
  destruct (Z.to_nat (reps params)) as [| n] eqn:En.
  - cbn [repLoop] in E. injection E as <-. intros x y k _ _. reflexivity.
  - apply Hout. lia.
Qed.
End Program.

(** * Samples, intensity, window and weights *)

Section Samples.
Local Notation "'in32' L" := (L F32.prec F32.emax prec32_pos prec32_emax)
  (at level 10, L at level 9, only parsing).
Local Abbreviation nonneg32 := (nonneg F32.prec F32.emax).
Local Abbreviation nonpos32 := (nonpos F32.prec F32.emax).
Local Abbreviation posfin32 := (posfin F32.prec F32.emax).
Local Abbreviation fval32 := (fval F32.prec F32.emax).

Lemma sample01_unit v : unit_sample v (sample01 v).
Proof.
  unfold unit_sample. repeat split.
  - destruct v; vm_compute; reflexivity.
  - destruct v; vm_compute; reflexivity.
  - destruct v; vm_compute; reflexivity.
  - apply Z.leb_le. destruct v; vm_compute; reflexivity.
Qed.

(** Each of the three numbers [getColor01] returns for a pixel of the
    grid is a binary32 number of [[0, 1]] within [2^-25] of its sample
    divided by 255. *)
Theorem getColor01_unit_range imagein x y :
  in_bounds imagein x y = true ->
  getColor01 imagein x y =
    Ok (sample01 (data imagein y x 0), sample01 (data imagein y x 1),
        sample01 (data imagein y x 2)) /\
  unit_sample (data imagein y x 0) (sample01 (data imagein y x 0)) /\
  unit_sample (data imagein y x 1) (sample01 (data imagein y x 1)) /\
  unit_sample (data imagein y x 2) (sample01 (data imagein y x 2)).
Proof.
  intros Hin. unfold getColor01. rewrite Hin.
  split; [reflexivity |]. repeat split; apply sample01_unit.
Qed.

(** The conversion of line 96 keeps the order of the samples: a larger
    sample gives a larger number, so different samples give different
    numbers. *)
Theorem sample01_increasing u v :
  (Byte.to_N u < Byte.to_N v)%N -> F32.ltb (sample01 u) (sample01 v) = true.
Proof.
  intros Huv. unfold F32.ltb.
  rewrite (in32 SFltb_posfin) by apply sample01_posfin.
  apply Z.ltb_lt.
  destruct (sample01_unit u) as (_ & _ & _ & Hu).
  destruct (sample01_unit v) as (_ & _ & _ & Hv).
  assert (Hn : Z.of_N (Byte.to_N u) + 1 <= Z.of_N (Byte.to_N v)) by lia.
  change (2 ^ 149) with (2 ^ 25 * 2 ^ 124) in Hu, Hv.
  assert (H124 : 0 < 2 ^ 124) by reflexivity.
  change (2 ^ 25) with 33554432 in Hu, Hv.
  revert Hu Hv Hn H124.
  generalize (2 ^ 124), (fval32 (sample01 u)), (fval32 (sample01 v)),
    (Z.of_N (Byte.to_N u)), (Z.of_N (Byte.to_N v)).
  intros K fu fv nu nv Hu Hv Hn HK. nia.
Qed.

(** Round trip: quantizing the colour read from a pixel with the weight
    sum [1] gives back the three samples of the pixel. *)
Theorem getColor01_quantize_round_trip imagein x y :
  in_bounds imagein x y = true ->
  (c <- getColor01 imagein x y ;; quantize (c, F32.one)) =
  Ok (data imagein y x 0, data imagein y x 1, data imagein y x 2).
Proof.
  intros Hin. unfold getColor01. rewrite Hin. cbn [bind quantize].
  rewrite !sample01_quantize. reflexivity.
Qed.

(** The three constants of [getIntensity] add up to [1] also after
    rounding: the intensity of a gray pixel is its normalized sample. *)
Theorem getIntensity_gray imagein x y c :
  getColor01 imagein x y = Ok c ->
  data imagein y x 0 = data imagein y x 1 -> data imagein y x 1 = data imagein y x 2 ->
  getIntensity c = sample01 (data imagein y x 0).
Proof.
  unfold getColor01. destruct (in_bounds imagein x y); [| discriminate].
  intros [= <-] <- <-. destruct (data imagein y x 0); vm_compute; reflexivity.
Qed.

Lemma window_closed_form imagein x y support :
  0 <= x -> 0 <= y -> 0 <= support ->
  x + support <= Int.max_signed -> y + support <= Int.max_signed ->
  0 <= width imagein <= Int.max_signed -> 0 <= height imagein <= Int.max_signed ->
  window imagein x y support =
    (Z.max 0 (x - support), Z.min (width imagein - 1) (x + support),
     Z.max 0 (y - support), Z.min (height imagein - 1) (y + support)).
Proof.
  intros Hx Hy Hs Hxs Hys Hw Hh.
  unfold window, Int.add, Int.sub. unfold Int.max_signed in *.
  rewrite !wrap_small by (unfold Int.min_signed, Int.max_signed; lia).
  destruct (Z.gtb_spec (x - support) 0), (Z.ltb_spec (x + support) (width imagein)),
    (Z.gtb_spec (y - support) 0), (Z.ltb_spec (y + support) (height imagein));
    repeat apply (f_equal2 pair); lia.
Qed.

(** The window of lines 112-116 is the set of the pixels of the grid
    whose column and row are both within [support] of the target, when
    [x + support] and [y + support] fit an [int]. *)
Theorem window_clipped imagein x y support :
  0 <= x -> 0 <= y -> 0 <= support ->
  x + support <= Int.max_signed -> y + support <= Int.max_signed ->
  0 <= width imagein <= Int.max_signed -> 0 <= height imagein <= Int.max_signed ->
  window imagein x y support =
    (Z.max 0 (x - support), Z.min (width imagein - 1) (x + support),
     Z.max 0 (y - support), Z.min (height imagein - 1) (y + support)) /\
  forall c j,
    (Z.max 0 (x - support) <= c <= Z.min (width imagein - 1) (x + support) /\
     Z.max 0 (y - support) <= j <= Z.min (height imagein - 1) (y + support)) <->
    (in_bounds imagein c j = true /\ Z.abs (c - x) <= support /\ Z.abs (j - y) <= support).
Proof.
  intros Hx Hy Hs Hxs Hys Hw Hh. split.
  - now apply window_closed_form.
  - intros c j. rewrite in_bounds_iff. lia.
Qed.
End Samples.

Section Weights.
Local Notation "'in32' L" := (L F32.prec F32.emax prec32_pos prec32_emax)
  (at level 10, L at level 9, only parsing).
Local Abbreviation nonneg32 := (nonneg F32.prec F32.emax).
Local Abbreviation nonpos32 := (nonpos F32.prec F32.emax).
Local Abbreviation posfin32 := (posfin F32.prec F32.emax).

Variable expf : spec_float -> spec_float.
Hypothesis expf_positive : exp_positive expf.
Hypothesis expf_le_one : exp_le_one expf.

Lemma weight_unit d1 d2 :
  nonneg32 d1 -> nonneg32 d2 -> unit_weight (weight expf d1 d2).
Proof.
  intros H1 H2. unfold weight, unit_weight.
  assert (Ha : nonpos32 (F32.sub (F32.opp d1) d2)).
  { unfold F32.sub, F32.opp. apply (in32 SFsub_nonpos_nonneg); [| assumption].
    now apply (in32 SFopp_nonneg). }
  pose proof (in32 nonpos_leb_zero _ Ha) as Hle.
  apply (in32 nonpos_number) in Ha. apply (in32 number_valid) in Ha as [Hv Hn].
  destruct (exp_number expf expf_positive _ Hv Hn) as [Hv' Hl].
  split; [exact Hv' |]. split; [exact Hl |].
  apply expf_le_one; assumption.
Qed.

(** With an [exp] that maps numbers to non-negative numbers and
    non-positive numbers to at most [1], the weight line 147 gives a
    window pixel is a number of [[0, 1]], never a NaN, for all sigmas
    [s >= 0] and [b >= 0], all columns up to [2^24] and all rows within
    46340 of the target row. *)
Theorem weight_unit_interval x y s b c j u0 u1 u2 v0 v1 v2 :
  valid_binary F32.prec F32.emax s = true -> F32.leb F32.zero s = true ->
  F32.ltb s (S754_infinity false) = true ->
  valid_binary F32.prec F32.emax b = true -> F32.leb F32.zero b = true ->
  0 <= x <= 2 ^ 24 -> 0 <= c <= 2 ^ 24 -> -46340 <= j - y <= 46340 ->
  unit_weight
    (weight expf (spatialTerm x y s (F32.of_int c) j)
       (brightnessTerm b (sample01 u0, sample01 u1, sample01 u2)
                         (sample01 v0, sample01 v1, sample01 v2))).
Proof.
  intros Hvs Hls Hfs Hvb Hlb Hx Hc Hj.
  pose proof (in32 valid_leb_zero_nonneg s Hvs Hls) as Hs.
  pose proof (in32 valid_leb_zero_nonneg b Hvb Hlb) as Hb.
  assert (Hs' : posfin32 s).
  { destruct s as [| [] | | [] m e]; try exact Hs; try contradiction; discriminate Hfs. }
  apply weight_unit.
  - now apply spatialTerm_nonneg.
  - now apply brightnessTerm_nonneg.
Qed.
End Weights.

(** * The sums and the quantization *)

Section Quantize.
Local Notation "'in32' L" := (L F32.prec F32.emax prec32_pos prec32_emax)
  (at level 10, L at level 9, only parsing).
Local Abbreviation nonneg32 := (nonneg F32.prec F32.emax).
Local Abbreviation posfin32 := (posfin F32.prec F32.emax).
Local Abbreviation least32 := (at_least F32.prec F32.emax).
Local Abbreviation fval32 := (fval F32.prec F32.emax).
Local Abbreviation bounded32 := (bounded F32.prec F32.emax).

Lemma fval_one : fval32 F32.one = 2 ^ 149.
Proof. reflexivity. Qed.

Lemma fval_top : fval32 top_weight = 2 ^ 24 * 2 ^ 149.
Proof. reflexivity. Qed.

Lemma unit_weight_posfin w :
  unit_weight w -> posfin32 w /\ fval32 w <= 2 ^ 149.
Proof.
  intros (Hv & H0 & H1).
  pose proof (in32 valid_leb_zero_nonneg w Hv H0) as Hn.
  destruct w as [s0 | [] | | [] m e]; try contradiction.
  - split; [exact I | cbn [fval]; lia].
  - discriminate H1.
  - split; [exact Hn |]. unfold F32.leb in H1.
    rewrite (in32 SFleb_posfin) in H1; [| exact Hn | reflexivity].
    apply Z.leb_le in H1. rewrite fval_one in H1. exact H1.
Qed.

Lemma mul_one_r w : posfin32 w -> F32.mul w F32.one = w.
Proof.
  destruct w as [[] | | | [] m e]; cbn [posfin]; try tauto; intros Hb.
  unfold F32.mul, F32.one. rewrite (in32 SFmul_finite); [| exact Hb | reflexivity].
  cbn [xorb]. change (Zpos m * 8388608) with (Zpos m * 2 ^ 23).
  replace (e + -23) with (e - 23) by lia.
  rewrite (in32 round_pair_scale) by lia.
  rewrite <- (in32 binary_round_pair). now apply (in32 binary_round_bounded).
Qed.

Lemma mul_sample_below w v :
  posfin32 w -> below (F32.mul w (sample01 v)) w.
Proof.
  intros Hw. unfold below.
  destruct (sample_okb_inv _ (sample01_ok v)) as (Hp & _ & Hle).
  assert (H1 : posfin32 F32.one) by reflexivity.
  assert (Hm : posfin32 (SFmul F32.prec F32.emax w F32.one))
    by (fold (F32.mul w F32.one); now rewrite mul_one_r).
  destruct (in32 SFmul_posfin_mono w (sample01 v) w F32.one Hw Hp Hw H1 (Z.le_refl _) Hle Hm)
    as [Ha Hb].
  fold (F32.mul w F32.one) in Hb. rewrite mul_one_r in Hb by assumption.
  split; [exact Ha | exact Hb].
Qed.

Lemma add_saturates W w :
  posfin32 W -> fval32 W <= 2 ^ 24 * 2 ^ 149 ->
  posfin32 w -> fval32 w <= 2 ^ 149 ->
  posfin32 (F32.add W w) /\ fval32 (F32.add W w) <= 2 ^ 24 * 2 ^ 149.
Proof.
  intros HW LW Hw Lw. rewrite <- fval_top.
  change top_weight with (SFadd F32.prec F32.emax top_weight F32.one) at 1.
  unfold F32.add. apply (in32 SFadd_posfin_mono); try assumption; try reflexivity.
Qed.

Lemma add_below f W p w :
  below f W -> below p w -> posfin32 W -> posfin32 w -> posfin32 (F32.add W w) ->
  below (F32.add f p) (F32.add W w).
Proof.
  intros [Hf Lf] [Hp Lp] HW Hw HWw. unfold below, F32.add.
  now apply (in32 SFadd_posfin_mono).
Qed.

(** One step of the loops keeps the sums in order. *)
Lemma sums_step final W w v0 v1 v2 :
  sums_inv (final, W) -> unit_weight w ->
  sums_inv (rgb_map2 F32.add final
              (rgb_map (F32.mul w) (sample01 v0, sample01 v1, sample01 v2)),
            F32.add W w).
Proof.
  destruct final as [[f0 f1] f2]. intros (HW & LW & B0 & B1 & B2) Hw.
  apply unit_weight_posfin in Hw as [Hw Lw].
  destruct (add_saturates W w HW LW Hw Lw) as [HWw LWw].
  cbn [sums_inv rgb_map rgb_map2].
  split; [exact HWw |]. split; [exact LWw |].
  split; [| split]; apply add_below; try assumption; now apply mul_sample_below.
Qed.
(** ** The quotient *)

Lemma normal_of_at_least m e :
  bounded32 m e = true -> 2 ^ 149 <= fval32 (S754_finite false m e) ->
  2 ^ 23 <= Zpos m /\ -149 <= e.
Proof.
  intros Hb Hv. pose proof (in32 bounded_inv m e Hb) as (Hc & _ & He & Hm).
  rewrite emin32 in He. cbn [fval] in Hv. rewrite emin32 in Hv.
  pose proof (digits_bounds m) as [Hl _].
  unfold SpecFloat.fexp, SpecFloat.emin, F32.prec, F32.emax in Hc.
  unfold F32.prec in Hm.
  destruct (Z.eq_dec e (-149)) as [-> | Hne].
  - exfalso. change (2 ^ (-149 - -149)) with 1 in Hv.
    assert (2 ^ 24 < 2 ^ 149) by reflexivity. lia.
  - assert (Hd : Zpos (digits2_pos m) = 24) by lia. rewrite Hd in Hl.
    split; [exact Hl | exact He].
Qed.

Lemma mul_255_bound m e :
  bounded32 m e = true -> 2 ^ 149 <= fval32 (S754_finite false m e) ->
  posfin32 (F32.mul (F32.of_int 255) (S754_finite false m e)) ->
  2 ^ 15 * fval32 (F32.mul (F32.of_int 255) (S754_finite false m e)) <=
  (255 * 2 ^ 15 + 1) * fval32 (S754_finite false m e).
Proof.
  intros Hb Hv Hp. destruct (normal_of_at_least m e Hb Hv) as [Hm He].
  pose proof (in32 bounded_inv m e Hb) as (Hc & _ & _ & _).
  change (F32.of_int 255) with (S754_finite false 16711680 (-16)) in Hp |- *.
  unfold F32.mul in Hp |- *.
  rewrite (in32 SFmul_finite) in Hp |- * by (reflexivity || exact Hb).
  cbn [xorb] in Hp |- *.
  replace (16711680 * Zpos m) with (255 * Zpos m * 2 ^ 16) in Hp |- *
    by (change (2 ^ 16) with 65536; lia).
  replace (-16 + e) with (e - 16) in Hp |- * by lia.
  rewrite (in32 round_pair_scale) in Hp |- * by lia.
  assert (Hulp : pval F32.prec F32.emax (round_pair F32.prec F32.emax (255 * Zpos m) e) <=
                 (255 * Zpos m + 2 ^ 8) * 2 ^ (e - -149)).
  { rewrite <- emin32. apply (in32 pval_round_ulp); try lia; [rewrite emin32; lia |].
    pose proof (in32 Zdigits2_mul 255 (Zpos m) ltac:(lia) ltac:(lia)) as [_ Hd].
    change (Zdigits2 255) with 8 in Hd. cbn [Zdigits2] in Hd.
    pose proof (in32 fexp_mono (Zdigits2 (255 * Zpos m) + e)
                  (8 + Zpos (digits2_pos m) + e) ltac:(lia)) as Hmono.
    unfold SpecFloat.fexp, SpecFloat.emin, F32.prec, F32.emax in Hc, Hmono |- *. lia. }
  cbn [fval]. rewrite emin32.
  pose proof (pow2_pos (e - -149) ltac:(lia)) as HK.
  assert (Hgoal : 2 ^ 15 * ((255 * Zpos m + 2 ^ 8) * 2 ^ (e - -149)) <=
                  (255 * 2 ^ 15 + 1) * (Zpos m * 2 ^ (e - -149))).
  { change (2 ^ 15) with 32768. change (2 ^ 8) with 256. change (2 ^ 23) with 8388608 in Hm.
    nia. }
  destruct (in32 of_pair_round_cases false (255 * Zpos m) e ltac:(lia))
    as [[E P] | [(m' & e' & E & B & P) | [E P]]]; cbv zeta in E.
  - rewrite E. cbn [fval]. nia.
  - rewrite P. lia.
  - rewrite E in Hp. contradiction.
Qed.

Lemma to_uint8_small q n :
  Ztrunc q = Some n -> 0 <= n <= 255 -> exists v, F32.to_uint8 q = Ok v.
Proof.
  intros E Hn. unfold F32.to_uint8. rewrite E.
  destruct (Z.leb_spec 0 n); [| lia].
  destruct (Byte.of_N (Z.to_N n)) as [v |] eqn:Ev; [now exists v |].
  apply Byte.of_N_None_iff in Ev. lia.
Qed.

(** The value converted to [uint8_t]: when the colour sum is at most
    the weight sum, and the weight sum is between [1] and [2^24], its
    integer part is a value of [uint8_t]. *)
Lemma quotient_byte W F :
  least32 0 W -> posfin32 W -> fval32 W <= 2 ^ 24 * 2 ^ 149 -> below F W ->
  byte_valued (quotient W F).
Proof.
  intros HW HWp LW [HF LF].
  destruct W as [| | | [] mW eW]; try contradiction.
  cbn [at_least] in HW. destruct HW as [BW HW1]. rewrite emin32 in HW1. change (2 ^ (0 - -149)) with (2 ^ 149) in HW1.
  assert (H255 : posfin32 (F32.of_int 255)) by reflexivity.
  assert (Htop : posfin32 (SFmul F32.prec F32.emax (F32.of_int 255) top_weight)) by reflexivity.
  destruct (in32 SFmul_posfin_mono (F32.of_int 255) (S754_finite false mW eW)
              (F32.of_int 255) top_weight H255 BW H255 (eq_refl : posfin32 top_weight)
              (Z.le_refl _) LW Htop) as [HP' _].
  destruct (in32 SFmul_posfin_mono (F32.of_int 255) F (F32.of_int 255) (S754_finite false mW eW)
              H255 HF H255 BW (Z.le_refl _) LF HP') as [HP LP].
  pose proof (mul_255_bound mW eW BW HW1 HP') as Hb.
  unfold quotient, F32.div. fold (F32.mul (F32.of_int 255) F) in HP, LP.
  fold (F32.mul (F32.of_int 255) (S754_finite false mW eW)) in LP.
  destruct (in32 posfin_cases _ HP) as [[s0 E] | (mP & eP & E & BP & HeP & PP)]; rewrite E.
  { exists 0. split; [reflexivity | lia]. }
  rewrite E in LP.
  assert (Hlt : fval32 (S754_finite false mP eP) * 2 ^ (- emin F32.prec F32.emax) <
                fval32 above_255 * fval32 (S754_finite false mW eW)).
  { rewrite emin32. change (- -149) with 149.
    change (fval32 above_255) with (16711683 * 2 ^ 133).
    change (2 ^ 149) with (2 ^ 15 * 2 ^ 134) at 1.
    change (2 ^ 134) with (2 * 2 ^ 133).
    change (2 ^ 15) with 32768 in Hb |- *.
    assert (0 < 2 ^ 133) by reflexivity.
    assert (0 < fval32 (S754_finite false mW eW)) by (assert (0 < 2 ^ 149) by reflexivity; lia).
    revert Hb LP H H0.
    generalize (fval32 (S754_finite false mP eP)), (fval32 (S754_finite false mW eW)),
      (fval32 (F32.mul (F32.of_int 255) (S754_finite false mW eW))), (2 ^ 133).
    intros p w p' K Hb LP HK Hw. nia. }
  pose proof (in32 SFdiv_below mP eP mW eW 16711683 (-16) BP BW eq_refl Hlt) as Hdiv.
  destruct (SFdiv F32.prec F32.emax (S754_finite false mP eP) (S754_finite false mW eW))
    as [sr | | | [] mr er]; try contradiction.
  { exists 0. split; [reflexivity | lia]. }
  destruct Hdiv as [Her Hle]. fold above_255 in Hle.
  exists (fval32 (S754_finite false mr er) / 2 ^ 149). split.
  - rewrite (in32 Ztrunc_finite) by exact Her. reflexivity.
  - assert (H149 : 0 < 2 ^ 149) by reflexivity.
    pose proof (in32 fval_nonneg (S754_finite false mr er)) as Hnn.
    split; [now apply Z.div_pos |].
    change 255 with (fval32 above_255 / 2 ^ 149).
    now apply Z.div_le_mono.
Qed.
End Quantize.

(** * The filter returns *)

Section Total.
Local Notation "'in32' L" := (L F32.prec F32.emax prec32_pos prec32_emax)
  (at level 10, L at level 9, only parsing).
Local Abbreviation nonneg32 := (nonneg F32.prec F32.emax).
Local Abbreviation posfin32 := (posfin F32.prec F32.emax).
Local Abbreviation least32 := (at_least F32.prec F32.emax).
Local Abbreviation fval32 := (fval F32.prec F32.emax).

Variable expf : spec_float -> spec_float.
Hypothesis expf_positive : exp_positive expf.
Hypothesis expf_le_one : exp_le_one expf.

Lemma sums0_inv : sums_inv sums0.
Proof.
  unfold sums0, sums_inv, below. cbn [posfin fval F32.zero].
  assert (0 <= 2 ^ 24 * 2 ^ 149) by (vm_compute; discriminate).
  repeat split; try exact I; lia.
Qed.

Lemma windowBody_sums_inv imagein x y s b c j acc :
  posfin32 s -> nonneg32 b ->
  0 <= x < 2 ^ 24 -> 0 <= c < 2 ^ 24 -> in_bounds imagein c j = true ->
  -46340 <= j - y <= 46340 ->
  weight_inv (seen x y c j) acc /\ sums_inv acc ->
  let I1 := (sample01 (data imagein y x 0), sample01 (data imagein y x 1),
             sample01 (data imagein y x 2)) in
  exists acc', windowBody expf imagein x y s b I1 (F32.of_int c) j acc = Ok acc' /\
               weight_inv (seen x y c (j + 1)) acc' /\ sums_inv acc'.
Proof.
  intros Hs Hb Hx Hc Hin Hj [Hw Hsum] I1.
  destruct (windowBody_weight_inv expf expf_positive imagein x y s b c j acc
              Hs Hb Hx Hc Hin Hj Hw) as (acc' & E & Hw').
  exists acc'. split; [exact E |]. split; [exact Hw' |].
  destruct acc as [final weights].
  cbv zeta in E. rewrite windowBody_in_bounds in E by assumption.
  cbv zeta in E. injection E as <-.
  apply sums_step; [exact Hsum |].
  apply (weight_unit expf expf_positive expf_le_one).
  - apply spatialTerm_nonneg; try assumption; lia.
  - now apply brightnessTerm_nonneg.
Qed.

Lemma bilateralSums_inv fuel imagein x y s b support :
  width imagein <= 2 ^ 24 -> height imagein <= Int.max_signed ->
  in_bounds imagein x y = true ->
  valid_binary F32.prec F32.emax s = true -> F32.leb F32.zero s = true ->
  valid_binary F32.prec F32.emax b = true -> F32.leb F32.zero b = true ->
  F32.to_int (F32.mul s (F32.of_int 3)) = Ok support ->
  x + support <= Int.max_signed -> y + support <= Int.max_signed ->
  Z.min support (height imagein - 1) <= 46340 ->
  (Z.to_nat (width imagein) <= fuel)%nat ->
  exists acc, bilateralSums expf fuel imagein x y s b = Ok acc /\
              weight_inv true acc /\ sums_inv acc.
Proof.
  intros Hw Hh Hin Hvs Hls Hvb Hlb Ht Hxs Hys Hsq Hfuel.
  destruct (sigma_support s support Hvs Hls Ht) as [Hs [Hs0 _]].
  pose proof (in32 valid_leb_zero_nonneg b Hvb Hlb) as Hb.
  assert (Hw' : width imagein <= Int.max_signed)
    by (unfold Int.max_signed; change (2 ^ 24) with 16777216 in Hw;
        change (2 ^ 31 - 1) with 2147483647; lia).
  destruct (window_bounds imagein x y support Hs0 Hxs Hys Hw' Hh Hin)
    as (x1 & x2 & y1 & y2 & Ewin & Hx1 & Hx2 & Hy1 & Hy2 & Hx1' & Hx2' & Hy1' & Hy2').
  unfold bilateralSums. rewrite Ht. cbn [bind]. rewrite Ewin.
  unfold getColor01. rewrite Hin. cbn [bind].
  set (I1 := (sample01 (data imagein y x 0), sample01 (data imagein y x 1),
              sample01 (data imagein y x 2))).
  destruct (loop_xs_invariant expf imagein x y s b I1
              (fun c a => weight_inv (seen x y c y1) a /\ sums_inv a) fuel x2 y1 y2 x1 sums0)
    as (acc & E & [Hwi Hsi]).
  - lia.
  - lia.
  - lia.
  - split; [| exact sums0_inv]. split; [exact I |]. unfold seen.
    destruct (Z.ltb_spec x x1), (Z.eqb_spec x1 x), (Z.ltb_spec y y1); cbn; try discriminate; lia.
  - intros c a Hc HR.
    destruct (loop_ys_invariant expf imagein x y s b I1
                (fun j a => weight_inv (seen x y c j) a /\ sums_inv a) (F32.of_int c)
                (Z.to_nat (y2 - y1 + 1)) y1 a HR) as (a' & Ea & HQ).
    + intros j a0 Hj HQ. apply windowBody_sums_inv; try assumption; try lia.
      apply in_bounds_iff. lia.
    + exists a'. split; [exact Ea |].
      replace (y1 + Z.of_nat (Z.to_nat (y2 - y1 + 1))) with (y2 + 1) in HQ by lia.
      rewrite (seen_row x y c y1 y2) in HQ by lia. exact HQ.
  - exists acc. split; [exact E |]. split; [| exact Hsi].
    replace (seen x y (x2 + 1) y1) with true in Hwi; [exact Hwi |].
    unfold seen. destruct (Z.ltb_spec x (x2 + 1)); [reflexivity | lia].
Qed.

(** When the columns are binary32 integers and neither the half-width
    of the window nor the squared row distance wraps around, with an
    [exp] that is between [0] and [1] on the numbers that are not
    positive, [bilateralFilterPixel] returns: the loops end, every read
    is inside the grid, the weight sum is between [1] and [2^24], and
    the integer part of each [255 * final[k] / weights] is a value of
    [uint8_t]. *)
Theorem bilateralFilterPixel_returns fuel imagein x y s b support :
  width imagein <= 2 ^ 24 -> height imagein <= Int.max_signed ->
  in_bounds imagein x y = true ->
  valid_binary F32.prec F32.emax s = true -> F32.leb F32.zero s = true ->
  valid_binary F32.prec F32.emax b = true -> F32.leb F32.zero b = true ->
  F32.to_int (F32.mul s (F32.of_int 3)) = Ok support ->
  x + support <= Int.max_signed -> y + support <= Int.max_signed ->
  Z.min support (height imagein - 1) <= 46340 ->
  (Z.to_nat (width imagein) <= fuel)%nat ->
  exists f0 f1 f2 weights px,
    bilateralSums expf fuel imagein x y s b = Ok ((f0, f1, f2), weights) /\
    F32.leb F32.one weights = true /\ F32.leb weights top_weight = true /\
    byte_valued (quotient weights f0) /\ byte_valued (quotient weights f1) /\
    byte_valued (quotient weights f2) /\
    bilateralFilterPixel expf fuel imagein x y s b = Ok px.
Proof.
  intros Hw Hh Hin Hvs Hls Hvb Hlb Ht Hxs Hys Hsq Hfuel.
  destruct (bilateralSums_inv fuel imagein x y s b support Hw Hh Hin Hvs Hls Hvb Hlb Ht
              Hxs Hys Hsq Hfuel) as ([[[f0 f1] f2] weights] & E & [_ Hl] & Hsi).
  specialize (Hl eq_refl). cbn [snd] in Hl.
  destruct Hsi as (HW & LW & B0 & B1 & B2).
  pose proof (quotient_byte weights f0 Hl HW LW B0) as Q0.
  pose proof (quotient_byte weights f1 Hl HW LW B1) as Q1.
  pose proof (quotient_byte weights f2 Hl HW LW B2) as Q2.
  destruct Q0 as (n0 & T0 & R0). destruct (to_uint8_small _ n0 T0 R0) as [v0 E0].
  destruct Q1 as (n1 & T1 & R1). destruct (to_uint8_small _ n1 T1 R1) as [v1 E1].
  destruct Q2 as (n2 & T2 & R2). destruct (to_uint8_small _ n2 T2 R2) as [v2 E2].
  exists f0, f1, f2, weights, (v0, v1, v2).
  split; [exact E |]. split; [now apply (at_least_leb_one) |]. split.
  { unfold F32.leb. rewrite (in32 SFleb_posfin); [| exact HW | reflexivity].
    apply Z.leb_le. rewrite fval_top. exact LW. }
  split; [now exists n0 |]. split; [now exists n1 |]. split; [now exists n2 |].
  unfold bilateralFilterPixel. rewrite E. cbn [bind quantize].
  rewrite E0. cbn [bind]. rewrite E1. cbn [bind]. rewrite E2. reflexivity.
Qed.
Lemma quantize_ok acc :
  weight_inv true acc -> sums_inv acc -> exists px, quantize acc = Ok px.
Proof.
  destruct acc as [[[f0 f1] f2] weights]. intros [_ Hl] (HW & LW & B0 & B1 & B2).
  specialize (Hl eq_refl). cbn [snd] in Hl.
  destruct (quotient_byte weights f0 Hl HW LW B0) as (n0 & T0 & R0).
  destruct (quotient_byte weights f1 Hl HW LW B1) as (n1 & T1 & R1).
  destruct (quotient_byte weights f2 Hl HW LW B2) as (n2 & T2 & R2).
  destruct (to_uint8_small _ n0 T0 R0) as [v0 E0].
  destruct (to_uint8_small _ n1 T1 R1) as [v1 E1].
  destruct (to_uint8_small _ n2 T2 R2) as [v2 E2].
  exists (v0, v1, v2). cbn [quantize].
  rewrite E0. cbn [bind]. rewrite E1. cbn [bind]. rewrite E2. reflexivity.
Qed.

Section Image.
Variable fuel : nat.
Variable p : Parameters.
Variable support : Z.
Hypothesis s_valid : valid_binary F32.prec F32.emax (s p) = true.
Hypothesis s_nonneg : F32.leb F32.zero (s p) = true.
Hypothesis b_valid : valid_binary F32.prec F32.emax (b p) = true.
Hypothesis b_nonneg : F32.leb F32.zero (b p) = true.
Hypothesis s_support : F32.to_int (F32.mul (s p) (F32.of_int 3)) = Ok support.

Local Abbreviation fits := (fits fuel support).

Lemma pixel_returns imagein x y :
  fits imagein -> in_bounds imagein x y = true ->
  exists px, bilateralFilterPixel expf fuel imagein x y (s p) (b p) = Ok px.
Proof.
  intros (Hw & Hf & Hh & Hws & Hhs & Hsq) Hin.
  destruct (sigma_support (s p) support s_valid s_nonneg s_support) as [_ [Hs0 _]].
  pose proof (proj1 (in_bounds_iff imagein x y) Hin) as [Hx Hy].
  destruct (bilateralSums_inv fuel imagein x y (s p) (b p) support) as (acc & E & Hwi & Hsi);
    try assumption; try lia.
  destruct (quantize_ok acc Hwi Hsi) as [px Epx].
  exists px. unfold bilateralFilterPixel. rewrite E. exact Epx.
Qed.

Lemma pass_returns imagein imageout :
  fits imagein -> same_size imagein imageout ->
  exists out, filterPass expf fuel imagein p imageout = Ok out /\ same_size out imageout.
Proof.
  intros Hfit Hsz.
  destruct (filterRows_returns expf fuel imagein p (Z.to_nat (height imagein)) 0 imageout)
    as [out E].
  { intros x y Hy Hx.
    assert (Hin : in_bounds imagein x y = true) by (apply in_bounds_iff; lia).
    split; [now apply pixel_returns |].
    now rewrite <- (in_bounds_same_size imagein imageout). }
  exists out. split; [exact E |]. now apply filterRows_spec in E.
Qed.

Lemma repLoop_returns n : forall rep st,
  fits (st_in st) -> same_size (st_in st) (st_out st) ->
  exists st', repLoop expf fuel p n rep st = Ok st'.
Proof.
  induction n as [| n IH]; intros rep st Hfit Hsz; [now exists st |].
  cbn [repLoop].
  destruct (pass_returns (st_in st) (st_out st) Hfit Hsz) as (out & E & Hout).
  rewrite E. cbn [bind].
  assert (Hin_out : same_size (st_in st) out)
    by (apply (same_size_trans _ (st_out st)); [exact Hsz | now apply same_size_sym]).
  destruct (rep <? Int.sub (reps p) 1); apply IH; cbn [st_in st_out]; assumption.
Qed.

(** On canvases of equal size with at most [2^24] columns, for sigmas
    [s >= 0] and [b >= 0] whose window half-width [(int)(3 * s)] is
    defined and wraps neither [x + support] nor the squared row
    distance, [filterImage] returns for every number of repetitions: no
    loop runs on, no read or write leaves the grids, and no conversion
    is undefined. *)
Theorem filterImage_returns st :
  fits (st_in st) -> same_size (st_in st) (st_out st) ->
  exists st', filterImage expf fuel st p = Ok st'.
Proof. intros Hfit Hsz. now apply repLoop_returns. Qed.
End Image.
End Total.

(** * Canvases wider than the binary32 integers *)

Section Wide.
Local Notation "'in32' L" := (L F32.prec F32.emax prec32_pos prec32_emax)
  (at level 10, L at level 9, only parsing).
Local Abbreviation posfin32 := (posfin F32.prec F32.emax).
Local Abbreviation fval32 := (fval F32.prec F32.emax).

Lemma of_int_wide j :
  2 ^ 24 <= j <= Int.max_signed ->
  posfin32 (F32.of_int j) /\ 2 ^ 24 * 2 ^ 149 <= fval32 (F32.of_int j).
Proof.
  intros Hj. unfold Int.max_signed in Hj.
  assert (H24 : 0 < 2 ^ 24) by reflexivity.
  assert (H149 : 0 < 2 ^ 149) by reflexivity.
  rewrite of_int_signed, (in32 round_signed_pos) by (apply scale149_pos; lia).
  assert (Hal : at_least F32.prec F32.emax 24 (rnd F32.prec F32.emax false (j * 2 ^ 149))).
  { apply (in32 rnd_at_least); [rewrite emin32; unfold F32.prec; lia |].
    rewrite emin32. change (2 ^ (24 - -149)) with (2 ^ 24 * 2 ^ 149).
    apply Z.mul_le_mono_nonneg_r; lia. }
  assert (Hmag : mag_le F32.prec F32.emax 31 (rnd F32.prec F32.emax false (j * 2 ^ 149))).
  { apply (in32 rnd_mag); [rewrite emin32; lia | unfold F32.emax; lia |].
    split; [apply scale149_pos; lia |].
    rewrite emin32. change (2 ^ (31 - -149)) with (2 ^ 31 * 2 ^ 149).
    apply Z.mul_le_mono_nonneg_r; lia. }
  destruct (in32 at_least_mag_finite 24 31 _ Hal Hmag) as (m & e & E & Hb).
  rewrite E in Hal |- *. split; [exact Hb |].
  cbn [at_least] in Hal. destruct Hal as [_ Hv]. rewrite emin32 in Hv. exact Hv.
Qed.

Lemma leb_wide i j :
  0 <= i <= 2 ^ 24 -> 2 ^ 24 <= j <= Int.max_signed ->
  F32.leb (F32.of_int i) (F32.of_int j) = true.
Proof.
  intros Hi Hj. destruct (of_int_wide j Hj) as [Hp Hv]. unfold F32.leb.
  rewrite (in32 SFleb_posfin); [| now apply of_int_posfin | exact Hp].
  apply Z.leb_le. rewrite of_int_fval by assumption.
  assert (H149 : 0 < 2 ^ 149) by reflexivity.
  apply Z.le_trans with (2 ^ 24 * 2 ^ 149); [| exact Hv].
  apply Z.mul_le_mono_nonneg_r; lia.
Qed.

Section Loop.
Variable expf : spec_float -> spec_float.

(** With a last column at or beyond [2^24] the loop of line 126 never
    ends: its variable stays at [2^24]. *)
Lemma loop_xs_wide imagein x y s b I1 x2 y1 y2 fuel :
  2 ^ 24 <= x2 <= Int.max_signed ->
  forall i acc r, 0 <= i <= 2 ^ 24 ->
    loop_xs expf fuel imagein x y s b I1 x2 y1 y2 (F32.of_int i) acc <> Ok r.
Proof.
  intros Hx2. induction fuel as [| fuel IH]; intros i acc r Hi; cbn [loop_xs];
    rewrite leb_wide by assumption; [discriminate |].
  destruct (loop_ys expf imagein x y s b I1 (F32.of_int i) (Z.to_nat (y2 - y1 + 1)) y1 acc)
    as [acc' | f]; cbn [bind]; [| discriminate].
  destruct (Z.eq_dec i (2 ^ 24)) as [-> | Hne].
  - change (F32.add (F32.of_int (2 ^ 24)) F32.one) with (F32.of_int (2 ^ 24)).
    apply IH. lia.
  - rewrite of_int_succ by lia. apply IH. lia.
Qed.

Lemma wide_pixel_fails imagein x y s b support fuel px :
  in_bounds imagein x y = true ->
  F32.to_int (F32.mul s (F32.of_int 3)) = Ok support -> 0 <= support ->
  x + support <= Int.max_signed -> y + support <= Int.max_signed ->
  width imagein <= Int.max_signed -> height imagein <= Int.max_signed ->
  x - support <= 2 ^ 24 <= x + support -> 2 ^ 24 < width imagein ->
  bilateralFilterPixel expf fuel imagein x y s b <> Ok px.
Proof.
  intros Hin Ht Hs Hxs Hys Hw Hh Hreach Hwide.
  pose proof (proj1 (in_bounds_iff imagein x y) Hin) as [Hx Hy].
  unfold bilateralFilterPixel, bilateralSums. rewrite Ht. cbn [bind].
  rewrite window_closed_form by lia.
  unfold getColor01. rewrite Hin. cbn [bind].
  match goal with
  | |- context [loop_xs ?e ?f ?im ?a ?c ?d ?g ?I ?x2 ?y1 ?y2 (F32.of_int ?i) ?acc] =>
      pose proof (loop_xs_wide im a c d g I x2 y1 y2 f ltac:(lia) i acc) as Hloop;
      destruct (loop_xs e f im a c d g I x2 y1 y2 (F32.of_int i) acc) as [r | flt]
  end; cbn [bind]; [| discriminate].
  exfalso. apply (Hloop r); [lia | reflexivity].
Qed.

(** A target whose window holds column [2^24] gets no pixel, whatever
    the fuel: the column loop, counting in binary32, cannot pass
    [2^24]; either a fault comes first or the loop runs on. *)
Theorem bilateralFilterPixel_wide_never_returns imagein x y s b support :
  in_bounds imagein x y = true ->
  F32.to_int (F32.mul s (F32.of_int 3)) = Ok support -> 0 <= support ->
  x + support <= Int.max_signed -> y + support <= Int.max_signed ->
  width imagein <= Int.max_signed -> height imagein <= Int.max_signed ->
  x - support <= 2 ^ 24 <= x + support -> 2 ^ 24 < width imagein ->
  (exists x1 x2 y1 y2, window imagein x y support = (x1, x2, y1, y2) /\
                       0 <= x1 <= 2 ^ 24 /\ 2 ^ 24 <= x2 < width imagein) /\
  F32.add (F32.of_int (2 ^ 24)) F32.one = F32.of_int (2 ^ 24) /\
  forall fuel px, bilateralFilterPixel expf fuel imagein x y s b <> Ok px.
Proof.
  intros Hin Ht Hs Hxs Hys Hw Hh Hreach Hwide.
  pose proof (proj1 (in_bounds_iff imagein x y) Hin) as [Hx Hy].
  split; [| split; [reflexivity |]].
  - eexists _, _, _, _. split; [apply window_closed_form; lia | lia].
  - intros fuel px. now apply (wide_pixel_fails imagein x y s b support).
Qed.

(** On a canvas more than [2^24] columns wide, [filterImage] with at
    least one repetition never returns, whatever the fuel. *)
Theorem filterImage_wide_never_returns st p support :
  2 ^ 24 < width (st_in st) <= Int.max_signed ->
  1 <= height (st_in st) <= Int.max_signed ->
  F32.to_int (F32.mul (s p) (F32.of_int 3)) = Ok support -> 0 <= support ->
  2 ^ 24 + support <= Int.max_signed ->
  1 <= reps p ->
  forall fuel st', filterImage expf fuel st p <> Ok st'.
Proof.
  intros Hw Hh Ht Hs Hsup Hr fuel st'. unfold filterImage.
  destruct (Z.to_nat (reps p)) as [| n] eqn:En; [lia |]. cbn [repLoop].
  destruct (filterPass expf fuel (st_in st) p (st_out st)) as [out | f] eqn:E; cbn [bind];
    [| discriminate].
  exfalso. unfold filterPass in E. apply filterRows_spec in E as (_ & Hpx & _).
  destruct (Hpx (2 ^ 24) 0) as [Epx _]; [lia | lia |].
  revert Epx. apply wide_pixel_fails with (support := support); try assumption; try lia.
  apply in_bounds_iff. lia.
Qed.
End Loop.
End Wide.

(** * Sigmas too large for the window arithmetic *)

Section HugeSigma.
Variable expf : spec_float -> spec_float.
Variable fuel : nat.

(** Column 128 of a canvas 129 columns wide, with [s = 715827840]:
    the window is empty and nothing is summed. *)
Lemma wrapped_window_sums :
  bilateralSums expf fuel (uniform 129 1 xff) 128 0 huge_sigma F32.zero = Ok sums0.
Proof.
  unfold bilateralSums.
  change (F32.to_int (F32.mul huge_sigma (F32.of_int 3))) with (Ok (A := Z) 2147483520).
  cbn [bind].
  change (window (uniform 129 1 xff) 128 0 2147483520) with (0, -2147483648, 0, 0).
  change (getColor01 (uniform 129 1 xff) 128 0)
    with (Ok (sample01 xff, sample01 xff, sample01 xff)).
  cbn [bind].
  destruct fuel; cbn [loop_xs];
    change (F32.leb (F32.of_int 0) (F32.of_int (-2147483648))) with false; reflexivity.
Qed.

Lemma wrapped_window_pixel :
  bilateralFilterPixel expf fuel (uniform 129 1 xff) 128 0 huge_sigma F32.zero =
    Err UndefinedConversion.
Proof. unfold bilateralFilterPixel. rewrite wrapped_window_sums. reflexivity. Qed.

(** C1: the window does not hold the target for every in-bounds target
    and every [s >= 0].  For column 128 of a canvas 129 columns wide
    and [s = 715827840] the half-width is 2147483520, [x + support] is
    [2^31] and wraps around to [-2^31], the last column of the window is
    negative, the loops add nothing, not even the target, and the
    weight sum is [+0], which is neither at least [1] nor positive.
    [filterImage] reaches this target on that canvas and does not
    return. *)
Theorem weight_sum_zero_when_window_wraps :
  in_bounds (uniform 129 1 xff) 128 0 = true /\
  F32.leb F32.zero huge_sigma = true /\
  F32.to_int (F32.mul huge_sigma (F32.of_int 3)) = Ok 2147483520 /\
  Int.add 128 2147483520 = -2147483648 /\
  window (uniform 129 1 xff) 128 0 2147483520 = (0, -2147483648, 0, 0) /\
  bilateralSums expf fuel (uniform 129 1 xff) 128 0 huge_sigma F32.zero = Ok sums0 /\
  F32.leb F32.one (snd sums0) = false /\
  F32.ltb F32.zero (snd sums0) = false /\
  forall p st',
    s p = huge_sigma -> b p = F32.zero -> 1 <= reps p ->
    filterImage expf fuel (start (uniform 129 1 xff)) p <> Ok st'.
Proof.
  split; [reflexivity |]. split; [reflexivity |]. split; [reflexivity |].
  split; [reflexivity |]. split; [reflexivity |].
  split; [exact wrapped_window_sums |]. split; [reflexivity |]. split; [reflexivity |].
  intros p st' Hs Hb Hr. unfold filterImage.
  destruct (Z.to_nat (reps p)) as [| n] eqn:En; [lia |]. cbn [repLoop].
  destruct (filterPass expf fuel (st_in (start (uniform 129 1 xff))) p
              (st_out (start (uniform 129 1 xff)))) as [out | f] eqn:E; cbn [bind];
    [| discriminate].
  exfalso. unfold filterPass in E. apply filterRows_spec in E as (_ & Hpx & _).
  destruct (Hpx 128 0) as [Epx _]; [cbn; lia | cbn; lia |].
  cbn [start st_in] in Epx. rewrite Hs, Hb, wrapped_window_pixel in Epx. discriminate Epx.
Qed.

(** C7: the value converted to [uint8_t] is not in [[0, 255]] for every
    input and every [s >= 0].  On the same input the weight sum and
    the colour sums are [+0], [255 * final[k] / weights] is [0 / 0], a
    NaN, and its conversion to [uint8_t] is undefined. *)
Theorem quotient_nan_when_window_wraps :
  in_bounds (uniform 129 1 xff) 128 0 = true /\
  F32.leb F32.zero huge_sigma = true /\ F32.leb F32.zero F32.zero = true /\
  bilateralSums expf fuel (uniform 129 1 xff) 128 0 huge_sigma F32.zero =
    Ok ((F32.zero, F32.zero, F32.zero), F32.zero) /\
  quotient F32.zero F32.zero = S754_nan /\
  Ztrunc (quotient F32.zero F32.zero) = None /\
  F32.to_uint8 (quotient F32.zero F32.zero) = Err UndefinedConversion /\
  bilateralFilterPixel expf fuel (uniform 129 1 xff) 128 0 huge_sigma F32.zero =
    Err UndefinedConversion.
Proof.
  split; [reflexivity |]. split; [reflexivity |]. split; [reflexivity |].
  split; [exact wrapped_window_sums |]. split; [reflexivity |]. split; [reflexivity |].
  split; [reflexivity | exact wrapped_window_pixel].
Qed.

(** C5: a 1x1 canvas is not reproduced for every [s >= 0].  For
    [s = 2^31] the product [3 * s] is beyond the range of [int], the
    conversion of line 112 is undefined, and no pixel is returned,
    whatever the canvas, the target and [b] are. *)
Theorem single_pixel_huge_sigma imagein x y b :
  valid_binary F32.prec F32.emax (F32.of_int (2 ^ 31)) = true /\
  F32.leb F32.zero (F32.of_int (2 ^ 31)) = true /\
  Ztrunc (F32.mul (F32.of_int (2 ^ 31)) (F32.of_int 3)) = Some 6442450944 /\
  Int.in_range 6442450944 = false /\
  bilateralFilterPixel expf fuel imagein x y (F32.of_int (2 ^ 31)) b =
    Err UndefinedConversion /\
  bilateralFilterPixel expf fuel (uniform 1 1 xff) 0 0 (F32.of_int (2 ^ 31)) F32.zero
    <> Ok (xff, xff, xff).
Proof.
  assert (E : forall im tx ty tb,
            bilateralFilterPixel expf fuel im tx ty (F32.of_int (2 ^ 31)) tb =
              Err UndefinedConversion).
  { intros im tx ty tb. unfold bilateralFilterPixel, bilateralSums.
    change (F32.to_int (F32.mul (F32.of_int (2 ^ 31)) (F32.of_int 3)))
      with (Err (A := Z) UndefinedConversion).
    reflexivity. }
  split; [reflexivity |]. split; [reflexivity |]. split; [reflexivity |].
  split; [reflexivity |]. split; [apply E |]. rewrite E. discriminate.
Qed.
End HugeSigma.

(** * Runs of the command line, the driver and the program *)

Local Open Scope string_scope.

Lemma parseArgs_any_order_witness :
  parseArgs atof_ref atoi_ref ("imfilter" :: render [(KIn, "a.png"); (KReps, "2")]) =
  parseArgs atof_ref atoi_ref ("imfilter" :: render [(KReps, "2"); (KIn, "a.png")]).
Proof.
  apply parseArgs_any_order.
  - apply perm_swap.
  - repeat constructor; cbn; intros H; repeat (destruct H as [H | H]; try discriminate H);
      exact H.
Defined.

Lemma parseArgs_skips_plain_witness :
  parseArgs atof_ref atoi_ref
    ("imfilter" :: render [(KReps, "2")] ++ ["a.png"; "b.png"] ++ ["--s"; "1"]) =
  parseArgs atof_ref atoi_ref ("imfilter" :: render [(KReps, "2")] ++ ["--s"; "1"]).
Proof. apply parseArgs_skips_plain. repeat constructor. Defined.

Lemma parseArgs_invalid_option_witness :
  parseArgs atof_ref atoi_ref ("imfilter" :: render [(KIn, "a.png")] ++ ["--kernelWidth"; "3"]) =
  Exited 0 true (invalid_option "--kernelWidth").
Proof.
  apply parseArgs_invalid_option.
  - reflexivity.
  - discriminate.
  - intros []; discriminate.
Defined.

Lemma parseArgs_option_absent_witness :
  let argv := ["imfilter"; "--in"; "a.png"; "--s"; "2"] in
  let a := set_s (F32.of_int 2) (set_inpath (Some "a.png") args0) in
  parseArgs atof_ref atoi_ref argv = Returned a /\
  ((~ In "--in" (tl argv) -> a_inpath a = Indeterminate) /\
   (~ In "--out" (tl argv) -> a_outpath a = Indeterminate) /\
   (~ In "--s" (tl argv) -> a_s a = Indeterminate) /\
   (~ In "--b" (tl argv) -> a_b a = Indeterminate) /\
   (~ In "--nthreads" (tl argv) -> a_nthreads a = 1%Z) /\
   (~ In "--reps" (tl argv) -> a_reps a = 1%Z)).
Proof.
  split; [reflexivity |].
  apply (parseArgs_option_absent atof_ref atoi_ref). reflexivity.
Defined.

Local Open Scope Z_scope.

Lemma filterPass_pixels_witness :
  let c := uniform 2 2 x80 in
  let p := sample_params F32.one F32.one 1 in
  exists out, filterPass expf_ref 2 c p c = Ok out /\
    (same_size out c /\
     (forall x y, in_bounds c x y = true ->
        bilateralFilterPixel expf_ref 2 c x y (s p) (b p) =
          Ok (data out y x 0, data out y x 1, data out y x 2) /\
        in_bounds c x y = true) /\
     (forall x y k, ~ (in_bounds c x y = true /\ 0 <= k < 3) ->
        data out y x k = data c y x k)).
Proof.
  intros c p. destruct (filterPass expf_ref 2 c p c) as [out | f] eqn:E.
  - exists out. split; [reflexivity |]. exact (filterPass_pixels expf_ref 2 c p c out E).
  - vm_compute in E. discriminate E.
Defined.

Lemma filterImage_frame_witness :
  let st := start (uniform 2 2 x80) in
  let p := sample_params F32.one F32.one 2 in
  exists st', filterImage expf_ref 2 st p = Ok st' /\
    (same_size (st_in st') (st_in st) /\ same_size (st_out st') (st_out st)).
Proof.
  intros st p. destruct (filterImage expf_ref 2 st p) as [st' | f] eqn:E.
  - exists st'. split; [reflexivity |]. exact (filterImage_frame expf_ref 2 p st st' E).
  - vm_compute in E. discriminate E.
Defined.

Lemma filterImage_files_witness :
  let st := start (uniform 2 2 x80) in
  let p := sample_params F32.one F32.one 3 in
  exists st', filterImage expf_ref 2 st p = Ok st' /\
    (map fst (st_files st') = ["rep1.png"; "rep0.png"]%string /\
     List.length (st_files st') = 2%nat).
Proof.
  intros st p. destruct (filterImage expf_ref 2 st p) as [st' | f] eqn:E.
  - exists st'. split; [reflexivity |].
    apply (filterImage_files expf_ref 2 p st st'); [vm_compute; discriminate | exact E].
  - vm_compute in E. discriminate E.
Defined.


Lemma filterImage_zero_sigmas_witness :
  let st := start (uniform 2 2 x80) in
  let p := sample_params F32.zero F32.zero 3 in
  exists st', filterImage expf_ref 1 st p = Ok st' /\
              same_pixels (st_in st) (st_in st') /\
              (1 <= reps p -> same_pixels (st_in st) (st_out st')).
Proof.
  intros st p.
  apply (filterImage_zero_sigmas expf_ref 1 p); try reflexivity.
  - vm_compute. discriminate.
  - vm_compute. discriminate.
  - split; reflexivity.
Defined.

Lemma zero_sigmas_below_2p24_witness :
  bilateralFilterPixel expf_ref 1 (uniform 4 4 x80) 3 2 F32.zero F32.zero =
    Ok (x80, x80, x80).
Proof.
  apply (zero_sigmas_below_2p24 expf_ref eq_refl 1 (uniform 4 4 x80) 3 2);
    try reflexivity; vm_compute; discriminate.
Defined.

Lemma main_no_repetition_witness :
  main atof_ref atoi_ref expf_ref load_ref 1 ("imfilter"%string :: render (demo_options "0")) =
  Completed [("out.png"%string, uniform 2 2 x80)].
Proof.
  apply (main_no_repetition atof_ref atoi_ref expf_ref load_ref 1 "imfilter" (demo_options "0")
           "in.png" "out.png" "0" "0" "0"); reflexivity.
Defined.

Lemma main_files_witness :
  exists fs,
    main atof_ref atoi_ref expf_ref load_ref 1 ("imfilter"%string :: render (demo_options "3")) =
      Completed fs /\
    map fst fs = ["out.png"; "rep1.png"; "rep0.png"]%string.
Proof.
  destruct (main atof_ref atoi_ref expf_ref load_ref 1
              ("imfilter"%string :: render (demo_options "3"))) as [| fs | | |] eqn:E;
    try (vm_compute in E; discriminate E).
  exists fs. split; [reflexivity |].
  apply (main_files atof_ref atoi_ref expf_ref load_ref 1 "imfilter" (demo_options "3")
           "in.png" "out.png" "0" "0" fs); try reflexivity; [| exact E].
  vm_compute. discriminate.
Defined.


Lemma main_zero_sigmas_witness :
  exists fs c,
    main atof_ref atoi_ref expf_ref load_ref 1 ("imfilter"%string :: render (demo_options "3")) =
      Completed fs /\
    file_named "out.png" fs = Some c /\ same_size c (uniform 2 2 x80) /\
    same_pixels (uniform 2 2 x80) c.
Proof.
  apply (main_zero_sigmas atof_ref atoi_ref expf_ref load_ref 1 "imfilter" (demo_options "3")
           "in.png" "out.png" "0" "0" (uniform 2 2 x80)); try reflexivity;
    vm_compute; discriminate.
Defined.

Lemma getColor01_unit_range_witness :
  let c := uniform 2 2 x80 in
  in_bounds c 1 0 = true /\
  (getColor01 c 1 0 = Ok (sample01 x80, sample01 x80, sample01 x80) /\
   unit_sample x80 (sample01 x80) /\
   unit_sample x80 (sample01 x80) /\
   unit_sample x80 (sample01 x80)).
Proof.
  intros c. split; [reflexivity |].
  exact (getColor01_unit_range c 1 0 eq_refl).
Defined.

Lemma sample01_increasing_witness :
  (Byte.to_N x7f < Byte.to_N x80)%N /\ F32.ltb (sample01 x7f) (sample01 x80) = true.
Proof. split; [reflexivity | apply sample01_increasing; reflexivity]. Defined.

Lemma getColor01_quantize_round_trip_witness :
  let c := uniform 2 2 x80 in
  (col <- getColor01 c 1 1 ;; quantize (col, F32.one)) = Ok (x80, x80, x80).
Proof. intros c. apply (getColor01_quantize_round_trip c 1 1). reflexivity. Defined.

Lemma getIntensity_gray_witness :
  getIntensity (sample01 x80, sample01 x80, sample01 x80) = sample01 x80.
Proof.
  apply (getIntensity_gray (uniform 2 2 x80) 1 1); reflexivity.
Defined.

Lemma window_clipped_witness :
  let c := uniform 4 4 x80 in
  window c 1 3 2 = (0, 3, 1, 3) /\
  forall i j,
    (0 <= i <= 3 /\ 1 <= j <= 3) <->
    (in_bounds c i j = true /\ Z.abs (i - 1) <= 2 /\ Z.abs (j - 3) <= 2).
Proof.
  intros c. apply (window_clipped c 1 3 2); vm_compute; try discriminate;
    split; discriminate.
Defined.

Lemma weight_unit_interval_witness :
  unit_weight
    (weight expf_ref (spatialTerm 1 1 F32.one (F32.of_int 2) 0)
       (brightnessTerm F32.one (sample01 x80, sample01 x80, sample01 x80)
                               (sample01 x40, sample01 x40, sample01 xff))).
Proof.
  apply (weight_unit_interval expf_ref expf_ref_positive expf_ref_le_one);
    try reflexivity; vm_compute; split; discriminate.
Defined.

Lemma bilateralFilterPixel_returns_witness :
  let c := uniform 4 4 x80 in
  exists f0 f1 f2 weights px,
    bilateralSums expf_ref 4 c 1 1 F32.one F32.one = Ok ((f0, f1, f2), weights) /\
    F32.leb F32.one weights = true /\ F32.leb weights top_weight = true /\
    byte_valued (quotient weights f0) /\ byte_valued (quotient weights f1) /\
    byte_valued (quotient weights f2) /\
    bilateralFilterPixel expf_ref 4 c 1 1 F32.one F32.one = Ok px.
Proof.
  intros c.
  apply (bilateralFilterPixel_returns expf_ref expf_ref_positive expf_ref_le_one 4 c 1 1
           F32.one F32.one 3); try reflexivity; vm_compute; try lia; discriminate.
Defined.

Lemma filterImage_returns_witness :
  exists st',
    filterImage expf_ref 4 (start (uniform 4 4 x80)) (sample_params F32.one F32.one 2) = Ok st'.
Proof.
  apply (filterImage_returns expf_ref expf_ref_positive expf_ref_le_one 4
           (sample_params F32.one F32.one 2) 3); try reflexivity.
  - unfold fits. vm_compute. repeat split; try discriminate; lia.
  - split; reflexivity.
Defined.

Lemma bilateralFilterPixel_wide_never_returns_witness :
  let c := uniform 16777217 1 x80 in
  in_bounds c 16777216 0 = true /\
  ((exists x1 x2 y1 y2, window c 16777216 0 0 = (x1, x2, y1, y2) /\
                        0 <= x1 <= 2 ^ 24 /\ 2 ^ 24 <= x2 < width c) /\
   F32.add (F32.of_int (2 ^ 24)) F32.one = F32.of_int (2 ^ 24) /\
   forall fuel px,
     bilateralFilterPixel expf_ref fuel c 16777216 0 F32.zero F32.zero <> Ok px).
Proof.
  intros c. split; [reflexivity |].
  apply (bilateralFilterPixel_wide_never_returns expf_ref c 16777216 0 F32.zero F32.zero 0);
    try reflexivity; vm_compute; try discriminate; split; discriminate.
Defined.

Lemma filterImage_wide_never_returns_witness :
  let st := start (uniform 16777217 1 x80) in
  2 ^ 24 < width (st_in st) /\
  forall fuel st', filterImage expf_ref fuel st (sample_params F32.zero F32.zero 1) <> Ok st'.
Proof.
  intros st. split; [reflexivity |].
  apply (filterImage_wide_never_returns expf_ref st (sample_params F32.zero F32.zero 1) 0);
    try reflexivity; vm_compute; try discriminate; split; (reflexivity || discriminate).
Defined.
